(** * The viewer-side signaling coordinator of [src/App.tsx]

    A shallow embedding of the [App] component: the peer registry
    ([streamersRef]), the signaling message router and the session
    controller ([handleConnect] and the four WebSocket callbacks).

    The component is event driven.  Every callback of the source is a
    function on an explicit [World]; the browser objects the component
    owns (peer connections, web sockets, timers) live in object stores
    indexed by handle, so that two references to one object alias.  The
    outcomes of the browser's own work (a socket opening, a promise
    settling, a timer firing) are events delivered from outside. *)

From stdpp Require Import base list strings pretty.
From Stdlib Require Import ZArith Lia.

Open Scope Z_scope.
Open Scope string_scope.
Open Scope list_scope.

(** ** Data declared at the top of the source *)

Inductive ConnectionStatus :=
  | Disconnected
  | Connecting
  | Connected
  | ConnectionError.

Global Instance ConnectionStatus_eq_dec : EqDecision ConnectionStatus.
Proof. solve_decision. Defined.

Definition ConnectionStatusToStr (cs : ConnectionStatus) : string :=
  match cs with
  | Disconnected => "disconnected"
  | Connecting => "connecting"
  | Connected => "connected"
  | ConnectionError => "connection error"
  end.

(** SDP descriptions, the ICE candidates the browser gathers and media
    streams are opaque to the component: it only passes them on. *)
Definition Sdp := string.
Definition IceCandidate := string.
Definition MediaStream := string.

(** The [candidate] member of an [ice-candidate] message as [JSON.parse]
    returns it: the dictionary [new RTCIceCandidate] is called with.  A
    member that is missing or [null] is [None]. *)
Record RTCIceCandidateInit := {
  candidate : string;
  sdpMid : option string;
  sdpMLineIndex : option Z;
}.

(** The inbound envelope, one constructor per message type of the source;
    [UnknownMessage] is any other [type] string. *)
Inductive SignalingMessage :=
  | ConnectMessage (id : Z) (streamers : list Z)
  | DisconnectedMessage (streamer_id : Z)
  | NewStreamerMessage (streamer_id : Z)
  | OfferMessage (sdp : Sdp) (sender : Z)
  | CandidateMessage (candidate : RTCIceCandidateInit) (sender : Z)
  | UnknownMessage (type : string).

(** What [sendToPeer] is given as [data]; the message on the wire is
    [data] with a [target] field added. *)
Inductive PeerData :=
  | DataIceCandidate (candidate : IceCandidate)
  | DataAnswer (answer : Sdp)
  | DataSubscribe.

Record Outbound := { out_data : PeerData; out_target : Z }.

(** ** [Map<number, V>]: an insertion-ordered map *)

Module JsMap.
Section Ops.
Context {V : Type}.

Definition t := list (Z * V).

Fixpoint get (k : Z) (m : t) : option V :=
  match m with
  | [] => None
  | (k', v) :: m' => if Z.eqb k k' then Some v else get k m'
  end.

Definition has (k : Z) (m : t) : bool :=
  match get k m with Some _ => true | None => false end.

(** An existing key keeps its position, a new key goes last. *)
Fixpoint set (k : Z) (v : V) (m : t) : t :=
  match m with
  | [] => [(k, v)]
  | (k', v') :: m' =>
      if Z.eqb k k' then (k, v) :: m' else (k', v') :: set k v m'
  end.

Fixpoint delete (k : Z) (m : t) : t :=
  match m with
  | [] => []
  | (k', v') :: m' =>
      if Z.eqb k k' then m' else (k', v') :: delete k m'
  end.

Definition clear (m : t) : t := [].

Definition keys (m : t) : list Z := m.*1.
Definition values (m : t) : list V := m.*2.
End Ops.
Arguments t : clear implicits.
End JsMap.

(** ** Browser objects *)

Inductive EventType := icecandidate | connectionstatechange | track.

Global Instance EventType_eq_dec : EqDecision EventType.
Proof. solve_decision. Defined.

(** The two functions of the source that register listeners. *)
Inductive Registrar := ByHandleOffer | BySendSubscribe.

(** A registered listener: an arrow function of the source together with
    the [streamerId] it closes over.  Every evaluation of an arrow
    function is a new function object, so [addEventListener] never
    recognises one as already registered. *)
Record Listener := {
  l_type : EventType;
  l_streamerId : Z;
  l_by : Registrar;
}.

(** The [eventListeners] property read by [sendSubscribe]. *)
Record ListenerFlags := {
  f_icecandidate : bool;
  f_connectionstatechange : bool;
  f_track : bool;
}.

Record RTCPeerConnection := {
  pc_closed : bool;
  pc_listeners : list Listener;
  (** no statement of the source assigns this property, and the
      constructor does not define it *)
  pc_eventListeners : option ListenerFlags;
  pc_remoteDescription : option Sdp;
  pc_localDescription : option Sdp;
  pc_remoteCandidates : list RTCIceCandidateInit;
}.

Inductive ReadyState := CONNECTING | OPEN | CLOSING | CLOSED.

Global Instance ReadyState_eq_dec : EqDecision ReadyState.
Proof. solve_decision. Defined.

Record WebSocket := {
  readyState : ReadyState;
  ws_sent : list Outbound;
  (** the [timeoutId] the socket's callbacks close over *)
  ws_timeoutId : nat;
}.

Inductive Timer := Armed | Cleared | Fired.

Global Instance Timer_eq_dec : EqDecision Timer.
Proof. solve_decision. Defined.

(** ** Suspended [async] functions

    [handleOffer] and [handleIceCandidate] suspend at each [await]; the
    rest of the body runs when the awaited promise settles.  A suspended
    call remembers the local variables [streamerId] and [pc], and where
    it waits. *)
Inductive Await :=
  | AwaitSetRemoteDescription (sdp : Sdp)
  | AwaitCreateAnswer
  | AwaitSetLocalDescription (answer : Sdp)
  | AwaitAddIceCandidate (candidate : RTCIceCandidateInit)
  | Returned.

Record AsyncCall := {
  a_streamerId : Z;
  a_pc : nat;
  a_await : Await;
}.

(** ** The history of calls

    Every call the component makes on a browser object or on the
    registry, oldest first. *)
Inductive Call :=
  | NewRTCPeerConnection (pc : nat)
  | PcAddEventListener (pc : nat) (type : EventType)
  | PcSetRemoteDescription (pc : nat) (sdp : Sdp)
  | PcCreateAnswer (pc : nat)
  | PcSetLocalDescription (pc : nat) (answer : Sdp)
  | PcAddIceCandidate (pc : nat) (candidate : RTCIceCandidateInit)
  | PcClose (pc : nat)
  | MapSet (streamerId : Z) (pc : nat)
  | MapDelete (streamerId : Z)
  | MapClear
  | NewWebSocket (s : nat)
  | WsSend (s : nat) (message : Outbound)
  | WsClose (s : nat)
  | SetTimeout (t : nat)
  | ClearTimeout (t : nat)
  | SetConnectionStatus (cs : ConnectionStatus)
  | SetId (id : Z).

(** ** The state of the component *)

#[projections(primitive)]
Record World := {
  streamersRef : JsMap.t nat;
  peerConnections : list RTCPeerConnection;
  streamerIds : list Z;
  logs : list string;
  console : list string;
  connectionStatus : ConnectionStatus;
  id : Z;
  webSocketRef : option nat;
  webSockets : list WebSocket;
  timers : list Timer;
  videoSrc : option MediaStream;
  suspended : list AsyncCall;
  calls : list Call;
}.

Definition initial : World := {|
  streamersRef := [];
  peerConnections := [];
  streamerIds := [];
  logs := [];
  console := [];
  connectionStatus := Disconnected;
  id := 0;
  webSocketRef := None;
  webSockets := [];
  timers := [];
  videoSrc := None;
  suspended := [];
  calls := [];
|}.

Definition with_streamersRef (f : JsMap.t nat → JsMap.t nat) (w : World) : World :=
  {| streamersRef := f (streamersRef w); peerConnections := peerConnections w;
     streamerIds := streamerIds w; logs := logs w; console := console w;
     connectionStatus := connectionStatus w; id := id w;
     webSocketRef := webSocketRef w; webSockets := webSockets w;
     timers := timers w; videoSrc := videoSrc w; suspended := suspended w;
     calls := calls w |}.

Definition with_peerConnections
    (f : list RTCPeerConnection → list RTCPeerConnection) (w : World) : World :=
  {| streamersRef := streamersRef w; peerConnections := f (peerConnections w);
     streamerIds := streamerIds w; logs := logs w; console := console w;
     connectionStatus := connectionStatus w; id := id w;
     webSocketRef := webSocketRef w; webSockets := webSockets w;
     timers := timers w; videoSrc := videoSrc w; suspended := suspended w;
     calls := calls w |}.

Definition with_streamerIds (f : list Z → list Z) (w : World) : World :=
  {| streamersRef := streamersRef w; peerConnections := peerConnections w;
     streamerIds := f (streamerIds w); logs := logs w; console := console w;
     connectionStatus := connectionStatus w; id := id w;
     webSocketRef := webSocketRef w; webSockets := webSockets w;
     timers := timers w; videoSrc := videoSrc w; suspended := suspended w;
     calls := calls w |}.

Definition with_logs (f : list string → list string) (w : World) : World :=
  {| streamersRef := streamersRef w; peerConnections := peerConnections w;
     streamerIds := streamerIds w; logs := f (logs w); console := console w;
     connectionStatus := connectionStatus w; id := id w;
     webSocketRef := webSocketRef w; webSockets := webSockets w;
     timers := timers w; videoSrc := videoSrc w; suspended := suspended w;
     calls := calls w |}.

Definition with_console (f : list string → list string) (w : World) : World :=
  {| streamersRef := streamersRef w; peerConnections := peerConnections w;
     streamerIds := streamerIds w; logs := logs w; console := f (console w);
     connectionStatus := connectionStatus w; id := id w;
     webSocketRef := webSocketRef w; webSockets := webSockets w;
     timers := timers w; videoSrc := videoSrc w; suspended := suspended w;
     calls := calls w |}.

Definition with_connectionStatus (cs : ConnectionStatus) (w : World) : World :=
  {| streamersRef := streamersRef w; peerConnections := peerConnections w;
     streamerIds := streamerIds w; logs := logs w; console := console w;
     connectionStatus := cs; id := id w;
     webSocketRef := webSocketRef w; webSockets := webSockets w;
     timers := timers w; videoSrc := videoSrc w; suspended := suspended w;
     calls := calls w |}.

Definition with_id (n : Z) (w : World) : World :=
  {| streamersRef := streamersRef w; peerConnections := peerConnections w;
     streamerIds := streamerIds w; logs := logs w; console := console w;
     connectionStatus := connectionStatus w; id := n;
     webSocketRef := webSocketRef w; webSockets := webSockets w;
     timers := timers w; videoSrc := videoSrc w; suspended := suspended w;
     calls := calls w |}.

Definition with_webSocketRef (r : option nat) (w : World) : World :=
  {| streamersRef := streamersRef w; peerConnections := peerConnections w;
     streamerIds := streamerIds w; logs := logs w; console := console w;
     connectionStatus := connectionStatus w; id := id w;
     webSocketRef := r; webSockets := webSockets w;
     timers := timers w; videoSrc := videoSrc w; suspended := suspended w;
     calls := calls w |}.

Definition with_webSockets (f : list WebSocket → list WebSocket) (w : World) : World :=
  {| streamersRef := streamersRef w; peerConnections := peerConnections w;
     streamerIds := streamerIds w; logs := logs w; console := console w;
     connectionStatus := connectionStatus w; id := id w;
     webSocketRef := webSocketRef w; webSockets := f (webSockets w);
     timers := timers w; videoSrc := videoSrc w; suspended := suspended w;
     calls := calls w |}.

Definition with_timers (f : list Timer → list Timer) (w : World) : World :=
  {| streamersRef := streamersRef w; peerConnections := peerConnections w;
     streamerIds := streamerIds w; logs := logs w; console := console w;
     connectionStatus := connectionStatus w; id := id w;
     webSocketRef := webSocketRef w; webSockets := webSockets w;
     timers := f (timers w); videoSrc := videoSrc w; suspended := suspended w;
     calls := calls w |}.

Definition with_videoSrc (v : option MediaStream) (w : World) : World :=
  {| streamersRef := streamersRef w; peerConnections := peerConnections w;
     streamerIds := streamerIds w; logs := logs w; console := console w;
     connectionStatus := connectionStatus w; id := id w;
     webSocketRef := webSocketRef w; webSockets := webSockets w;
     timers := timers w; videoSrc := v; suspended := suspended w;
     calls := calls w |}.

Definition with_suspended (f : list AsyncCall → list AsyncCall) (w : World) : World :=
  {| streamersRef := streamersRef w; peerConnections := peerConnections w;
     streamerIds := streamerIds w; logs := logs w; console := console w;
     connectionStatus := connectionStatus w; id := id w;
     webSocketRef := webSocketRef w; webSockets := webSockets w;
     timers := timers w; videoSrc := videoSrc w; suspended := f (suspended w);
     calls := calls w |}.

Definition record_call (c : Call) (w : World) : World :=
  {| streamersRef := streamersRef w; peerConnections := peerConnections w;
     streamerIds := streamerIds w; logs := logs w; console := console w;
     connectionStatus := connectionStatus w; id := id w;
     webSocketRef := webSocketRef w; webSockets := webSockets w;
     timers := timers w; videoSrc := videoSrc w; suspended := suspended w;
     calls := calls w ++ [c] |}.

(** ** A state monad over [World] *)

Definition M (A : Type) : Type := World → A * World.

Definition ret {A} (a : A) : M A := λ w, (a, w).
Definition bind {A B} (m : M A) (f : A → M B) : M B :=
  λ w, let '(a, w') := m w in f a w'.

Declare Scope M_scope.
Delimit Scope M_scope with M.
Bind Scope M_scope with M.
Notation "x ← y ; z" := (bind y (λ x, z))
  (at level 20, y at level 100, z at level 200, only parsing) : M_scope.
Notation "x ;; z" := (bind x (λ _, z))
  (at level 100, z at level 200, only parsing, right associativity) : M_scope.
Open Scope M_scope.

Definition gets {A} (f : World → A) : M A := λ w, (f w, w).
Definition modify (f : World → World) : M unit := λ w, (tt, f w).
Definition exec {A} (m : M A) (w : World) : World := (m w).2.

Definition when (b : bool) (m : M unit) : M unit :=
  if b then m else ret tt.

Fixpoint forEach {A} (l : list A) (f : A → M unit) : M unit :=
  match l with
  | [] => ret tt
  | x :: l' => f x;; forEach l' f
  end.

(** ** Primitive operations *)

Definition console_log (s : string) : M unit :=
  modify (with_console (λ c, c ++ [s])).

Definition log (new_log : string) : M unit :=
  modify (with_logs (λ prevLogs, prevLogs ++ [new_log]));;
  console_log new_log.

Definition updateStreamerIds : M unit :=
  keys ← gets (λ w, JsMap.keys (streamersRef w));
  modify (with_streamerIds (λ _, keys)).

Definition setId (n : Z) : M unit :=
  modify (with_id n);; modify (record_call (SetId n)).

Definition setConnectionStatus (cs : ConnectionStatus) : M unit :=
  modify (with_connectionStatus cs);;
  modify (record_call (SetConnectionStatus cs)).

(** *** [streamersRef.current] *)

Definition streamers_has (k : Z) : M bool :=
  gets (λ w, JsMap.has k (streamersRef w)).

Definition streamers_get (k : Z) : M (option nat) :=
  gets (λ w, JsMap.get k (streamersRef w)).

Definition streamers_set (k : Z) (pc : nat) : M unit :=
  modify (with_streamersRef (JsMap.set k pc));;
  modify (record_call (MapSet k pc)).

Definition streamers_delete (k : Z) : M unit :=
  modify (with_streamersRef (JsMap.delete k));;
  modify (record_call (MapDelete k)).

Definition streamers_clear : M unit :=
  modify (with_streamersRef JsMap.clear);;
  modify (record_call MapClear).

(** *** Peer connections *)

Definition fresh_pc : RTCPeerConnection := {|
  pc_closed := false;
  pc_listeners := [];
  pc_eventListeners := None;
  pc_remoteDescription := None;
  pc_localDescription := None;
  pc_remoteCandidates := [];
|}.

(** [new RTCPeerConnection(peerConfig)]: the handle of the new object is
    the next free index of the store. *)
Definition new_RTCPeerConnection : M nat :=
  pc ← gets (λ w, length (peerConnections w));
  modify (with_peerConnections (λ store, store ++ [fresh_pc]));;
  modify (record_call (NewRTCPeerConnection pc));;
  ret pc.

Definition add_listener (l : Listener) (o : RTCPeerConnection) : RTCPeerConnection :=
  {| pc_closed := pc_closed o;
     pc_listeners := pc_listeners o ++ [l];
     pc_eventListeners := pc_eventListeners o;
     pc_remoteDescription := pc_remoteDescription o;
     pc_localDescription := pc_localDescription o;
     pc_remoteCandidates := pc_remoteCandidates o |}.

Definition close_pc (o : RTCPeerConnection) : RTCPeerConnection :=
  {| pc_closed := true;
     pc_listeners := pc_listeners o;
     pc_eventListeners := pc_eventListeners o;
     pc_remoteDescription := pc_remoteDescription o;
     pc_localDescription := pc_localDescription o;
     pc_remoteCandidates := pc_remoteCandidates o |}.

Definition set_remote (sdp : Sdp) (o : RTCPeerConnection) : RTCPeerConnection :=
  {| pc_closed := pc_closed o;
     pc_listeners := pc_listeners o;
     pc_eventListeners := pc_eventListeners o;
     pc_remoteDescription := Some sdp;
     pc_localDescription := pc_localDescription o;
     pc_remoteCandidates := pc_remoteCandidates o |}.

Definition set_local (sdp : Sdp) (o : RTCPeerConnection) : RTCPeerConnection :=
  {| pc_closed := pc_closed o;
     pc_listeners := pc_listeners o;
     pc_eventListeners := pc_eventListeners o;
     pc_remoteDescription := pc_remoteDescription o;
     pc_localDescription := Some sdp;
     pc_remoteCandidates := pc_remoteCandidates o |}.

Definition add_candidate (c : RTCIceCandidateInit) (o : RTCPeerConnection) : RTCPeerConnection :=
  {| pc_closed := pc_closed o;
     pc_listeners := pc_listeners o;
     pc_eventListeners := pc_eventListeners o;
     pc_remoteDescription := pc_remoteDescription o;
     pc_localDescription := pc_localDescription o;
     pc_remoteCandidates := pc_remoteCandidates o ++ [c] |}.

Definition pc_addEventListener (pc : nat) (l : Listener) : M unit :=
  modify (with_peerConnections (alter (add_listener l) pc));;
  modify (record_call (PcAddEventListener pc (l_type l))).

Definition pc_close (pc : nat) : M unit :=
  modify (with_peerConnections (alter close_pc pc));;
  modify (record_call (PcClose pc)).

(** The four asynchronous methods only start here; what the browser does
    with them arrives later as a settlement (see [settle]). *)
Definition pc_setRemoteDescription (pc : nat) (sdp : Sdp) : M unit :=
  modify (record_call (PcSetRemoteDescription pc sdp)).

Definition pc_createAnswer (pc : nat) : M unit :=
  modify (record_call (PcCreateAnswer pc)).

Definition pc_setLocalDescription (pc : nat) (answer : Sdp) : M unit :=
  modify (record_call (PcSetLocalDescription pc answer)).

Definition pc_addIceCandidate (pc : nat) (c : RTCIceCandidateInit) : M unit :=
  modify (record_call (PcAddIceCandidate pc c)).

(** What [`${error}`] gives for the [TypeError] of [new RTCIceCandidate]
    (the wording is the browser's; this is the one of Chromium). *)
Definition TypeError_both_null : string :=
  "TypeError: Failed to construct 'RTCIceCandidate': sdpMid and sdpMLineIndex are both null.".

(** [new RTCIceCandidate(init)]: the constructor throws when [sdpMid]
    and [sdpMLineIndex] are both null ([inl], with the error), and
    otherwise gives a candidate with the members of [init]. *)
Definition new_RTCIceCandidate (init : RTCIceCandidateInit)
    : string + RTCIceCandidateInit :=
  match sdpMid init, sdpMLineIndex init with
  | None, None => inl TypeError_both_null
  | _, _ => inr init
  end.

(** [await]: park the running async function; its handle is its index. *)
Definition await (c : AsyncCall) : M unit :=
  modify (with_suspended (λ l, l ++ [c])).

(** *** Web sockets and timers *)

Definition ws_readyState (s : nat) : M (option ReadyState) :=
  gets (λ w, readyState <$> webSockets w !! s).

Definition sent (m : Outbound) (o : WebSocket) : WebSocket :=
  {| readyState := readyState o; ws_sent := ws_sent o ++ [m];
     ws_timeoutId := ws_timeoutId o |}.

Definition with_readyState (rs : ReadyState) (o : WebSocket) : WebSocket :=
  {| readyState := rs; ws_sent := ws_sent o; ws_timeoutId := ws_timeoutId o |}.

Definition ws_send (s : nat) (m : Outbound) : M unit :=
  modify (with_webSockets (alter (sent m) s));;
  modify (record_call (WsSend s m)).

(** [close()] starts the closing handshake of a socket that is not yet
    closing or closed. *)
Definition closing (o : WebSocket) : WebSocket :=
  match readyState o with
  | CONNECTING | OPEN => with_readyState CLOSING o
  | CLOSING | CLOSED => o
  end.

Definition ws_close (s : nat) : M unit :=
  modify (with_webSockets (alter closing s));;
  modify (record_call (WsClose s)).

Definition new_WebSocket (timeoutId : nat) : M nat :=
  s ← gets (λ w, length (webSockets w));
  modify (with_webSockets (λ store, store ++
    [{| readyState := CONNECTING; ws_sent := []; ws_timeoutId := timeoutId |}]));;
  modify (record_call (NewWebSocket s));;
  ret s.

Definition setTimeout : M nat :=
  t ← gets (λ w, length (timers w));
  modify (with_timers (λ store, store ++ [Armed]));;
  modify (record_call (SetTimeout t));;
  ret t.

Definition clear_timer (t : Timer) : Timer :=
  match t with Armed => Cleared | _ => t end.

Definition clearTimeout (t : nat) : M unit :=
  modify (with_timers (alter clear_timer t));;
  modify (record_call (ClearTimeout t)).

(** ** The functions of the component *)

Definition sendToPeer (target : Z) (data : PeerData) : M unit :=
  webSocket ← gets webSocketRef;
  match webSocket with
  | Some s =>
      rs ← ws_readyState s;
      if bool_decide (rs = Some OPEN) then
        let message := {| out_data := data; out_target := target |} in
        ws_send s message;;
        console_log ("Sent to peer " +:+ pretty target +:+ ":")
      else log "Cannot send message: WebSocket not connected"
  | None => log "Cannot send message: WebSocket not connected"
  end.

Definition addRemoteVideo (stream : MediaStream) : M unit :=
  modify (with_videoSrc (Some stream)).

(** The body of the [forEach] in [handleConnectMessage]. *)
Definition handleConnectMessage_each (streamerId : Z) : M unit :=
  has ← streamers_has streamerId;
  when (negb has) (
    log ("Creating connection with streamer " +:+ pretty streamerId);;
    pc ← new_RTCPeerConnection;
    streamers_set streamerId pc).

Definition handleConnectMessage (message_id : Z) (message_streamers : list Z) : M unit :=
  setId message_id;;
  forEach message_streamers handleConnectMessage_each;;
  updateStreamerIds;;
  log ("Assigned clientId: " +:+ pretty message_id).

(** [handleOffer] up to its first [await]. *)
Definition handleOffer (message_sdp : Sdp) (message_sender : Z) : M unit :=
  let streamerId := message_sender in
  log ("Offer received from streamer " +:+ pretty streamerId);;
  console_log "Offer received. Current streamers:";;
  has ← streamers_has streamerId;
  if has then
    pc ← streamers_get streamerId;
    match pc with
    | None => ret tt
    | Some pc =>
        pc_addEventListener pc
          {| l_type := icecandidate; l_streamerId := streamerId; l_by := ByHandleOffer |};;
        pc_addEventListener pc
          {| l_type := connectionstatechange; l_streamerId := streamerId; l_by := ByHandleOffer |};;
        pc_addEventListener pc
          {| l_type := track; l_streamerId := streamerId; l_by := ByHandleOffer |};;
        pc_setRemoteDescription pc message_sdp;;
        await {| a_streamerId := streamerId; a_pc := pc;
                 a_await := AwaitSetRemoteDescription message_sdp |}
    end
  else log ("Received offer from unknown streamer " +:+ pretty streamerId).

Definition handleNewStreamer (message_streamer_id : Z) : M unit :=
  let streamerId := message_streamer_id in
  has ← streamers_has streamerId;
  when (negb has) (
    log ("New Streamer " +:+ pretty streamerId);;
    pc ← new_RTCPeerConnection;
    streamers_set streamerId pc;;
    updateStreamerIds).

Definition handleStreamerDisconnection (message_streamer_id : Z) : M unit :=
  let streamerId := message_streamer_id in
  has ← streamers_has streamerId;
  when has (
    pc ← streamers_get streamerId;
    match pc with Some pc => pc_close pc | None => ret tt end;;
    streamers_delete streamerId;;
    updateStreamerIds;;
    log ("Streamer " +:+ pretty streamerId +:+ " disconnected")).

(** The [catch] clause of [handleIceCandidate]. *)
Definition handleIceCandidate_catch (error : string) : M unit :=
  log ("Error adding ICE candidate: " +:+ error);;
  console_log "Error adding ICE candidate:".

(** [handleIceCandidate] up to its [await].  The argument of
    [addIceCandidate] is built inside the [try]: when the constructor
    throws, the [catch] clause runs at once and [addIceCandidate] is not
    called. *)
Definition handleIceCandidate (message_candidate : RTCIceCandidateInit) (message_sender : Z)
    : M unit :=
  let streamerId := message_sender in
  has ← streamers_has streamerId;
  if has then
    pc ← streamers_get streamerId;
    match pc with
    | None => ret tt
    | Some pc =>
        match new_RTCIceCandidate message_candidate with
        | inl error => handleIceCandidate_catch error
        | inr candidate =>
            pc_addIceCandidate pc candidate;;
            await {| a_streamerId := streamerId; a_pc := pc;
                     a_await := AwaitAddIceCandidate candidate |}
        end
    end
  else console_log ("Received ICE candidate for unknown streamer " +:+ pretty streamerId).

Definition handleSignalingMessage (message : SignalingMessage) : M unit :=
  console_log "Received message:";;
  console_log "Current streamers:";;
  match message with
  | ConnectMessage n streamers => handleConnectMessage n streamers
  | OfferMessage sdp sender => handleOffer sdp sender
  | NewStreamerMessage streamer_id => handleNewStreamer streamer_id
  | DisconnectedMessage streamer_id => handleStreamerDisconnection streamer_id
  | CandidateMessage candidate sender => handleIceCandidate candidate sender
  | UnknownMessage type => console_log ("Unknown message type: " +:+ type)
  end.

(** The callback given to [setTimeout]. *)
Definition onTimeout : M unit :=
  log "Connection timeout";;
  setConnectionStatus ConnectionError.

(** The four callbacks of the socket [newSocket]. *)
Definition onopen (newSocket timeoutId : nat) : M unit :=
  clearTimeout timeoutId;;
  modify (with_webSocketRef (Some newSocket));;
  setConnectionStatus Connected;;
  log "Connected to signaling server".

(** What [JSON.parse(event.data)] makes of a frame. *)
Inductive Payload :=
  | Malformed (error : string)
  | Parsed (data : SignalingMessage).

Definition onmessage (event_data : Payload) : M unit :=
  match event_data with
  | Parsed data =>
      handleSignalingMessage data;;
      log "New message from signaling server"
  | Malformed error => log ("Error parsing message: " +:+ error)
  end.

Definition onclose : M unit :=
  modify (with_webSocketRef None);;
  setConnectionStatus Disconnected;;
  log "Disconnected from signaling server".

Definition onerror (timeoutId : nat) (error : string) : M unit :=
  clearTimeout timeoutId;;
  log ("WebSocket error: " +:+ error);;
  setConnectionStatus ConnectionError.

(** [handleConnect]; [thrown] is the exception [new WebSocket] raises
    for the configured address, if it raises one. *)
Definition handleConnect (thrown : option string) : M unit :=
  webSocket ← gets webSocketRef;
  connectionStatus ← gets connectionStatus;
  match bool_decide (connectionStatus = Connected) ||
        bool_decide (connectionStatus = Connecting), webSocket with
  | true, Some s =>
      ws_close s;;
      modify (with_webSocketRef None);;
      setConnectionStatus Disconnected;;
      entries ← gets streamersRef;
      forEach entries (λ entry, pc_close entry.2);;
      streamers_clear;;
      updateStreamerIds;;
      log "Manually disconnected from signaling server"
  | _, _ =>
      if bool_decide (connectionStatus = Connecting) then ret tt
      else
        setConnectionStatus Connecting;;
        timeoutId ← setTimeout;
        match thrown with
        | None =>
            newSocket ← new_WebSocket timeoutId;
            ret tt
        | Some error =>
            clearTimeout timeoutId;;
            log ("Error creating WebSocket: " +:+ error);;
            setConnectionStatus ConnectionError
        end
  end.

Definition no_flags : ListenerFlags :=
  {| f_icecandidate := false; f_connectionstatechange := false; f_track := false |}.

Definition sendSubscribe (streamerId : Z) : M unit :=
  has ← streamers_has streamerId;
  if has then
    pc ← streamers_get streamerId;
    match pc with
    | Some pc =>
        existingListeners ← gets (λ w,
          default no_flags (peerConnections w !! pc ≫= pc_eventListeners));
        when (negb (f_icecandidate existingListeners)) (
          pc_addEventListener pc
            {| l_type := icecandidate; l_streamerId := streamerId; l_by := BySendSubscribe |});;
        when (negb (f_connectionstatechange existingListeners)) (
          pc_addEventListener pc
            {| l_type := connectionstatechange; l_streamerId := streamerId; l_by := BySendSubscribe |});;
        when (negb (f_track existingListeners)) (
          pc_addEventListener pc
            {| l_type := track; l_streamerId := streamerId; l_by := BySendSubscribe |})
    | None => ret tt
    end;;
    sendToPeer streamerId DataSubscribe;;
    log ("Subscribe sent to peer " +:+ pretty streamerId)
  else log ("Streamer " +:+ pretty streamerId +:+ " not found").

(** [selectStreamer] on an option whose value is the number [streamerId]. *)
Definition selectStreamer (streamerId : Z) : M unit :=
  log ("Selected streamer " +:+ pretty streamerId);;
  sendSubscribe streamerId.

(** *** The listeners *)

Inductive PeerEvent :=
  | IceCandidateEvent (candidate : option IceCandidate)
  | ConnectionStateChangeEvent (iceConnectionState : string)
  | TrackEvent (stream : MediaStream).

Definition peer_event_type (e : PeerEvent) : EventType :=
  match e with
  | IceCandidateEvent _ => icecandidate
  | ConnectionStateChangeEvent _ => connectionstatechange
  | TrackEvent _ => track
  end.

(** The body of a registered listener. *)
Definition listener (l : Listener) (event : PeerEvent) : M unit :=
  let streamerId := l_streamerId l in
  match event with
  | IceCandidateEvent (Some candidate) =>
      match l_by l with
      | ByHandleOffer => console_log "Ice Candidate"
      | BySendSubscribe => ret tt
      end;;
      sendToPeer streamerId (DataIceCandidate candidate)
  | IceCandidateEvent None => ret tt
  | ConnectionStateChangeEvent iceConnectionState =>
      log ("ICE connection state with peer " +:+ pretty streamerId +:+ ": "
           +:+ iceConnectionState)
  | TrackEvent stream =>
      console_log "Track received:";;
      addRemoteVideo stream
  end.

(** The browser calls the listeners of the event's type in the order of
    their registration. *)
Definition dispatch (pc : nat) (event : PeerEvent) : M unit :=
  ls ← gets (λ w, default [] (pc_listeners <$> peerConnections w !! pc));
  forEach (filter (λ l, l_type l = peer_event_type event) ls)
          (λ l, listener l event).

(** *** Resuming after an [await] *)

Inductive Settlement :=
  | Fulfilled
  | FulfilledWith (answer : Sdp)
  | Rejected (error : string).

Definition resume (i : nat) (a : Await) : M unit :=
  modify (with_suspended (alter (λ c,
    {| a_streamerId := a_streamerId c; a_pc := a_pc c; a_await := a |}) i)).

(** The [catch] clause of [handleOffer]. *)
Definition handleOffer_catch (error : string) : M unit :=
  log ("Error processing offer: " +:+ error);;
  console_log "Error processing offer:".

Close Scope M_scope.

(** The rest of the body of suspended call [i] when its promise settles
    with [r]; [None] when nothing of that kind is awaited.  A fulfilled
    [setRemoteDescription], [setLocalDescription] or [addIceCandidate]
    has taken effect on the peer connection. *)
Definition settle (i : nat) (r : Settlement) (w : World) : option World :=
  c ← suspended w !! i;
  let streamerId := a_streamerId c in
  let pc := a_pc c in
  match a_await c, r with
  | AwaitSetRemoteDescription sdp, Fulfilled =>
      Some (exec (
        modify (with_peerConnections (alter (set_remote sdp) pc));;
        pc_createAnswer pc;;
        resume i AwaitCreateAnswer)%M w)
  | AwaitCreateAnswer, FulfilledWith answer =>
      Some (exec (
        pc_setLocalDescription pc answer;;
        resume i (AwaitSetLocalDescription answer))%M w)
  | AwaitSetLocalDescription answer, Fulfilled =>
      Some (exec (
        modify (with_peerConnections (alter (set_local answer) pc));;
        sendToPeer streamerId (DataAnswer answer);;
        resume i Returned)%M w)
  | AwaitAddIceCandidate candidate, Fulfilled =>
      Some (exec (
        modify (with_peerConnections (alter (add_candidate candidate) pc));;
        resume i Returned)%M w)
  | (AwaitSetRemoteDescription _ | AwaitCreateAnswer | AwaitSetLocalDescription _),
    Rejected error =>
      Some (exec (handleOffer_catch error;; resume i Returned)%M w)
  | AwaitAddIceCandidate _, Rejected error =>
      Some (exec (handleIceCandidate_catch error;; resume i Returned)%M w)
  | _, _ => None
  end.

(** ** Events

    What reaches the component from outside: the user, the sockets, the
    timers, the peer connections and the promises it awaits. *)
Inductive Event :=
  | UserConnect (thrown : option string)
  | UserSelect (streamerId : Z)
  | SocketOpen (s : nat)
  | SocketMessage (s : nat) (data : Payload)
  | SocketClose (s : nat)
  | SocketError (s : nat) (error : string)
  | TimerFires (t : nat)
  | PeerFires (pc : nat) (event : PeerEvent)
  | Settles (i : nat) (r : Settlement).

(** One event; [None] when the browser cannot deliver it in this state:
    a socket opens once and only while connecting, delivers messages only
    while open and is silent once closed; a timer fires once and only
    while armed; a closed peer connection fires nothing; the streamer
    menu exists only while connected and offers [streamerIds]. *)
Definition step (w : World) (e : Event) : option World :=
  match e with
  | UserConnect thrown => Some (exec (handleConnect thrown) w)
  | UserSelect streamerId =>
      if bool_decide (connectionStatus w = Connected) &&
         bool_decide (streamerId ∈ streamerIds w)
      then Some (exec (selectStreamer streamerId) w) else None
  | SocketOpen s =>
      o ← webSockets w !! s;
      if bool_decide (readyState o = CONNECTING) then
        Some (exec (onopen s (ws_timeoutId o))
                (with_webSockets (alter (with_readyState OPEN) s) w))
      else None
  | SocketMessage s data =>
      o ← webSockets w !! s;
      if bool_decide (readyState o = OPEN) then Some (exec (onmessage data) w)
      else None
  | SocketClose s =>
      o ← webSockets w !! s;
      if bool_decide (readyState o = CLOSED) then None
      else Some (exec onclose (with_webSockets (alter (with_readyState CLOSED) s) w))
  | SocketError s error =>
      o ← webSockets w !! s;
      if bool_decide (readyState o = CLOSED) then None
      else Some (exec (onerror (ws_timeoutId o) error) w)
  | TimerFires t =>
      st ← timers w !! t;
      if bool_decide (st = Armed) then
        Some (exec onTimeout (with_timers (<[t := Fired]>) w))
      else None
  | PeerFires pc event =>
      o ← peerConnections w !! pc;
      if pc_closed o then None else Some (exec (dispatch pc event) w)
  | Settles i r => settle i r w
  end.

Fixpoint run (w : World) (es : list Event) : option World :=
  match es with
  | [] => Some w
  | e :: es' => w' ← step w e; run w' es'
  end.

Definition reachable (w : World) : Prop := ∃ es, run initial es = Some w.

(** ** Notions used to state the properties *)

(** The two messages that change the membership of the registry. *)
Definition is_roster_change (m : SignalingMessage) : bool :=
  match m with
  | NewStreamerMessage _ | DisconnectedMessage _ => true
  | _ => false
  end.

(** The frames of a list of messages, handed to [onmessage] in order. *)
Definition deliver (msgs : list SignalingMessage) : M unit :=
  forEach msgs (λ m, onmessage (Parsed m)).

(** Streamer [k] was introduced, by the roster or by a [new-streamer]
    message, and no [streamer-disconnected] message for [k] came after
    that introduction. *)
Definition introduced_not_disconnected
    (k : Z) (roster : list Z) (msgs : list SignalingMessage) : Prop :=
  (k ∈ roster ∧ DisconnectedMessage k ∉ msgs) ∨
  (∃ pre post, msgs = pre ++ NewStreamerMessage k :: post ∧
               DisconnectedMessage k ∉ post).

(** How many listeners of type [ty] peer connection [pc] carries. *)
Definition listeners_of (ty : EventType) (pc : nat) (w : World) : nat :=
  match peerConnections w !! pc with
  | Some o => length (filter (λ l, l_type l = ty) (pc_listeners o))
  | None => 0
  end.

(** The values given to [setConnectionStatus], in the order of the calls. *)
Definition status_calls (h : list Call) : list ConnectionStatus :=
  omap (λ c, match c with SetConnectionStatus cs => Some cs | _ => None end) h.

(** How often a trail of values moves into [cs] from another value. *)
Fixpoint entries_into (cs : ConnectionStatus) (trail : list ConnectionStatus) : nat :=
  match trail with
  | a :: (b :: _) as rest =>
      (if bool_decide (a ≠ cs ∧ b = cs) then 1 else 0)%nat + entries_into cs rest
  | _ => 0%nat
  end.

(** Events that are no business of the session controller: frames,
    events of peer connections, settled promises and the streamer menu. *)
Definition quiet (e : Event) : bool :=
  match e with
  | SocketMessage _ _ | PeerFires _ _ | Settles _ _ | UserSelect _ => true
  | _ => false
  end.

(** Every peer connection the registry [m] refers to is closed in [w]. *)
Definition all_closed (m : JsMap.t nat) (w : World) : Prop :=
  ∀ k pc, JsMap.get k m = Some pc →
    ∃ o, peerConnections w !! pc = Some o ∧ pc_closed o = true.

(** The three places where [handleOffer] can be suspended. *)
Definition awaits_offer_step (a : Await) : bool :=
  match a with
  | AwaitSetRemoteDescription _ | AwaitCreateAnswer | AwaitSetLocalDescription _ => true
  | AwaitAddIceCandidate _ | Returned => false
  end.

(** The listeners [handleOffer] registers for streamer [k]. *)
Definition offer_listeners (k : Z) : list Listener :=
  [{| l_type := icecandidate; l_streamerId := k; l_by := ByHandleOffer |};
   {| l_type := connectionstatechange; l_streamerId := k; l_by := ByHandleOffer |};
   {| l_type := track; l_streamerId := k; l_by := ByHandleOffer |}].

(** *** Views of the state *)

(** What the session controller owns: the status, the channel handle,
    the state of every socket and the timers. *)
Definition session_view (w : World) :=
  (connectionStatus w, webSocketRef w, readyState <$> webSockets w, timers w).

(** The registry and the size of the store it points into. *)
Definition registry_view (w : World) :=
  (streamersRef w, length (peerConnections w)).

(** What the closing loop of [handleConnect] leaves alone. *)
Definition outside_store (w : World) :=
  (streamersRef w, streamerIds w, logs w, console w, connectionStatus w, id w,
   webSocketRef w, webSockets w, timers w, videoSrc w, suspended w).

(** The registry with the objects it refers to. *)
Definition Registry : Type := JsMap.t nat * list RTCPeerConnection.

Definition registry_state (w : World) : Registry :=
  (streamersRef w, peerConnections w).

(** What the guarded creation in [handleNewStreamer] and in the loop of
    [handleConnectMessage] does to the registry. *)
Definition upsert (k : Z) (r : Registry) : Registry :=
  if JsMap.has k r.1 then r
  else (JsMap.set k (length r.2) r.1, r.2 ++ [fresh_pc]).

Definition upserts (roster : list Z) (r : Registry) : Registry :=
  foldl (λ r k, upsert k r) r roster.

(** What [handleStreamerDisconnection] does to the registry. *)
Definition remove (k : Z) (r : Registry) : Registry :=
  match JsMap.get k r.1 with
  | Some pc => (JsMap.delete k r.1, alter close_pc pc r.2)
  | None => r
  end.

(** What the closing loop of [handleConnect] does to the store. *)
Definition close_all (pcs : list nat) (store : list RTCPeerConnection)
    : list RTCPeerConnection :=
  foldl (λ st pc, alter close_pc pc st) store pcs.

(** The first test of [handleConnect]. *)
Definition wants_disconnect (w : World) : bool :=
  bool_decide (connectionStatus w = Connected) ||
  bool_decide (connectionStatus w = Connecting).

(** The socket [sendToPeer] would write to, if there is one. *)
Definition open_channel (w : World) : option nat :=
  s ← webSocketRef w;
  if bool_decide (readyState <$> webSockets w !! s = Some OPEN) then Some s else None.

(** [w] with lines appended to the log feed and to the console. *)
Definition logged (feed cons : list string) (w : World) : World :=
  with_console (λ c, c ++ cons) (with_logs (λ l, l ++ feed) w).

(** *** Well-formedness of reachable states *)

(** Keys are distinct and every handle points into the store. *)
Definition registry_ok (r : Registry) : Prop :=
  NoDup (JsMap.keys r.1) ∧
  ∀ k pc, JsMap.get k r.1 = Some pc → (pc < length r.2)%nat.

Record Inv (w : World) : Prop := {
  inv_connected : connectionStatus w = Connected → is_Some (webSocketRef w);
  inv_socket : ∀ s, webSocketRef w = Some s → (s < length (webSockets w))%nat;
  inv_registry : registry_ok (registry_state w);
}.

(** *** Sessions used as examples *)

(** A candidate as a streamer sends it, and one that names no media
    section. *)
Definition host_candidate : RTCIceCandidateInit := {|
  candidate := "candidate:1 1 udp 2122260223 192.0.2.1 54321 typ host";
  sdpMid := Some "0";
  sdpMLineIndex := Some 0;
|}.

Definition bare_candidate : RTCIceCandidateInit := {|
  candidate := "candidate:1 1 udp 2122260223 192.0.2.1 54321 typ host";
  sdpMid := None;
  sdpMLineIndex := None;
|}.

(** The user connects and the socket opens. *)
Definition session_open : list Event :=
  [UserConnect None; SocketOpen 0].

(** The server then sends the roster [1; 2] and assigns id 7. *)
Definition session_roster : list Event :=
  session_open ++ [SocketMessage 0 (Parsed (ConnectMessage 7 [1; 2]))].

Definition world_roster : World :=
  Eval vm_compute in default initial (run initial session_roster).

(** A first attempt times out, a second attempt is started, the socket
    of the first attempt opens late and delivers the roster, the second
    attempt times out too, and the user starts a third attempt. *)
Definition session_stale_channel : list Event :=
  [UserConnect None; TimerFires 0; UserConnect None; SocketOpen 0;
   SocketMessage 0 (Parsed (ConnectMessage 7 [1; 2]));
   TimerFires 1; UserConnect None].

Definition world_stale_channel : World :=
  Eval vm_compute in default initial (run initial session_stale_channel).

(** An offer from streamer 1 whose remote description is applied and
    whose answer cannot be created. *)
Definition session_failed_offer : list Event :=
  session_roster ++
  [SocketMessage 0 (Parsed (OfferMessage "v=0" 1));
   Settles 0 Fulfilled; Settles 0 (Rejected "OperationError")].

Definition world_failed_offer : World :=
  Eval vm_compute in default initial (run initial session_failed_offer).

(** The user picks streamer 1 in the menu, streamer 1 answers the
    subscription with an offer, and the negotiation succeeds. *)
Definition session_subscribe_offer : list Event :=
  session_roster ++
  [UserSelect 1; SocketMessage 0 (Parsed (OfferMessage "v=0" 1));
   Settles 0 Fulfilled; Settles 0 (FulfilledWith "answer"); Settles 0 Fulfilled].

Definition world_subscribe_offer : World :=
  Eval vm_compute in default initial (run initial session_subscribe_offer).

(** The socket opens after the timeout has fired, and fails later. *)
Definition session_late_open : list Event :=
  [UserConnect None; TimerFires 0; SocketOpen 0; SocketError 0 "[object Event]"].

Definition world_late_open : World :=
  Eval vm_compute in default initial (run initial session_late_open).

(** The listeners [sendSubscribe] registers for streamer [k] when it
    finds none of the three flags. *)
Definition subscribe_listeners (k : Z) : list Listener :=
  [{| l_type := icecandidate; l_streamerId := k; l_by := BySendSubscribe |};
   {| l_type := connectionstatechange; l_streamerId := k; l_by := BySendSubscribe |};
   {| l_type := track; l_streamerId := k; l_by := BySendSubscribe |}].

(** The streamer menu shows the keys of the registry. *)
Definition menu_ok (w : World) : Prop :=
  streamerIds w = JsMap.keys (streamersRef w).

(** *** How the store of peer connections evolves *)

(** [o'] is a later state of the object [o]: it is not reopened, it has
    lost no listener and no remote candidate, and its [eventListeners]
    property is the same. *)
Definition pc_grows (o o' : RTCPeerConnection) : Prop :=
  (pc_closed o = true → pc_closed o' = true) ∧
  pc_listeners o `prefix_of` pc_listeners o' ∧
  pc_remoteCandidates o `prefix_of` pc_remoteCandidates o' ∧
  pc_eventListeners o' = pc_eventListeners o.

(** Every object of [l] is still there in [l'], at the same handle. *)
Definition store_grows (l l' : list RTCPeerConnection) : Prop :=
  ∀ i o, l !! i = Some o → ∃ o', l' !! i = Some o' ∧ pc_grows o o'.

(** No object of the store has an [eventListeners] property. *)
Definition no_eventListeners (w : World) : Prop :=
  ∀ pc o, peerConnections w !! pc = Some o → pc_eventListeners o = None.

(** A timer that was cleared or has fired. *)
Definition spent (t : nat) (w : World) : Prop :=
  ∃ st, timers w !! t = Some st ∧ st ≠ Armed.

(** What [sendToPeer] and its callers can write on: the messages each
    socket has been given. *)
Definition sent_view (w : World) : list (list Outbound) :=
  ws_sent <$> webSockets w.

(** The methods the component calls on a peer connection, and what a
    fulfilled promise does to it. *)
Inductive pc_op : (RTCPeerConnection → RTCPeerConnection) → Prop :=
  | op_add_listener l : pc_op (add_listener l)
  | op_close : pc_op close_pc
  | op_set_remote sdp : pc_op (set_remote sdp)
  | op_set_local sdp : pc_op (set_local sdp)
  | op_add_candidate c : pc_op (add_candidate c).

(** The store after some of these operations and some constructions. *)
Inductive store_evolves (l : list RTCPeerConnection) : list RTCPeerConnection → Prop :=
  | evolves_refl : store_evolves l l
  | evolves_alter l' f i :
      store_evolves l l' → pc_op f → store_evolves l (alter f i l')
  | evolves_new l' :
      store_evolves l l' → store_evolves l (l' ++ [fresh_pc]).

(** ** Tactics *)

(** Unfold the monad and the functions of the component, and compute the
    fields of the resulting records. *)
Ltac m_red_in_goal :=
  cbv [exec bind ret gets modify when deliver onmessage
       handleSignalingMessage handleNewStreamer handleStreamerDisconnection
       handleConnectMessage handleConnectMessage_each handleOffer
       handleIceCandidate handleConnect sendSubscribe selectStreamer
       sendToPeer addRemoteVideo onTimeout onopen onclose onerror
       listener resume await handleOffer_catch handleIceCandidate_catch
       log console_log updateStreamerIds setId setConnectionStatus
       streamers_has streamers_get streamers_set streamers_delete
       streamers_clear new_RTCPeerConnection pc_addEventListener pc_close
       pc_setRemoteDescription pc_createAnswer pc_setLocalDescription
       pc_addIceCandidate ws_readyState ws_send ws_close new_WebSocket
       setTimeout clearTimeout
       with_streamersRef with_peerConnections with_streamerIds with_logs
       with_console with_connectionStatus with_id with_webSocketRef
       with_webSockets with_timers with_videoSrc with_suspended record_call
       streamersRef peerConnections streamerIds logs console
       connectionStatus id webSocketRef webSockets timers videoSrc
       suspended calls fst snd negb].
Ltac m_red_in H :=
  cbv [exec bind ret gets modify when deliver onmessage
       handleSignalingMessage handleNewStreamer handleStreamerDisconnection
       handleConnectMessage handleConnectMessage_each handleOffer
       handleIceCandidate handleConnect sendSubscribe selectStreamer
       sendToPeer addRemoteVideo onTimeout onopen onclose onerror
       listener resume await handleOffer_catch handleIceCandidate_catch
       log console_log updateStreamerIds setId setConnectionStatus
       streamers_has streamers_get streamers_set streamers_delete
       streamers_clear new_RTCPeerConnection pc_addEventListener pc_close
       pc_setRemoteDescription pc_createAnswer pc_setLocalDescription
       pc_addIceCandidate ws_readyState ws_send ws_close new_WebSocket
       setTimeout clearTimeout
       with_streamersRef with_peerConnections with_streamerIds with_logs
       with_console with_connectionStatus with_id with_webSocketRef
       with_webSockets with_timers with_videoSrc with_suspended record_call
       streamersRef peerConnections streamerIds logs console
       connectionStatus id webSocketRef webSockets timers videoSrc
       suspended calls fst snd negb] in H.
Tactic Notation "m_simpl" := m_red_in_goal.
Tactic Notation "m_simpl" "in" hyp(H) := m_red_in H.

(* split on an innermost test the goal is stuck on *)
Ltac m_case :=
  match goal with
  | |- context [if ?b then _ else _] =>
      lazymatch b with
      | context [if _ then _ else _] => fail
      | _ => destruct b eqn:?
      end
  | |- context [match ?x with Some _ => _ | None => _ end] =>
      lazymatch x with
      | context [if _ then _ else _] => fail
      | _ => destruct x eqn:?
      end
  | |- context [match ?x with inl _ => _ | inr _ => _ end] =>
      destruct x eqn:?
  end.
Ltac m_cases := repeat (m_case; m_simpl).

(** Close a goal about the status values of an appended history. *)
Ltac status_calls_done :=
  unfold status_calls; m_simpl; m_cases; rewrite ?omap_app; simpl;
  rewrite ?app_nil_r; first [reflexivity | congruence].

(** Close a goal [store_evolves l l'] where [l'] is [l] under explicit
    operations. *)
Ltac store_evolves_done :=
  repeat first [ apply evolves_refl
               | apply evolves_alter; [|constructor]
               | apply evolves_new ].

(** ** The insertion-ordered map *)

Module JsMapFacts.
Import JsMap.
Section Facts.
Context {V : Type}.
Implicit Types (m : JsMap.t V) (k j : Z) (v : V).

Lemma has_get k m : has k m = true ↔ is_Some (get k m).
Proof.
  unfold has. destruct (get k m) as [v|]; split; intros H; try done;
    by destruct H.
Qed.

Lemma has_false_get k m : has k m = false ↔ get k m = None.
Proof. unfold has. destruct (get k m); split; done. Qed.

Lemma get_Some_keys k v m : get k m = Some v → k ∈ keys m.
Proof.
  unfold keys. induction m as [|[k' v'] m IH]; csimpl; [done|].
  destruct (Z.eqb_spec k k') as [->|Hne]; intros H.
  - apply list_elem_of_here.
  - apply list_elem_of_further. auto.
Qed.

Lemma get_None_keys k m : get k m = None ↔ k ∉ keys m.
Proof.
  unfold keys. induction m as [|[k' v'] m IH]; csimpl.
  - split; [intros _; apply not_elem_of_nil | done].
  - rewrite not_elem_of_cons. destruct (Z.eqb_spec k k') as [->|Hne].
    + split; [done | intros [? _]; done].
    + rewrite IH. tauto.
Qed.

Lemma has_keys k m : has k m = true ↔ k ∈ keys m.
Proof.
  destruct (has k m) eqn:E.
  - split; [intros _ | done].
    apply has_get in E as [v Hv]. by eapply get_Some_keys.
  - split; [done | intros Hin].
    apply has_false_get, get_None_keys in E. done.
Qed.

Lemma keys_set_fresh k v m : get k m = None → keys (set k v m) = keys m ++ [k].
Proof.
  unfold keys. induction m as [|[k' v'] m IH]; csimpl; [done|].
  destruct (Z.eqb_spec k k'); [done|]. intros H. csimpl. by rewrite IH.
Qed.

Lemma get_set_eq k v m : get k (set k v m) = Some v.
Proof.
  induction m as [|[k' v'] m IH]; csimpl.
  - by rewrite Z.eqb_refl.
  - destruct (Z.eqb_spec k k') as [->|Hne]; csimpl.
    + by rewrite Z.eqb_refl.
    + destruct (Z.eqb_spec k k'); done.
Qed.

Lemma get_set_ne k j v m : k ≠ j → get j (set k v m) = get j m.
Proof.
  intros Hne. induction m as [|[k' v'] m IH]; csimpl.
  - destruct (Z.eqb_spec j k); [congruence | done].
  - destruct (Z.eqb_spec k k') as [->|Hne']; csimpl.
    + destruct (Z.eqb_spec j k'); [congruence | done].
    + by rewrite IH.
Qed.

Lemma get_delete_ne k j m : k ≠ j → get j (delete k m) = get j m.
Proof.
  intros Hne. induction m as [|[k' v'] m IH]; csimpl; [done|].
  destruct (Z.eqb_spec k k') as [->|Hne']; csimpl.
  - destruct (Z.eqb_spec j k'); [congruence | done].
  - by rewrite IH.
Qed.

Lemma keys_delete_absent k m : k ∉ keys m → delete k m = m.
Proof.
  unfold keys. induction m as [|[k' v'] m IH]; csimpl; [done|].
  rewrite not_elem_of_cons. intros [Hne Hnin].
  destruct (Z.eqb_spec k k'); [done|]. by rewrite IH.
Qed.

Lemma elem_of_keys_delete k j m :
  NoDup (keys m) → j ∈ keys (delete k m) ↔ j ∈ keys m ∧ j ≠ k.
Proof.
  unfold keys. induction m as [|[k' v'] m IH]; csimpl.
  - intros _. rewrite elem_of_nil. tauto.
  - rewrite NoDup_cons. intros [Hnin Hnd].
    destruct (Z.eqb_spec k k') as [->|Hne]; csimpl.
    + rewrite elem_of_cons. split.
      * intros Hj. split; [by right|]. intros ->. done.
      * intros [[->|Hj] Hne]; done.
    + rewrite !elem_of_cons, IH by done. split.
      * intros [->|[Hj Hjk]]; split; auto.
      * intros [[->|Hj] Hjk]; auto.
Qed.

Lemma NoDup_keys_delete k m : NoDup (keys m) → NoDup (keys (delete k m)).
Proof.
  unfold keys. induction m as [|[k' v'] m IH]; csimpl; [done|].
  rewrite NoDup_cons. intros [Hnin Hnd].
  destruct (Z.eqb_spec k k'); [done|]. csimpl. apply NoDup_cons. split; [|auto].
  intros Hin. apply Hnin.
  by apply (elem_of_keys_delete k k' m Hnd) in Hin as [? _].
Qed.

Lemma NoDup_keys_set_fresh k v m :
  get k m = None → NoDup (keys m) → NoDup (keys (set k v m)).
Proof.
  intros Hk Hnd. rewrite keys_set_fresh by done.
  apply NoDup_app. split_and!; [done | | apply NoDup_singleton].
  intros x Hx Hx'. apply list_elem_of_singleton in Hx' as ->.
  by apply get_None_keys in Hk.
Qed.

Lemma get_elem_of k v m : get k m = Some v → (k, v) ∈ m.
Proof.
  induction m as [|[k' v'] m IH]; csimpl; [done|].
  destruct (Z.eqb_spec k k') as [->|Hne]; intros H.
  - injection H as ->. apply list_elem_of_here.
  - apply list_elem_of_further. auto.
Qed.
End Facts.
End JsMapFacts.

Import JsMapFacts.

(** ** The monad and the loops *)

Lemma exec_bind {A B} (m : M A) (f : A → M B) w :
  exec (bind m f) w = exec (f (m w).1) (m w).2.
Proof. unfold exec, bind. by destruct (m w). Qed.

Lemma exec_forEach_cons {A} (x : A) l f w :
  exec (forEach (x :: l) f) w = exec (forEach l f) (exec (f x) w).
Proof. cbn [forEach]. rewrite exec_bind. reflexivity. Qed.

Lemma forEach_view {A X} (π : World → X) (f : A → M unit) l :
  (∀ x w, π (exec (f x) w) = π w) → ∀ w, π (exec (forEach l f) w) = π w.
Proof.
  intros Hf. induction l as [|x l IH]; intros w; [done|].
  rewrite exec_forEach_cons, IH. apply Hf.
Qed.

(** ** What the functions leave alone *)

Lemma fmap_readyState_sent m s (l : list WebSocket) :
  readyState <$> alter (sent m) s l = readyState <$> l.
Proof.
  apply list_eq. intros i. rewrite !list_lookup_fmap.
  destruct (decide (s = i)) as [->|Hne].
  - rewrite list_lookup_alter_eq. by destruct (l !! i).
  - by rewrite list_lookup_alter_ne.
Qed.

Lemma sendToPeer_session target data w :
  session_view (exec (sendToPeer target data) w) = session_view w.
Proof.
  unfold session_view. m_simpl. m_cases; rewrite ?fmap_readyState_sent; first [reflexivity | congruence].
Qed.

Lemma sendToPeer_registry target data w :
  registry_view (exec (sendToPeer target data) w) = registry_view w.
Proof. unfold registry_view. m_simpl. m_cases; first [reflexivity | congruence]. Qed.

Lemma listener_session l ev w :
  session_view (exec (listener l ev) w) = session_view w.
Proof.
  destruct ev as [[c|]| |]; try reflexivity.
  unfold listener. destruct (l_by l); rewrite exec_bind, sendToPeer_session; reflexivity.
Qed.

Lemma listener_registry l ev w :
  registry_view (exec (listener l ev) w) = registry_view w.
Proof.
  destruct ev as [[c|]| |]; try reflexivity.
  unfold listener. destruct (l_by l); rewrite exec_bind, sendToPeer_registry; reflexivity.
Qed.

Lemma dispatch_session pc ev w :
  session_view (exec (dispatch pc ev) w) = session_view w.
Proof.
  unfold dispatch. rewrite exec_bind. cbn [gets fst snd].
  apply forEach_view. intros. apply listener_session.
Qed.

Lemma dispatch_registry pc ev w :
  registry_view (exec (dispatch pc ev) w) = registry_view w.
Proof.
  unfold dispatch. rewrite exec_bind. cbn [gets fst snd].
  apply forEach_view. intros. apply listener_registry.
Qed.

Lemma selectStreamer_session k w :
  session_view (exec (selectStreamer k) w) = session_view w.
Proof.
  unfold session_view. m_simpl. m_cases; rewrite ?fmap_readyState_sent; first [reflexivity | congruence].
Qed.

Lemma selectStreamer_registry k w :
  registry_view (exec (selectStreamer k) w) = registry_view w.
Proof.
  unfold registry_view. m_simpl. m_cases; rewrite ?length_alter; first [reflexivity | congruence].
Qed.

Lemma settle_session i r w w' :
  settle i r w = Some w' → session_view w' = session_view w.
Proof.
  unfold settle. destruct (suspended w !! i) as [c|]; [|done]. cbn [mbind option_bind].
  unfold session_view.
  destruct (a_await c), r; intros [= <-]; try done;
    m_simpl; m_cases; rewrite ?fmap_readyState_sent; first [reflexivity | congruence].
Qed.

Lemma settle_registry i r w w' :
  settle i r w = Some w' → registry_view w' = registry_view w.
Proof.
  unfold settle. destruct (suspended w !! i) as [c|]; [|done]. cbn [mbind option_bind].
  unfold registry_view.
  destruct (a_await c), r; intros [= <-]; try done;
    m_simpl; m_cases; rewrite ?length_alter; first [reflexivity | congruence].
Qed.

(** ** Guarded creation and removal on the registry *)

Section Upsert.
Implicit Types (r : Registry) (k j : Z).

Lemma upsert_has k r : JsMap.has k (upsert k r).1 = true.
Proof.
  unfold upsert. destruct (JsMap.has k r.1) eqn:E; [done|]. simpl.
  apply has_get. rewrite get_set_eq. by eexists.
Qed.

Lemma upsert_known k r : JsMap.has k r.1 = true → upsert k r = r.
Proof. unfold upsert. by intros ->. Qed.

Lemma upsert_idem k r : upsert k (upsert k r) = upsert k r.
Proof. apply upsert_known, upsert_has. Qed.

Lemma upsert_get_other k j r : k ≠ j → JsMap.get j (upsert k r).1 = JsMap.get j r.1.
Proof.
  intros Hne. unfold upsert. destruct (JsMap.has k r.1); [done|]. simpl.
  by apply get_set_ne.
Qed.

Lemma upsert_get_old k j pc r :
  JsMap.get j r.1 = Some pc → JsMap.get j (upsert k r).1 = Some pc.
Proof.
  intros Hj. destruct (decide (k = j)) as [->|Hne].
  - rewrite upsert_known; [done|]. apply has_get. by eexists.
  - by rewrite upsert_get_other.
Qed.

Lemma upsert_store_old k i o r : r.2 !! i = Some o → (upsert k r).2 !! i = Some o.
Proof.
  intros Hi. unfold upsert. destruct (JsMap.has k r.1); [done|]. simpl.
  by apply lookup_app_l_Some.
Qed.

Lemma upsert_store_length k r : (length (upsert k r).2 ≤ S (length r.2))%nat.
Proof.
  unfold upsert. destruct (JsMap.has k r.1); simpl; [lia|].
  rewrite length_app. simpl. lia.
Qed.

Lemma elem_of_keys_upsert k j r :
  j ∈ JsMap.keys (upsert k r).1 ↔ j ∈ JsMap.keys r.1 ∨ j = k.
Proof.
  unfold upsert. destruct (JsMap.has k r.1) eqn:E; simpl.
  - apply has_keys in E. split; [auto | intros [?| ->]; done].
  - apply has_false_get in E. rewrite keys_set_fresh by done.
    rewrite elem_of_app, list_elem_of_singleton. done.
Qed.

Lemma upsert_ok k r : registry_ok r → registry_ok (upsert k r).
Proof.
  intros [Hnd Hlt]. unfold upsert. destruct (JsMap.has k r.1) eqn:E; [done|].
  apply has_false_get in E. split; simpl.
  - by apply NoDup_keys_set_fresh.
  - intros j pc. rewrite length_app. simpl. destruct (decide (k = j)) as [<-|Hne].
    + rewrite get_set_eq. intros [= <-]. lia.
    + rewrite get_set_ne by done. intros H%Hlt. lia.
Qed.

Lemma upserts_cons k roster r : upserts (k :: roster) r = upserts roster (upsert k r).
Proof. done. Qed.

Lemma upserts_ok roster r : registry_ok r → registry_ok (upserts roster r).
Proof.
  revert r. induction roster as [|k roster IH]; intros r Hr; [done|].
  rewrite upserts_cons. by apply IH, upsert_ok.
Qed.

Lemma upserts_get_old roster j pc r :
  JsMap.get j r.1 = Some pc → JsMap.get j (upserts roster r).1 = Some pc.
Proof.
  revert r. induction roster as [|k roster IH]; intros r Hr; [done|].
  rewrite upserts_cons. by apply IH, upsert_get_old.
Qed.

Lemma upserts_store_old roster i o r :
  r.2 !! i = Some o → (upserts roster r).2 !! i = Some o.
Proof.
  revert r. induction roster as [|k roster IH]; intros r Hr; [done|].
  rewrite upserts_cons. by apply IH, upsert_store_old.
Qed.

Lemma elem_of_keys_upserts roster j r :
  j ∈ JsMap.keys (upserts roster r).1 ↔ j ∈ JsMap.keys r.1 ∨ j ∈ roster.
Proof.
  revert r. induction roster as [|k roster IH]; intros r.
  - simpl. rewrite elem_of_nil. tauto.
  - rewrite upserts_cons, IH, elem_of_keys_upsert, elem_of_cons. tauto.
Qed.

Lemma upserts_known roster r :
  (∀ k, k ∈ roster → JsMap.has k r.1 = true) → upserts roster r = r.
Proof.
  induction roster as [|k roster IH]; intros Hall; [done|].
  rewrite upserts_cons, upsert_known.
  - apply IH. intros j Hj. apply Hall. by apply list_elem_of_further.
  - apply Hall, list_elem_of_here.
Qed.

Lemma upserts_idem roster r : upserts roster (upserts roster r) = upserts roster r.
Proof.
  apply upserts_known. intros k Hk. apply has_keys, elem_of_keys_upserts. by right.
Qed.
End Upsert.

(** *** The functions of the component against them *)

Lemma each_registry_state k w :
  registry_state (exec (handleConnectMessage_each k) w) = upsert k (registry_state w).
Proof.
  unfold upsert, registry_state. m_simpl. m_cases; reflexivity.
Qed.

Lemma handleNewStreamer_registry_state k w :
  registry_state (exec (handleNewStreamer k) w) = upsert k (registry_state w).
Proof.
  unfold upsert, registry_state. m_simpl. m_cases; reflexivity.
Qed.

Lemma forEach_each_registry_state roster w :
  registry_state (exec (forEach roster handleConnectMessage_each) w)
  = upserts roster (registry_state w).
Proof.
  revert w. induction roster as [|k roster IH]; intros w; [done|].
  by rewrite exec_forEach_cons, IH, each_registry_state.
Qed.

Lemma each_session k w :
  session_view (exec (handleConnectMessage_each k) w) = session_view w.
Proof. unfold session_view. m_simpl. m_cases; reflexivity. Qed.

Lemma handleConnectMessage_registry_state n roster w :
  registry_state (exec (handleConnectMessage n roster) w) = upserts roster (registry_state w).
Proof.
  unfold handleConnectMessage. rewrite !exec_bind.
  change (registry_state (exec (forEach roster handleConnectMessage_each) (exec (setId n) w))
          = upserts roster (registry_state w)).
  by rewrite forEach_each_registry_state.
Qed.

Lemma handleConnectMessage_session n roster w :
  session_view (exec (handleConnectMessage n roster) w) = session_view w.
Proof.
  unfold handleConnectMessage. rewrite !exec_bind.
  change (session_view (exec (forEach roster handleConnectMessage_each) (exec (setId n) w))
          = session_view w).
  rewrite (forEach_view session_view); [done|]. intros. apply each_session.
Qed.

Lemma handleConnectMessage_id n roster w : id (exec (handleConnectMessage n roster) w) = n.
Proof.
  unfold handleConnectMessage. rewrite !exec_bind.
  change (id (exec (forEach roster handleConnectMessage_each) (exec (setId n) w)) = n).
  rewrite (forEach_view id); [done|]. intros k u. m_simpl. m_cases; reflexivity.
Qed.

Lemma handleStreamerDisconnection_registry_state k w :
  registry_state (exec (handleStreamerDisconnection k) w) = remove k (registry_state w).
Proof.
  unfold remove, registry_state. m_simpl. unfold JsMap.has. m_cases; first [reflexivity | congruence].
Qed.

Lemma handleStreamerDisconnection_absent k w :
  JsMap.get k (streamersRef w) = None → exec (handleStreamerDisconnection k) w = w.
Proof.
  intros H. m_simpl. unfold JsMap.has. m_cases; first [reflexivity | congruence].
Qed.

Lemma handleStreamerDisconnection_session k w :
  session_view (exec (handleStreamerDisconnection k) w) = session_view w.
Proof. unfold session_view. m_simpl. m_cases; reflexivity. Qed.

Lemma handleNewStreamer_session k w :
  session_view (exec (handleNewStreamer k) w) = session_view w.
Proof. unfold session_view. m_simpl. m_cases; reflexivity. Qed.

Lemma remove_ok k r : registry_ok r → registry_ok (remove k r).
Proof.
  intros [Hnd Hlt]. unfold remove. destruct (JsMap.get k r.1) as [pc|] eqn:E; [|done].
  split; simpl.
  - by apply NoDup_keys_delete.
  - intros j pc'. rewrite length_alter. destruct (decide (k = j)) as [<-|Hne].
    + intros Hj. apply get_Some_keys in Hj.
      apply (elem_of_keys_delete k k r.1 Hnd) in Hj as [_ ?]. done.
    + rewrite get_delete_ne by done. apply Hlt.
Qed.

(** [handleOffer] and [handleIceCandidate] leave the registry alone. *)
Lemma handleOffer_streamersRef sdp k w :
  streamersRef (exec (handleOffer sdp k) w) = streamersRef w ∧
  length (peerConnections (exec (handleOffer sdp k) w)) = length (peerConnections w).
Proof. m_simpl. m_cases; rewrite ?length_alter; split; reflexivity. Qed.

Lemma handleOffer_session sdp k w :
  session_view (exec (handleOffer sdp k) w) = session_view w.
Proof. unfold session_view. m_simpl. m_cases; reflexivity. Qed.

Lemma handleIceCandidate_registry_state c k w :
  registry_state (exec (handleIceCandidate c k) w) = registry_state w.
Proof. unfold registry_state. m_simpl. m_cases; reflexivity. Qed.

Lemma handleIceCandidate_session c k w :
  session_view (exec (handleIceCandidate c k) w) = session_view w.
Proof. unfold session_view. m_simpl. m_cases; reflexivity. Qed.

Lemma registry_ok_same_shape (r r' : Registry) :
  r'.1 = r.1 → length r'.2 = length r.2 → registry_ok r → registry_ok r'.
Proof. unfold registry_ok. by intros -> ->. Qed.

(** *** The router *)

(** The router, then the closing [log] of [onmessage]. *)
Lemma onmessage_parsed m w :
  exec (onmessage (Parsed m)) w =
  exec (log "New message from signaling server")
    (exec (handleSignalingMessage m) w).
Proof. unfold onmessage. by rewrite exec_bind. Qed.

Lemma handleSignalingMessage_unfold m w :
  exec (handleSignalingMessage m) w =
  let w0 := exec (console_log "Received message:";; console_log "Current streamers:")%M w in
  match m with
  | ConnectMessage n streamers => exec (handleConnectMessage n streamers) w0
  | OfferMessage sdp sender => exec (handleOffer sdp sender) w0
  | NewStreamerMessage k => exec (handleNewStreamer k) w0
  | DisconnectedMessage k => exec (handleStreamerDisconnection k) w0
  | CandidateMessage c sender => exec (handleIceCandidate c sender) w0
  | UnknownMessage type => exec (console_log ("Unknown message type: " +:+ type)) w0
  end.
Proof. unfold handleSignalingMessage. rewrite !exec_bind. by destruct m. Qed.

Lemma handleSignalingMessage_session m w :
  session_view (exec (handleSignalingMessage m) w) = session_view w.
Proof.
  rewrite handleSignalingMessage_unfold. cbn zeta. destruct m.
  - by rewrite handleConnectMessage_session.
  - by rewrite handleStreamerDisconnection_session.
  - by rewrite handleNewStreamer_session.
  - by rewrite handleOffer_session.
  - by rewrite handleIceCandidate_session.
  - done.
Qed.

Lemma handleSignalingMessage_ok m w :
  registry_ok (registry_state w) → registry_ok (registry_state (exec (handleSignalingMessage m) w)).
Proof.
  intros Hok. rewrite handleSignalingMessage_unfold. cbn zeta. destruct m.
  - rewrite handleConnectMessage_registry_state. by apply upserts_ok.
  - rewrite handleStreamerDisconnection_registry_state. by apply remove_ok.
  - rewrite handleNewStreamer_registry_state. by apply upsert_ok.
  - eapply registry_ok_same_shape; [..|exact Hok]; apply handleOffer_streamersRef.
  - by rewrite handleIceCandidate_registry_state.
  - done.
Qed.

Lemma onmessage_session data w :
  session_view (exec (onmessage data) w) = session_view w.
Proof.
  destruct data as [e|m]; [done|].
  rewrite onmessage_parsed. apply (handleSignalingMessage_session m w).
Qed.

Lemma onmessage_ok data w :
  registry_ok (registry_state w) → registry_ok (registry_state (exec (onmessage data) w)).
Proof.
  destruct data as [e|m]; [done|].
  rewrite onmessage_parsed. apply (handleSignalingMessage_ok m w).
Qed.

(** *** Closing every connection of the registry *)

Lemma close_all_length pcs store : length (close_all pcs store) = length store.
Proof.
  revert store. induction pcs as [|pc pcs IH]; intros store; [done|].
  simpl. by rewrite IH, length_alter.
Qed.

Lemma close_all_stays_closed pcs store i o :
  store !! i = Some o → pc_closed o = true →
  ∃ o', close_all pcs store !! i = Some o' ∧ pc_closed o' = true.
Proof.
  revert store o. induction pcs as [|pc pcs IH]; intros store o Hi Hc; [by eauto|].
  simpl. destruct (decide (pc = i)) as [->|Hne].
  - eapply IH; [by rewrite list_lookup_alter_eq, Hi | done].
  - eapply IH; [by rewrite list_lookup_alter_ne | done].
Qed.

Lemma close_all_closes pcs store i :
  i ∈ pcs → (i < length store)%nat →
  ∃ o', close_all pcs store !! i = Some o' ∧ pc_closed o' = true.
Proof.
  revert store. induction pcs as [|pc pcs IH]; intros store Hin Hlt.
  - by apply elem_of_nil in Hin.
  - simpl. destruct (decide (pc = i)) as [->|Hne].
    + destruct (lookup_lt_is_Some_2 store i Hlt) as [o Ho].
      eapply close_all_stays_closed; [by rewrite list_lookup_alter_eq, Ho | done].
    + apply elem_of_cons in Hin as [->|Hin]; [done|].
      apply IH; [done | by rewrite length_alter].
Qed.

Lemma forEach_close_store (entries : JsMap.t nat) w :
  peerConnections (exec (forEach entries (λ entry, pc_close entry.2)) w)
  = close_all entries.*2 (peerConnections w).
Proof.
  revert w. induction entries as [|[k pc] entries IH]; intros w; [done|].
  by rewrite exec_forEach_cons, IH.
Qed.

Lemma forEach_close_calls (entries : JsMap.t nat) w :
  calls (exec (forEach entries (λ entry, pc_close entry.2)) w)
  = calls w ++ (PcClose <$> entries.*2).
Proof.
  revert w. induction entries as [|[k pc] entries IH]; intros w.
  - simpl. by rewrite app_nil_r.
  - rewrite exec_forEach_cons, IH. csimpl. m_simpl. by rewrite <- app_assoc.
Qed.

Lemma forEach_close_outside (entries : JsMap.t nat) w :
  outside_store (exec (forEach entries (λ entry, pc_close entry.2)) w) = outside_store w.
Proof. apply forEach_view. intros. reflexivity. Qed.

(** *** [handleConnect], branch by branch *)

Lemma handleConnect_disconnect thrown s w :
  wants_disconnect w = true → webSocketRef w = Some s →
  exec (handleConnect thrown) w =
  exec (streamers_clear;; updateStreamerIds;;
        log "Manually disconnected from signaling server")%M
    (exec (forEach (streamersRef w) (λ entry, pc_close entry.2))
       (exec (ws_close s;; modify (with_webSocketRef None);;
              setConnectionStatus Disconnected)%M w)).
Proof.
  intros Hd Hs. unfold wants_disconnect in Hd.
  unfold handleConnect. rewrite !exec_bind.
  cbv [gets fst snd connectionStatus webSocketRef].
  m_simpl in Hd. m_simpl in Hs. rewrite Hd, Hs. by rewrite !exec_bind.
Qed.

Lemma handleConnect_idle thrown w :
  connectionStatus w = Connecting → webSocketRef w = None →
  exec (handleConnect thrown) w = w.
Proof.
  intros Hc Hs. m_simpl. m_simpl in Hc. m_simpl in Hs. rewrite Hc, Hs. reflexivity.
Qed.

Lemma handleConnect_attempt w :
  wants_disconnect w = false →
  exec (handleConnect None) w =
  exec (setConnectionStatus Connecting;; timeoutId ← setTimeout;
        newSocket ← new_WebSocket timeoutId; ret tt)%M w.
Proof.
  intros Hd. unfold wants_disconnect in Hd.
  m_simpl. m_simpl in Hd. rewrite Hd. apply orb_false_elim in Hd as [_ ->].
  destruct (webSocketRef w); reflexivity.
Qed.

Lemma handleConnect_disconnect_fields thrown s w :
  wants_disconnect w = true → webSocketRef w = Some s →
  let w' := exec (handleConnect thrown) w in
  streamersRef w' = [] ∧
  peerConnections w' = close_all (streamersRef w).*2 (peerConnections w) ∧
  connectionStatus w' = Disconnected ∧
  webSocketRef w' = None ∧
  webSockets w' = alter closing s (webSockets w) ∧
  calls w' = calls w ++ [WsClose s; SetConnectionStatus Disconnected]
               ++ (PcClose <$> (streamersRef w).*2) ++ [MapClear] ∧
  logs w' = logs w ++ ["Manually disconnected from signaling server"] ∧
  timers w' = timers w.
Proof.
  intros Hd Hs w'. subst w'. rewrite (handleConnect_disconnect thrown s w Hd Hs).
  pose proof (forEach_close_store (streamersRef w)
    (exec (ws_close s;; modify (with_webSocketRef None);;
           setConnectionStatus Disconnected)%M w)) as Hst.
  pose proof (forEach_close_calls (streamersRef w)
    (exec (ws_close s;; modify (with_webSocketRef None);;
           setConnectionStatus Disconnected)%M w)) as Hca.
  pose proof (forEach_close_outside (streamersRef w)
    (exec (ws_close s;; modify (with_webSocketRef None);;
           setConnectionStatus Disconnected)%M w)) as Hout.
  remember (exec (forEach (streamersRef w) (λ entry, pc_close entry.2)) _) as u eqn:Hu.
  clear Hu. unfold outside_store in Hout. m_simpl in Hout. m_simpl in Hst. m_simpl in Hca.
  injection Hout as H1 H2 H3 H4 H5 H6 H7 H8 H9 H10 H11.
  m_simpl. rewrite Hst, Hca, H7, H3. rewrite <- !app_assoc.
  repeat split; try reflexivity; congruence.
Qed.

Lemma handleConnect_other thrown w :
  wants_disconnect w = false ∨ webSocketRef w = None →
  let w' := exec (handleConnect thrown) w in
  registry_state w' = registry_state w ∧
  webSocketRef w' = webSocketRef w ∧
  (length (webSockets w) ≤ length (webSockets w'))%nat ∧
  connectionStatus w' ≠ Connected.
Proof.
  intros Hcase. cbn zeta. unfold registry_state. unfold wants_disconnect in Hcase.
  m_simpl. m_simpl in Hcase.
  destruct (bool_decide _ || bool_decide _) eqn:Hd.
  - destruct Hcase as [?|Hs]; [congruence|]. rewrite Hs.
    destruct (bool_decide (_ = Connecting)) eqn:Hc.
    + apply bool_decide_eq_true in Hc. m_simpl.
      rewrite Hs. repeat split; [lia | congruence].
    + destruct thrown; m_simpl; rewrite ?length_app; simpl;
        repeat split; first [done | lia].
  - destruct (bool_decide (_ = Connecting)) eqn:Hc.
    + apply bool_decide_eq_true in Hc. m_simpl.
      repeat split; [lia | congruence].
    + destruct thrown; m_simpl; rewrite ?length_app; simpl;
        repeat split; first [done | lia].
Qed.

(** ** What holds in every reachable state *)

Lemma Inv_initial : Inv initial.
Proof.
  split; try done. split; [apply NoDup_nil_2 | done].
Qed.

Lemma Inv_same_views w w' :
  session_view w' = session_view w → registry_view w' = registry_view w →
  Inv w → Inv w'.
Proof.
  unfold session_view, registry_view. intros [= Hc Hr Hl _] [= Hs Hp] [I1 I3 I4].
  apply (f_equal length) in Hl. rewrite !length_fmap in Hl.
  split.
  - rewrite Hc, Hr. done.
  - rewrite Hr, Hl. done.
  - eapply registry_ok_same_shape; [..|exact I4]; done.
Qed.

Lemma Inv_step w e w' : Inv w → step w e = Some w' → Inv w'.
Proof.
  intros HI. destruct e as [thrown|k|s|s data|s|s err|t|pc ev|i r]; simpl.
  - (* UserConnect *)
    intros [= <-]. destruct HI as [I1 I3 I4].
    destruct (wants_disconnect w) eqn:Hd; [destruct (webSocketRef w) as [s|] eqn:Hs|].
    + destruct (handleConnect_disconnect_fields thrown s w Hd Hs)
        as (Hr & Hp & Hc & Hw & _).
      split.
      * rewrite Hc. done.
      * rewrite Hw. done.
      * unfold registry_ok, registry_state. simpl. rewrite Hr. split; [apply NoDup_nil_2 | done].
    + destruct (handleConnect_other thrown w (or_intror Hs)) as (Hr & Hw & Hl & Hc).
      split; [done | | by rewrite Hr].
      intros s. rewrite Hw. intros H. first [congruence | apply I3 in H; lia].
    + destruct (handleConnect_other thrown w (or_introl Hd)) as (Hr & Hw & Hl & Hc).
      split; [done | | by rewrite Hr].
      intros s. rewrite Hw. intros H. first [congruence | apply I3 in H; lia].
  - (* UserSelect *)
    destruct (_ && _); [|done]. intros [= <-].
    eapply Inv_same_views; [apply selectStreamer_session | apply selectStreamer_registry | done].
  - (* SocketOpen *)
    destruct (webSockets w !! s) as [o|] eqn:Hs; [|done]. simpl.
    destruct (bool_decide _); [|done]. intros [= <-]. destruct HI as [I1 I3 I4].
    apply lookup_lt_Some in Hs.
    split.
    + intros _. by eexists.
    + intros s'. m_simpl. intros [= <-]. by rewrite length_alter.
    + done.
  - (* SocketMessage *)
    destruct (webSockets w !! s) as [o|]; [|done]. simpl.
    destruct (bool_decide _); [|done]. intros [= <-]. destruct HI as [I1 I3 I4].
    pose proof (onmessage_session data w) as [= Hc Hr Hl _].
    apply (f_equal length) in Hl. rewrite !length_fmap in Hl.
    split.
    + rewrite Hc, Hr. done.
    + rewrite Hr, Hl. done.
    + by apply onmessage_ok.
  - (* SocketClose *)
    destruct (webSockets w !! s) as [o|]; [|done]. simpl.
    destruct (bool_decide _); [done|]. intros [= <-]. destruct HI as [I1 I3 I4].
    split; done.
  - (* SocketError *)
    destruct (webSockets w !! s) as [o|]; [|done]. simpl.
    destruct (bool_decide _); [done|]. intros [= <-]. destruct HI as [I1 I3 I4].
    split; done.
  - (* TimerFires *)
    destruct (timers w !! t) as [st|]; [|done]. simpl.
    destruct (bool_decide _); [|done]. intros [= <-]. destruct HI as [I1 I3 I4].
    split; done.
  - (* PeerFires *)
    destruct (peerConnections w !! pc) as [o|]; [|done]. simpl.
    destruct (pc_closed o); [done|]. intros [= <-].
    eapply Inv_same_views; [apply dispatch_session | apply dispatch_registry | done].
  - (* Settles *)
    intros Hs. eapply Inv_same_views; [ by eapply settle_session | by eapply settle_registry | done].
Qed.

Lemma Inv_run es : ∀ w w', Inv w → run w es = Some w' → Inv w'.
Proof.
  induction es as [|e es IH]; intros w w' HI; simpl.
  - by intros [= <-].
  - destruct (step w e) as [w1|] eqn:Hstep; [|done]. simpl.
    apply IH. by eapply Inv_step.
Qed.

Lemma reachable_Inv w : reachable w → Inv w.
Proof. intros [es Hes]. eapply Inv_run; [apply Inv_initial | done]. Qed.

(** ** The registry follows the roster *)

Lemma elem_of_keys_remove k j (r : Registry) :
  NoDup (JsMap.keys r.1) →
  j ∈ JsMap.keys (remove k r).1 ↔ j ∈ JsMap.keys r.1 ∧ j ≠ k.
Proof.
  intros Hnd. unfold remove. destruct (JsMap.get k r.1) as [pc|] eqn:E; simpl.
  - by apply elem_of_keys_delete.
  - apply get_None_keys in E. split; [|by intros [? _]].
    intros Hj. split; [done|]. by intros ->.
Qed.

Lemma deliver_cons m msgs w :
  exec (deliver (m :: msgs)) w = exec (deliver msgs) (exec (onmessage (Parsed m)) w).
Proof. exact (exec_forEach_cons m msgs (λ m, onmessage (Parsed m)) w). Qed.

Lemma onmessage_registry_state m w :
  registry_state (exec (onmessage (Parsed m)) w) =
  match m with
  | ConnectMessage _ roster => upserts roster (registry_state w)
  | NewStreamerMessage k => upsert k (registry_state w)
  | DisconnectedMessage k => remove k (registry_state w)
  | _ => registry_state (exec (handleSignalingMessage m) w)
  end.
Proof.
  rewrite onmessage_parsed.
  change (registry_state (exec (handleSignalingMessage m) w) =
    match m with
    | ConnectMessage _ roster => upserts roster (registry_state w)
    | NewStreamerMessage k => upsert k (registry_state w)
    | DisconnectedMessage k => remove k (registry_state w)
    | _ => registry_state (exec (handleSignalingMessage m) w)
    end).
  destruct m; try reflexivity; rewrite handleSignalingMessage_unfold; cbn zeta.
  - by rewrite handleConnectMessage_registry_state.
  - by rewrite handleStreamerDisconnection_registry_state.
  - by rewrite handleNewStreamer_registry_state.
Qed.

Lemma deliver_roster_changes msgs : ∀ w,
  forallb is_roster_change msgs = true →
  NoDup (JsMap.keys (streamersRef w)) →
  let w' := exec (deliver msgs) w in
  NoDup (JsMap.keys (streamersRef w')) ∧
  ∀ k, k ∈ JsMap.keys (streamersRef w') ↔
       (k ∈ JsMap.keys (streamersRef w) ∧ DisconnectedMessage k ∉ msgs) ∨
       (∃ pre post, msgs = pre ++ NewStreamerMessage k :: post ∧
                    DisconnectedMessage k ∉ post).
Proof.
  induction msgs as [|m msgs IH]; intros w Hall Hnd; cbn zeta.
  - split; [done|]. intros k. split.
    + intros Hk. left. split; [done | apply not_elem_of_nil].
    + intros [[Hk _]|(pre & post & Heq & _)]; [done|]. by destruct pre.
  - simpl in Hall. apply andb_prop in Hall as [Hm Hall].
    rewrite deliver_cons.
    pose proof (onmessage_registry_state m w) as Hreg.
    set (w1 := exec (onmessage (Parsed m)) w) in *.
    destruct m as [| j | j | | |]; try discriminate Hm.
    + (* streamer-disconnected *)
      assert (Hk1 : ∀ k, k ∈ JsMap.keys (streamersRef w1) ↔
                         k ∈ JsMap.keys (streamersRef w) ∧ k ≠ j).
      { intros k. change (streamersRef w1) with (registry_state w1).1.
        rewrite Hreg. by apply elem_of_keys_remove. }
      assert (Hnd1 : NoDup (JsMap.keys (streamersRef w1))).
      { change (streamersRef w1) with (registry_state w1).1. rewrite Hreg.
        unfold remove. destruct (JsMap.get j _); simpl; [|done].
        by apply NoDup_keys_delete. }
      destruct (IH w1 Hall Hnd1) as [Hnd' Hk']. split; [done|].
      intros k. rewrite Hk', Hk1, not_elem_of_cons. split.
      * intros [[[Hk Hne] Hno]|(pre & post & -> & Hno)].
        -- left. split_and!; [done | congruence | done].
        -- right. by exists (DisconnectedMessage j :: pre), post.
      * intros [[Hk [Hne Hno]]|(pre & post & Heq & Hno)].
        -- left. split_and!; [done | congruence | done].
        -- right. destruct pre as [|m pre]; [done|].
           injection Heq as Hhd Hmsgs. by exists pre, post.
    + (* new-streamer *)
      assert (Hk1 : ∀ k, k ∈ JsMap.keys (streamersRef w1) ↔
                         k ∈ JsMap.keys (streamersRef w) ∨ k = j).
      { intros k. change (streamersRef w1) with (registry_state w1).1.
        rewrite Hreg. apply elem_of_keys_upsert. }
      assert (Hnd1 : NoDup (JsMap.keys (streamersRef w1))).
      { change (streamersRef w1) with (registry_state w1).1. rewrite Hreg.
        unfold upsert. destruct (JsMap.has j _) eqn:E; simpl; [done|].
        apply NoDup_keys_set_fresh; [by apply has_false_get | done]. }
      destruct (IH w1 Hall Hnd1) as [Hnd' Hk']. split; [done|].
      intros k. rewrite Hk', Hk1, not_elem_of_cons. split.
      * intros [[[Hk| ->] Hno]|(pre & post & -> & Hno)].
        -- left. split_and!; done.
        -- right. by exists [], msgs.
        -- right. by exists (NewStreamerMessage j :: pre), post.
      * intros [[Hk [Hne Hno]]|(pre & post & Heq & Hno)].
        -- left. split; [by left | done].
        -- destruct pre as [|m pre].
           ++ injection Heq as Hj Hmsgs. subst post. left. split; [right; congruence | done].
           ++ injection Heq as Hhd Hmsgs. right. by exists pre, post.
Qed.

(** C1. Starting from an empty registry, after the [connect] message with
    its roster and any sequence of [new-streamer] and
    [streamer-disconnected] messages, the keys of the registry are
    distinct, and a streamer id is a key exactly when the roster or a
    [new-streamer] message introduced it and no later
    [streamer-disconnected] message named it. *)
Theorem registry_keys_follow_roster_changes (w : World) n roster msgs :
  streamersRef w = [] →
  forallb is_roster_change msgs = true →
  let w' := exec (deliver (ConnectMessage n roster :: msgs)) w in
  NoDup (JsMap.keys (streamersRef w')) ∧
  ∀ k, k ∈ JsMap.keys (streamersRef w') ↔ introduced_not_disconnected k roster msgs.
Proof.
  intros Hempty Hall. cbn zeta. rewrite deliver_cons.
  pose proof (onmessage_registry_state (ConnectMessage n roster) w) as Hreg.
  set (w1 := exec (onmessage (Parsed (ConnectMessage n roster))) w) in *.
  assert (Hok : registry_ok (registry_state w1)).
  { rewrite Hreg. apply upserts_ok. unfold registry_ok, registry_state. simpl.
    rewrite Hempty. split; [apply NoDup_nil_2 | done]. }
  assert (Hk1 : ∀ k, k ∈ JsMap.keys (streamersRef w1) ↔ k ∈ roster).
  { intros k. change (streamersRef w1) with (registry_state w1).1.
    rewrite Hreg, elem_of_keys_upserts. unfold registry_state. simpl. rewrite Hempty.
    split; [intros [H|H]; [by apply elem_of_nil in H | done] | by right]. }
  destruct (deliver_roster_changes msgs w1 Hall (proj1 Hok)) as [Hnd Hk].
  split; [done|]. intros k. rewrite Hk, Hk1. reflexivity.
Qed.

Lemma registry_keys_follow_roster_changes_witness :
  let msgs := [NewStreamerMessage 3; DisconnectedMessage 1; NewStreamerMessage 3] in
  let w' := exec (deliver (ConnectMessage 7 [1; 2] :: msgs)) initial in
  JsMap.keys (streamersRef w') = [2; 3] ∧
  (3 ∈ JsMap.keys (streamersRef w') ↔ introduced_not_disconnected 3 [1; 2] msgs).
Proof.
  split; [reflexivity|].
  apply (registry_keys_follow_roster_changes initial 7 [1; 2]); reflexivity.
Defined.

(** ** Upsert is idempotent *)

Lemma handleNewStreamer_known k w :
  JsMap.has k (streamersRef w) = true → exec (handleNewStreamer k) w = w.
Proof. intros H. m_simpl. m_cases; first [reflexivity | congruence]. Qed.

Lemma each_known k w :
  JsMap.has k (streamersRef w) = true → exec (handleConnectMessage_each k) w = w.
Proof. intros H. m_simpl. m_cases; first [reflexivity | congruence]. Qed.

Lemma handleNewStreamer_has k w :
  JsMap.has k (streamersRef (exec (handleNewStreamer k) w)) = true.
Proof.
  change (streamersRef (exec (handleNewStreamer k) w))
    with (registry_state (exec (handleNewStreamer k) w)).1.
  rewrite handleNewStreamer_registry_state. apply upsert_has.
Qed.

Lemma each_has k w :
  JsMap.has k (streamersRef (exec (handleConnectMessage_each k) w)) = true.
Proof.
  change (streamersRef (exec (handleConnectMessage_each k) w))
    with (registry_state (exec (handleConnectMessage_each k) w)).1.
  rewrite each_registry_state. apply upsert_has.
Qed.

Lemma filter_key_absent (k : Z) (l : list Z) :
  k ∉ l → filter (λ j, j = k) l = [].
Proof.
  induction l as [|j l IH]; [done|].
  rewrite not_elem_of_cons. intros [Hne Hnin].
  rewrite filter_cons_False by congruence. auto.
Qed.

(** A key of a list without duplicates occurs once in it. *)
Lemma count_key_NoDup (k : Z) (l : list Z) :
  NoDup l → k ∈ l → length (filter (λ j, j = k) l) = 1%nat.
Proof.
  induction l as [|j l IH]; intros Hnd Hin.
  - by apply elem_of_nil in Hin.
  - apply NoDup_cons in Hnd as [Hj Hnd]. rewrite filter_cons.
    destruct (decide (j = k)) as [->|Hne].
    + simpl. by rewrite filter_key_absent.
    + apply IH; [done|]. apply elem_of_cons in Hin as [->|Hin]; done.
Qed.

Lemma upsert_NoDup k (r : Registry) :
  NoDup (JsMap.keys r.1) → NoDup (JsMap.keys (upsert k r).1).
Proof.
  intros Hnd. unfold upsert. destruct (JsMap.has k r.1) eqn:E; simpl; [done|].
  apply NoDup_keys_set_fresh; [by apply has_false_get | done].
Qed.

Lemma count_key_upsert k (r : Registry) :
  NoDup (JsMap.keys r.1) →
  length (filter (λ j, j = k) (JsMap.keys (upsert k r).1)) = 1%nat.
Proof.
  intros Hnd. apply count_key_NoDup; [by apply upsert_NoDup|].
  apply elem_of_keys_upsert. by right.
Qed.

Lemma upserts_NoDup roster (r : Registry) :
  NoDup (JsMap.keys r.1) → NoDup (JsMap.keys (upserts roster r).1).
Proof.
  revert r. induction roster as [|k roster IH]; intros r Hnd; [done|].
  rewrite upserts_cons. by apply IH, upsert_NoDup.
Qed.

(** Every new key comes with one new object, and an id that was absent
    gets an object created for it. *)
Lemma upsert_size k (r : Registry) :
  (length (upsert k r).2 + length (JsMap.keys r.1)
   = length r.2 + length (JsMap.keys (upsert k r).1))%nat.
Proof.
  unfold upsert. destruct (JsMap.has k r.1) eqn:E; simpl; [done|].
  apply has_false_get in E. rewrite keys_set_fresh, !length_app by done. simpl. lia.
Qed.

Lemma upserts_size roster (r : Registry) :
  (length (upserts roster r).2 + length (JsMap.keys r.1)
   = length r.2 + length (JsMap.keys (upserts roster r).1))%nat.
Proof.
  revert r. induction roster as [|k roster IH]; intros r; [done|].
  rewrite upserts_cons. pose proof (IH (upsert k r)). pose proof (upsert_size k r). lia.
Qed.

Lemma upsert_store_grows k (r : Registry) : (length r.2 ≤ length (upsert k r).2)%nat.
Proof.
  unfold upsert. destruct (JsMap.has k r.1); simpl; [done|].
  rewrite length_app. lia.
Qed.

Lemma upsert_fresh k (r : Registry) :
  JsMap.get k r.1 = None →
  upsert k r = (JsMap.set k (length r.2) r.1, r.2 ++ [fresh_pc]).
Proof. intros H%has_false_get. unfold upsert. by rewrite H. Qed.

Lemma upserts_fresh roster k (r : Registry) :
  k ∈ roster → JsMap.get k r.1 = None →
  ∃ pc, JsMap.get k (upserts roster r).1 = Some pc ∧
        (length r.2 ≤ pc)%nat ∧
        (upserts roster r).2 !! pc = Some fresh_pc.
Proof.
  revert r. induction roster as [|j roster IH]; intros r Hin Hk.
  - by apply elem_of_nil in Hin.
  - rewrite upserts_cons. destruct (decide (j = k)) as [->|Hne].
    + exists (length r.2). rewrite (upsert_fresh k r Hk). split_and!; [|done|].
      * apply upserts_get_old. simpl. apply get_set_eq.
      * apply upserts_store_old. simpl. by apply list_lookup_middle.
    + apply elem_of_cons in Hin as [->|Hin]; [done|].
      destruct (IH (upsert j r) Hin) as (pc & Hget & Hle & Hpc).
      { by rewrite upsert_get_other. }
      exists pc. split_and!; [done| |done].
      pose proof (upsert_store_grows j r). lia.
Qed.

(** The same on the component. *)
Lemma handleNewStreamer_fresh k w :
  JsMap.get k (streamersRef w) = None →
  calls (exec (handleNewStreamer k) w)
    = calls w ++ [NewRTCPeerConnection (length (peerConnections w));
                  MapSet k (length (peerConnections w))] ∧
  logs (exec (handleNewStreamer k) w) = logs w ++ ["New Streamer " +:+ pretty k] ∧
  streamerIds (exec (handleNewStreamer k) w) = JsMap.keys (streamersRef w) ++ [k].
Proof.
  intros Hk. pose proof Hk as Hhas%has_false_get.
  m_simpl. m_simpl in Hhas. m_cases; [congruence|].
  rewrite <- app_assoc. split_and!; [done|done|].
  by apply keys_set_fresh.
Qed.

Lemma exec_forEach_app {A} (l1 l2 : list A) f w :
  exec (forEach (l1 ++ l2) f) w = exec (forEach l2 f) (exec (forEach l1 f) w).
Proof.
  revert w. induction l1 as [|x l1 IH]; intros w; [done|].
  rewrite <- app_comm_cons, !exec_forEach_cons. apply IH.
Qed.

Lemma handleConnectMessage_loop n roster w :
  exec (handleConnectMessage n roster) w
    = exec (updateStreamerIds;; log ("Assigned clientId: " +:+ pretty n))%M
        (exec (forEach roster handleConnectMessage_each) (exec (setId n) w)).
Proof. unfold handleConnectMessage. rewrite !exec_bind. reflexivity. Qed.

Lemma forEach_repeated_entry k r1 r2 w :
  k ∈ r1 →
  exec (forEach (r1 ++ k :: r2) handleConnectMessage_each) w
    = exec (forEach (r1 ++ r2) handleConnectMessage_each) w.
Proof.
  intros Hin. rewrite !exec_forEach_app, exec_forEach_cons, each_known; [done|].
  change (streamersRef (exec (forEach r1 handleConnectMessage_each) w))
    with (registry_state (exec (forEach r1 handleConnectMessage_each) w)).1.
  rewrite forEach_each_registry_state. apply has_keys, elem_of_keys_upserts. by right.
Qed.

(** C7. A second [new-streamer] message for the same id, or a second
    occurrence of the id in a roster, changes nothing at all: the state
    is the one after the first.  The whole roster delivered again leaves
    the registry and every peer connection as they were after the first
    delivery, and a roster that repeats an id does what the roster
    without the repetition does.  After the two upserts the id owns one
    entry (when the keys were distinct before), and the entry holds one
    peer connection: for an id that was absent, one object was created,
    by one call of the constructor, the entry refers to it, and the
    menu lists the id last; for an
    id that was present, nothing was created and the entry keeps the
    object it had.  Through a roster, the store grows by one object for
    each key the registry gains. *)
Theorem upsert_twice_is_upsert_once (w : World) (k : Z) :
  exec (handleNewStreamer k) (exec (handleNewStreamer k) w)
    = exec (handleNewStreamer k) w ∧
  exec (handleConnectMessage_each k) (exec (handleConnectMessage_each k) w)
    = exec (handleConnectMessage_each k) w ∧
  (∀ n n' roster,
     registry_state (exec (handleConnectMessage n' roster)
                       (exec (handleConnectMessage n roster) w))
       = registry_state (exec (handleConnectMessage n roster) w)) ∧
  (∀ n roster1 roster2, k ∈ roster1 →
     exec (handleConnectMessage n (roster1 ++ k :: roster2)) w
       = exec (handleConnectMessage n (roster1 ++ roster2)) w) ∧
  (let w2 := exec (handleNewStreamer k) (exec (handleNewStreamer k) w) in
   (NoDup (JsMap.keys (streamersRef w)) →
    length (filter (λ j, j = k) (JsMap.keys (streamersRef w2))) = 1%nat) ∧
   (length (peerConnections w2) ≤ S (length (peerConnections w)))%nat ∧
   (JsMap.get k (streamersRef w) = None →
    JsMap.get k (streamersRef w2) = Some (length (peerConnections w)) ∧
    peerConnections w2 = peerConnections w ++ [fresh_pc] ∧
    calls w2 = calls w ++ [NewRTCPeerConnection (length (peerConnections w));
                           MapSet k (length (peerConnections w))] ∧
    logs w2 = logs w ++ ["New Streamer " +:+ pretty k] ∧
    streamerIds w2 = JsMap.keys (streamersRef w) ++ [k]) ∧
   (∀ pc, JsMap.get k (streamersRef w) = Some pc → w2 = w)) ∧
  (∀ n roster, k ∈ roster →
   let w1 := exec (handleConnectMessage n roster) w in
   (NoDup (JsMap.keys (streamersRef w)) →
    length (filter (λ j, j = k) (JsMap.keys (streamersRef w1))) = 1%nat) ∧
   (JsMap.get k (streamersRef w) = None →
    ∃ pc, JsMap.get k (streamersRef w1) = Some pc ∧
          (length (peerConnections w) ≤ pc)%nat ∧
          peerConnections w1 !! pc = Some fresh_pc) ∧
   (∀ pc, JsMap.get k (streamersRef w) = Some pc →
    JsMap.get k (streamersRef w1) = Some pc ∧
    ∀ o, peerConnections w !! pc = Some o → peerConnections w1 !! pc = Some o) ∧
   (length (peerConnections w1) + length (JsMap.keys (streamersRef w))
    = length (peerConnections w) + length (JsMap.keys (streamersRef w1)))%nat).
Proof.
  split_and!.
  - apply handleNewStreamer_known, handleNewStreamer_has.
  - apply each_known, each_has.
  - intros n n' roster.
    rewrite !handleConnectMessage_registry_state. apply upserts_idem.
  - intros n roster1 roster2 Hin.
    rewrite !handleConnectMessage_loop. by rewrite forEach_repeated_entry.
  - cbn zeta. rewrite handleNewStreamer_known by apply handleNewStreamer_has.
    split_and!.
    + intros Hnd.
      change (streamersRef (exec (handleNewStreamer k) w))
        with (registry_state (exec (handleNewStreamer k) w)).1.
      rewrite handleNewStreamer_registry_state. by apply count_key_upsert.
    + change (peerConnections (exec (handleNewStreamer k) w))
        with (registry_state (exec (handleNewStreamer k) w)).2.
      rewrite handleNewStreamer_registry_state. apply upsert_store_length.
    + intros Hk. split; [|split; [|by apply handleNewStreamer_fresh]].
      * change (streamersRef (exec (handleNewStreamer k) w))
          with (registry_state (exec (handleNewStreamer k) w)).1.
        rewrite handleNewStreamer_registry_state, (upsert_fresh k (registry_state w) Hk). apply get_set_eq.
      * change (peerConnections (exec (handleNewStreamer k) w))
          with (registry_state (exec (handleNewStreamer k) w)).2.
        by rewrite handleNewStreamer_registry_state, (upsert_fresh k (registry_state w) Hk).
    + intros pc Hk. apply handleNewStreamer_known, has_get. by eexists.
  - intros n roster Hin. cbn zeta.
    change (streamersRef (exec (handleConnectMessage n roster) w))
      with (registry_state (exec (handleConnectMessage n roster) w)).1.
    change (peerConnections (exec (handleConnectMessage n roster) w))
      with (registry_state (exec (handleConnectMessage n roster) w)).2.
    rewrite handleConnectMessage_registry_state. split_and!.
    + intros Hnd. apply count_key_NoDup.
      * by apply upserts_NoDup.
      * apply elem_of_keys_upserts. by right.
    + intros Hk. by apply upserts_fresh.
    + intros pc Hk. split.
      * by apply upserts_get_old.
      * intros o Ho. by apply upserts_store_old.
    + apply (upserts_size roster (registry_state w)).
Qed.

Lemma upsert_twice_is_upsert_once_witness :
  let w2 := exec (handleNewStreamer 5) (exec (handleNewStreamer 5) initial) in
  let w1 := exec (handleConnectMessage 7 [5; 5]) initial in
  JsMap.keys (streamersRef w2) = [5] ∧
  length (filter (λ j, j = 5) (JsMap.keys (streamersRef w2))) = 1%nat ∧
  peerConnections w2 = [fresh_pc] ∧
  w1 = exec (handleConnectMessage 7 [5]) initial ∧
  length (filter (λ j, j = 5) (JsMap.keys (streamersRef w1))) = 1%nat ∧
  (∃ pc, JsMap.get 5 (streamersRef w1) = Some pc ∧
         peerConnections w1 !! pc = Some fresh_pc) ∧
  length (peerConnections w1) = 1%nat.
Proof.
  cbn zeta.
  destruct (upsert_twice_is_upsert_once initial 5)
    as (_ & _ & _ & Hrep & (Hone & _ & Hfresh & _) & Hroster).
  destruct (Hroster 7 [5; 5]) as (Hone' & Hfresh' & _ & Hsize);
    [apply list_elem_of_here|].
  destruct (Hfresh eq_refl) as (_ & Hstore & _).
  destruct (Hfresh' eq_refl) as (pc & Hget & _ & Hpc).
  split_and!.
  - reflexivity.
  - apply Hone, NoDup_nil_2.
  - exact Hstore.
  - apply (Hrep 7 [5] []), list_elem_of_here.
  - apply Hone', NoDup_nil_2.
  - by exists pc.
  - reflexivity.
Defined.

(** ** A repeated [connect] message *)

(** C10. Every [connect] message stores the id it carries, whatever id
    was stored before, and every entry of the registry keeps its peer
    connection: the same handle, referring to an unchanged object. *)
Theorem connect_overwrites_id_and_keeps_entries (w : World) (n : Z) (roster : list Z) :
  let w' := exec (handleConnectMessage n roster) w in
  id w' = n ∧
  (∀ k pc, JsMap.get k (streamersRef w) = Some pc →
           JsMap.get k (streamersRef w') = Some pc) ∧
  (∀ pc o, peerConnections w !! pc = Some o → peerConnections w' !! pc = Some o).
Proof.
  cbn zeta. split_and!.
  - apply handleConnectMessage_id.
  - intros k pc Hk.
    change (streamersRef (exec (handleConnectMessage n roster) w))
      with (registry_state (exec (handleConnectMessage n roster) w)).1.
    rewrite handleConnectMessage_registry_state. by apply upserts_get_old.
  - intros pc o Hpc.
    change (peerConnections (exec (handleConnectMessage n roster) w))
      with (registry_state (exec (handleConnectMessage n roster) w)).2.
    rewrite handleConnectMessage_registry_state. by apply upserts_store_old.
Qed.

Lemma connect_overwrites_id_and_keeps_entries_witness :
  let w := exec (handleConnectMessage 7 [1; 2]) initial in
  let w' := exec (handleConnectMessage 8 [2; 3]) w in
  id w = 7 ∧ id w' = 8 ∧
  JsMap.get 1 (streamersRef w') = Some 0%nat ∧
  peerConnections w' !! 0%nat = Some fresh_pc.
Proof.
  cbn zeta. split; [reflexivity|].
  pose proof (connect_overwrites_id_and_keeps_entries
                (exec (handleConnectMessage 7 [1; 2]) initial) 8 [2; 3]) as (Hid & Hreg & Hst).
  split; [exact Hid|]. split.
  - apply Hreg. reflexivity.
  - apply Hst. reflexivity.
Defined.

(** ** Removal *)

Lemma handleStreamerDisconnection_calls k pc w :
  JsMap.get k (streamersRef w) = Some pc →
  calls (exec (handleStreamerDisconnection k) w) = calls w ++ [PcClose pc; MapDelete k].
Proof.
  intros H. m_simpl. unfold JsMap.has. m_cases; try congruence.
  rewrite <- app_assoc. simpl. repeat f_equal. congruence.
Qed.

(** C6. In a reachable state, [handleStreamerDisconnection] on an id of
    the registry first closes the peer connection the entry owns and
    then deletes the entry, leaving the other entries and the other peer
    connections alone; on an id that is not in the registry it changes
    nothing. *)
Theorem remove_closes_then_discards (w : World) (k : Z) :
  reachable w →
  let w' := exec (handleStreamerDisconnection k) w in
  (∀ pc, JsMap.get k (streamersRef w) = Some pc →
     calls w' = calls w ++ [PcClose pc; MapDelete k] ∧
     (∃ o, peerConnections w !! pc = Some o ∧
           peerConnections w' !! pc = Some (close_pc o)) ∧
     JsMap.get k (streamersRef w') = None ∧
     (∀ j, j ≠ k → JsMap.get j (streamersRef w') = JsMap.get j (streamersRef w)) ∧
     (∀ i, i ≠ pc → peerConnections w' !! i = peerConnections w !! i)) ∧
  (JsMap.get k (streamersRef w) = None → w' = w).
Proof.
  intros [_ _ [Hnd Hlt]]%reachable_Inv. cbn zeta.
  unfold registry_state in Hnd, Hlt. simpl in Hnd, Hlt. split.
  - intros pc Hk.
    pose proof (handleStreamerDisconnection_registry_state k w) as Hreg.
    unfold remove, registry_state in Hreg. simpl in Hreg. rewrite Hk in Hreg.
    injection Hreg as Hs Hp. rewrite Hs, Hp. split_and!.
    + by apply handleStreamerDisconnection_calls.
    + apply Hlt in Hk. destruct (lookup_lt_is_Some_2 _ _ Hk) as [o Ho].
      exists o. split; [done|]. by rewrite list_lookup_alter_eq, Ho.
    + apply get_None_keys. intros Hin.
      apply (elem_of_keys_delete k k _ Hnd) in Hin as [_ ?]. done.
    + intros j Hj. by apply get_delete_ne.
    + intros i Hi. by apply list_lookup_alter_ne.
  - apply handleStreamerDisconnection_absent.
Qed.

Lemma remove_closes_then_discards_witness :
  reachable world_roster ∧
  JsMap.get 1 (streamersRef world_roster) = Some 0%nat ∧
  calls (exec (handleStreamerDisconnection 1) world_roster)
    = calls world_roster ++ [PcClose 0; MapDelete 1] ∧
  JsMap.get 9 (streamersRef world_roster) = None ∧
  exec (handleStreamerDisconnection 9) world_roster = world_roster.
Proof.
  assert (Hr : reachable world_roster) by (exists session_roster; reflexivity).
  destruct (remove_closes_then_discards world_roster 1 Hr) as [Hpresent _].
  destruct (remove_closes_then_discards world_roster 9 Hr) as [_ Habsent].
  split; [exact Hr|]. split; [reflexivity|]. split; [|split; [reflexivity|]].
  - apply (Hpresent 0%nat). reflexivity.
  - apply Habsent. reflexivity.
Defined.

(** ** Messages from unknown senders *)

(** C4. An [offer] or an [ice-candidate] message whose sender is not in
    the registry only writes log lines: the [offer] two lines on the log
    feed (and the console), the [ice-candidate] one line on the console.
    With the lines the router and [onmessage] write for every message,
    that is the whole effect of the frame; the registry, the peer
    connections, the suspended negotiations, the sockets, the status and
    the history of calls are as before. *)
Theorem unknown_sender_only_logs
    (w : World) (k : Z) (sdp : Sdp) (c : RTCIceCandidateInit) :
  JsMap.has k (streamersRef w) = false →
  exec (handleOffer sdp k) w
    = logged ["Offer received from streamer " +:+ pretty k;
              "Received offer from unknown streamer " +:+ pretty k]
             ["Offer received from streamer " +:+ pretty k;
              "Offer received. Current streamers:";
              "Received offer from unknown streamer " +:+ pretty k] w ∧
  exec (handleIceCandidate c k) w
    = logged [] ["Received ICE candidate for unknown streamer " +:+ pretty k] w ∧
  exec (onmessage (Parsed (OfferMessage sdp k))) w
    = logged ["Offer received from streamer " +:+ pretty k;
              "Received offer from unknown streamer " +:+ pretty k;
              "New message from signaling server"]
             ["Received message:"; "Current streamers:";
              "Offer received from streamer " +:+ pretty k;
              "Offer received. Current streamers:";
              "Received offer from unknown streamer " +:+ pretty k;
              "New message from signaling server"] w ∧
  exec (onmessage (Parsed (CandidateMessage c k))) w
    = logged ["New message from signaling server"]
             ["Received message:"; "Current streamers:";
              "Received ICE candidate for unknown streamer " +:+ pretty k;
              "New message from signaling server"] w.
Proof.
  intros Hk. unfold logged. split_and!.
  all: m_simpl; m_cases; try congruence.
  all: rewrite <- ?app_assoc, ?app_nil_r; reflexivity.
Qed.

Lemma unknown_sender_only_logs_witness :
  JsMap.has 3 (streamersRef world_roster) = false ∧
  logs (exec (onmessage (Parsed (CandidateMessage host_candidate 3))) world_roster)
    = logs world_roster ++ ["New message from signaling server"] ∧
  streamersRef (exec (onmessage (Parsed (OfferMessage "sdp" 3))) world_roster)
    = streamersRef world_roster.
Proof.
  assert (Hk : JsMap.has 3 (streamersRef world_roster) = false) by reflexivity.
  destruct (unknown_sender_only_logs world_roster 3 "sdp" host_candidate Hk)
    as (_ & _ & Hoffer & Hcand).
  split; [exact Hk|]. split.
  - rewrite Hcand. reflexivity.
  - rewrite Hoffer. reflexivity.
Defined.

(** ** The [close] event *)

(** C9. When a socket that is not yet closed fires [close], the status
    becomes [Disconnected] and the channel handle is cleared; the
    registry, every peer connection, the timers, the client id and the
    suspended negotiations are as before.  Besides, one line goes to the
    log and the socket is now closed. *)
Theorem close_event_keeps_registry (w : World) (s : nat) (o : WebSocket) :
  webSockets w !! s = Some o → readyState o ≠ CLOSED →
  ∃ w', step w (SocketClose s) = Some w' ∧
    connectionStatus w' = Disconnected ∧
    webSocketRef w' = None ∧
    streamersRef w' = streamersRef w ∧
    peerConnections w' = peerConnections w ∧
    streamerIds w' = streamerIds w ∧
    id w' = id w ∧
    timers w' = timers w ∧
    suspended w' = suspended w ∧
    videoSrc w' = videoSrc w ∧
    webSockets w' = alter (with_readyState CLOSED) s (webSockets w) ∧
    logs w' = logs w ++ ["Disconnected from signaling server"] ∧
    console w' = console w ++ ["Disconnected from signaling server"] ∧
    calls w' = calls w ++ [SetConnectionStatus Disconnected].
Proof.
  intros Hs Hrs. simpl. rewrite Hs. simpl.
  rewrite bool_decide_eq_false_2 by done.
  eexists. split; [reflexivity|]. repeat split.
Qed.

Lemma close_event_keeps_registry_witness :
  ∃ w', step world_roster (SocketClose 0) = Some w' ∧
        connectionStatus w' = Disconnected ∧
        JsMap.keys (streamersRef w') = [1; 2] ∧
        pc_closed <$> peerConnections w' = [false; false].
Proof.
  destruct (close_event_keeps_registry world_roster 0
              {| readyState := OPEN; ws_sent := []; ws_timeoutId := 0 |})
    as (w' & Hstep & Hc & _ & Hreg & Hpcs & _); [reflexivity | discriminate |].
  exists w'. split; [exact Hstep|]. split; [exact Hc|].
  rewrite Hreg, Hpcs. split; reflexivity.
Defined.

(** ** The connect button *)

Lemma closing_readyState o : readyState (closing o) ∈ [CLOSING; CLOSED].
Proof.
  unfold closing. destruct (readyState o) eqn:E; simpl; rewrite ?E;
    auto using list_elem_of_here, list_elem_of_further.
Qed.

(** C3 (as the code has it). In a reachable state, [handleConnect]
    disconnects when the status is [Connected], and also when the status
    is [Connecting] while a channel handle is stored: it calls [close]
    on the stored socket, then closes every peer connection of the
    registry, then clears the registry; the status becomes
    [Disconnected] and the handle is cleared.  When the status is
    [Connecting] and no handle is stored, it changes nothing. *)
Theorem connect_toggles_or_waits (w : World) (thrown : option string) :
  reachable w →
  let w' := exec (handleConnect thrown) w in
  (connectionStatus w = Connected ∨
   (connectionStatus w = Connecting ∧ webSocketRef w ≠ None) →
   ∃ s, webSocketRef w = Some s ∧
     calls w' = calls w ++ [WsClose s; SetConnectionStatus Disconnected]
                 ++ (PcClose <$> (streamersRef w).*2) ++ [MapClear] ∧
     (∃ o, webSockets w' !! s = Some o ∧ readyState o ∈ [CLOSING; CLOSED]) ∧
     all_closed (streamersRef w) w' ∧
     streamersRef w' = [] ∧
     connectionStatus w' = Disconnected ∧
     webSocketRef w' = None) ∧
  (connectionStatus w = Connecting → webSocketRef w = None → w' = w).
Proof.
  intros [I1 I3 [Hnd Hlt]]%reachable_Inv. cbn zeta.
  unfold registry_state in Hnd, Hlt. simpl in Hnd, Hlt. split.
  - intros Hcase.
    assert (Hd : wants_disconnect w = true).
    { unfold wants_disconnect. destruct Hcase as [->|[-> _]]; reflexivity. }
    assert (Hs : ∃ s, webSocketRef w = Some s).
    { destruct Hcase as [Hc|[_ Hs]]; [by apply I1|].
      destruct (webSocketRef w) as [s|]; [by exists s | done]. }
    destruct Hs as [s Hs]. exists s. split; [done|].
    destruct (handleConnect_disconnect_fields thrown s w Hd Hs)
      as (Hr & Hp & Hc & Hw & Hws & Hca & _).
    split_and!; try done.
    + rewrite Hws. apply I3 in Hs.
      destruct (lookup_lt_is_Some_2 _ _ Hs) as [o Ho].
      exists (closing o). split; [by rewrite list_lookup_alter_eq, Ho|].
      apply closing_readyState.
    + intros k pc Hk. rewrite Hp. apply close_all_closes.
      * apply list_elem_of_fmap. exists (k, pc). split; [done|]. by apply get_elem_of.
      * by eapply Hlt.
  - apply handleConnect_idle.
Qed.

Lemma connect_toggles_or_waits_witness :
  reachable world_roster ∧ connectionStatus world_roster = Connected ∧
  connectionStatus (exec (handleConnect None) world_roster) = Disconnected ∧
  streamersRef (exec (handleConnect None) world_roster) = [].
Proof.
  assert (Hr : reachable world_roster) by (exists session_roster; reflexivity).
  destruct (connect_toggles_or_waits world_roster None Hr) as [Hdisc _].
  destruct Hdisc as (s & _ & _ & _ & _ & Hreg & Hc & _); [by left|].
  split; [exact Hr|]. split; [reflexivity|]. split; [exact Hc | exact Hreg].
Defined.

(** C3, refuted as stated: a reachable state whose status is
    [Connecting] in which [handleConnect] is not a no-op: it closes the
    stored socket and both peer connections and empties the registry. *)
Lemma connect_while_connecting_is_not_a_noop :
  run initial session_stale_channel = Some world_stale_channel ∧
  connectionStatus world_stale_channel = Connecting ∧
  JsMap.keys (streamersRef world_stale_channel) = [1; 2] ∧
  let w' := exec (handleConnect None) world_stale_channel in
  w' ≠ world_stale_channel ∧
  connectionStatus w' = Disconnected ∧
  streamersRef w' = [] ∧
  pc_closed <$> peerConnections w' = [true; true].
Proof.
  split; [reflexivity|]. split; [reflexivity|]. split; [reflexivity|].
  cbn zeta. split; [|by repeat split].
  intros Heq. apply (f_equal connectionStatus) in Heq. discriminate Heq.
Qed.

(** ** Answering an offer *)

Lemma handleOffer_known sdp k pc w :
  JsMap.get k (streamersRef w) = Some pc →
  let w1 := exec (handleOffer sdp k) w in
  calls w1 = calls w ++ [PcAddEventListener pc icecandidate;
                         PcAddEventListener pc connectionstatechange;
                         PcAddEventListener pc track;
                         PcSetRemoteDescription pc sdp] ∧
  suspended w1 = suspended w ++
    [{| a_streamerId := k; a_pc := pc; a_await := AwaitSetRemoteDescription sdp |}] ∧
  peerConnections w1 =
    foldl (λ st l, alter (add_listener l) pc st) (peerConnections w) (offer_listeners k) ∧
  session_view w1 = session_view w ∧
  webSockets w1 = webSockets w ∧
  streamersRef w1 = streamersRef w.
Proof.
  intros Hk. cbn zeta. unfold session_view. m_simpl. unfold JsMap.has. m_cases; try congruence.
  simplify_eq. rewrite <- !app_assoc. repeat split.
Qed.

Lemma resume_lookup j a c u :
  suspended u !! j = Some c →
  suspended (exec (resume j a) u) !! j
    = Some {| a_streamerId := a_streamerId c; a_pc := a_pc c; a_await := a |}.
Proof. intros H. m_simpl. m_simpl in H. by rewrite list_lookup_alter_eq, H. Qed.

(** A rejection while [handleOffer] is suspended runs the [catch]
    clause, which only writes the log, and the call returns. *)
Lemma settle_offer_rejected u j c error :
  suspended u !! j = Some c → awaits_offer_step (a_await c) = true →
  settle j (Rejected error) u
    = Some (logged ["Error processing offer: " +:+ error]
                   ["Error processing offer: " +:+ error; "Error processing offer:"]
                   (exec (resume j Returned) u)).
Proof.
  intros Hj Hc. unfold settle. rewrite Hj. simpl.
  destruct (a_await c); try discriminate Hc; unfold logged; m_simpl;
    by rewrite <- app_assoc.
Qed.

Lemma sendToPeer_channel target data u :
  exec (sendToPeer target data) u =
  match open_channel u with
  | Some s =>
      exec (ws_send s {| out_data := data; out_target := target |};;
            console_log ("Sent to peer " +:+ pretty target +:+ ":"))%M u
  | None => exec (log "Cannot send message: WebSocket not connected") u
  end.
Proof.
  unfold open_channel. m_simpl.
  m_case; cbn [mbind option_bind]; [m_case|]; first [reflexivity | congruence].
Qed.


(** The three resumptions of [handleOffer], one at a time. *)
Lemma settle_remote_fulfilled u j c sdp :
  suspended u !! j = Some c → a_await c = AwaitSetRemoteDescription sdp →
  ∃ u', settle j Fulfilled u = Some u' ∧
    calls u' = calls u ++ [PcCreateAnswer (a_pc c)] ∧
    peerConnections u' = alter (set_remote sdp) (a_pc c) (peerConnections u) ∧
    suspended u' !! j = Some {| a_streamerId := a_streamerId c; a_pc := a_pc c;
                                a_await := AwaitCreateAnswer |} ∧
    webSocketRef u' = webSocketRef u ∧ webSockets u' = webSockets u ∧
    connectionStatus u' = connectionStatus u ∧ streamersRef u' = streamersRef u ∧
    logs u' = logs u.
Proof.
  intros Hj Hc. unfold settle. rewrite Hj. cbn [mbind option_bind]. rewrite Hc.
  eexists. split; [reflexivity|]. m_simpl. m_simpl in Hj.
  rewrite list_lookup_alter_eq, Hj. repeat split.
Qed.

Lemma settle_answer_fulfilled u j c answer :
  suspended u !! j = Some c → a_await c = AwaitCreateAnswer →
  ∃ u', settle j (FulfilledWith answer) u = Some u' ∧
    calls u' = calls u ++ [PcSetLocalDescription (a_pc c) answer] ∧
    peerConnections u' = peerConnections u ∧
    suspended u' !! j = Some {| a_streamerId := a_streamerId c; a_pc := a_pc c;
                                a_await := AwaitSetLocalDescription answer |} ∧
    webSocketRef u' = webSocketRef u ∧ webSockets u' = webSockets u ∧
    connectionStatus u' = connectionStatus u ∧ streamersRef u' = streamersRef u ∧
    logs u' = logs u.
Proof.
  intros Hj Hc. unfold settle. rewrite Hj. cbn [mbind option_bind]. rewrite Hc.
  eexists. split; [reflexivity|]. m_simpl. m_simpl in Hj.
  rewrite list_lookup_alter_eq, Hj. repeat split.
Qed.

Lemma settle_local_fulfilled u j c answer :
  suspended u !! j = Some c → a_await c = AwaitSetLocalDescription answer →
  ∃ u', settle j Fulfilled u = Some u' ∧
    calls u' = calls u ++
      match open_channel u with
      | Some s => [WsSend s {| out_data := DataAnswer answer;
                               out_target := a_streamerId c |}]
      | None => []
      end ∧
    peerConnections u' = alter (set_local answer) (a_pc c) (peerConnections u) ∧
    a_await <$> suspended u' !! j = Some Returned ∧
    webSocketRef u' = webSocketRef u ∧
    connectionStatus u' = connectionStatus u ∧ streamersRef u' = streamersRef u ∧
    logs u' = logs u ++
      match open_channel u with
      | Some s => []
      | None => ["Cannot send message: WebSocket not connected"]
      end.
Proof.
  intros Hj Hc. unfold settle. rewrite Hj. cbn [mbind option_bind]. rewrite Hc.
  eexists. split; [reflexivity|].
  rewrite !exec_bind. cbn [modify fst snd].
  set (u1 := with_peerConnections _ u).
  pose proof (sendToPeer_channel (a_streamerId c) (DataAnswer answer) u1) as Hsend.
  unfold exec in Hsend. rewrite Hsend. clear Hsend.
  replace (open_channel u1) with (open_channel u) by reflexivity.
  subst u1. destruct (open_channel u) as [s|]; m_simpl; m_simpl in Hj;
    rewrite list_lookup_alter_eq, Hj, ?app_nil_r; repeat split.
Qed.

(** C5 (as the code has it). For an [offer] whose sender is in the
    registry, [handleOffer] registers its three listeners and then, each
    step starting when the one before it has succeeded, applies the
    remote description, creates the answer, applies it as local
    description and hands an [answer] for the sender to [sendToPeer],
    which writes it to the stored socket if that socket is open.  When a
    step is rejected, the [catch] clause writes the error to the log and
    the call returns: no answer is sent, and the registry, the status,
    the sockets and every peer connection are as they were just before
    the rejection, so the listeners already registered and a remote
    description already applied stay on the sender's peer connection. *)
Theorem offer_is_answered_step_by_step
    (w : World) (sdp answer : Sdp) (k : Z) (pc : nat) :
  JsMap.get k (streamersRef w) = Some pc →
  let i := length (suspended w) in
  let w1 := exec (handleOffer sdp k) w in
  (∃ w4,
     run w1 [Settles i Fulfilled; Settles i (FulfilledWith answer); Settles i Fulfilled]
       = Some w4 ∧
     calls w4 = calls w ++
       [PcAddEventListener pc icecandidate;
        PcAddEventListener pc connectionstatechange;
        PcAddEventListener pc track;
        PcSetRemoteDescription pc sdp;
        PcCreateAnswer pc;
        PcSetLocalDescription pc answer] ++
       match open_channel w with
       | Some s => [WsSend s {| out_data := DataAnswer answer; out_target := k |}]
       | None => []
       end) ∧
  (∀ u j c error,
     suspended u !! j = Some c → awaits_offer_step (a_await c) = true →
     settle j (Rejected error) u
       = Some (logged ["Error processing offer: " +:+ error]
                      ["Error processing offer: " +:+ error; "Error processing offer:"]
                      (exec (resume j Returned) u))) ∧
  (∀ error, ∃ u,
     run w1 [Settles i (Rejected error)] = Some u ∧
     peerConnections u =
       foldl (λ st l, alter (add_listener l) pc st) (peerConnections w) (offer_listeners k) ∧
     streamersRef u = streamersRef w ∧
     connectionStatus u = connectionStatus w ∧
     webSockets u = webSockets w).
Proof.
  intros Hk. cbn zeta.
  destruct (handleOffer_known sdp k pc w Hk) as (Hca & Hsu & Hpc & Hse & Hws & Hre).
  set (w1 := exec (handleOffer sdp k) w) in *.
  set (i := length (suspended w)).
  assert (H1 : suspended w1 !! i =
    Some {| a_streamerId := k; a_pc := pc; a_await := AwaitSetRemoteDescription sdp |}).
  { rewrite Hsu. apply list_lookup_middle. done. }
  injection Hse as Hst Href _ _.
  split_and!.
  - destruct (settle_remote_fulfilled w1 i _ sdp H1 eq_refl)
      as (w2 & E2 & Hca2 & _ & H2 & Href2 & Hws2 & _).
    destruct (settle_answer_fulfilled w2 i _ answer H2 eq_refl)
      as (w3 & E3 & Hca3 & _ & H3 & Href3 & Hws3 & _).
    destruct (settle_local_fulfilled w3 i _ answer H3 eq_refl)
      as (w4 & E4 & Hca4 & _).
    exists w4. split.
    + simpl. rewrite E2. simpl. rewrite E3. simpl. rewrite E4. done.
    + assert (Hch : open_channel w3 = open_channel w).
      { unfold open_channel. by rewrite Href3, Hws3, Href2, Hws2, Href, Hws. }
      rewrite Hca4, Hca3, Hca2, Hca, Hch. simpl. by rewrite <- !app_assoc.
  - intros u j c error. apply settle_offer_rejected.
  - intros error. eexists. split.
    + simpl. rewrite (settle_offer_rejected w1 i _ error H1 eq_refl). reflexivity.
    + unfold logged. m_simpl. m_simpl in Hpc. m_simpl in Hre. m_simpl in Hst. m_simpl in Hws.
      by rewrite Hpc, Hre, Hst, Hws.
Qed.

Lemma offer_is_answered_step_by_step_witness :
  JsMap.get 1 (streamersRef world_roster) = Some 0%nat ∧
  ∃ w4,
    run (exec (handleOffer "v=0" 1) world_roster)
      [Settles 0 Fulfilled; Settles 0 (FulfilledWith "answer"); Settles 0 Fulfilled]
      = Some w4 ∧
    drop (length (calls world_roster)) (calls w4) =
      [PcAddEventListener 0 icecandidate;
       PcAddEventListener 0 connectionstatechange;
       PcAddEventListener 0 track;
       PcSetRemoteDescription 0 "v=0";
       PcCreateAnswer 0;
       PcSetLocalDescription 0 "answer";
       WsSend 0 {| out_data := DataAnswer "answer"; out_target := 1 |}].
Proof.
  assert (Hk : JsMap.get 1 (streamersRef world_roster) = Some 0%nat) by reflexivity.
  destruct (offer_is_answered_step_by_step world_roster "v=0" "answer" 1 0 Hk)
    as ((w4 & Hrun & Hcalls) & _).
  split; [exact Hk|]. exists w4. split; [exact Hrun|].
  rewrite Hcalls. rewrite drop_app_length. reflexivity.
Defined.

(** C5, refuted as stated: the remote description of an offer from
    streamer 1 is applied and the answer cannot be created.  The failure
    is logged and nothing is sent, but peer connection 0, which streamer
    1 owns, is not in the state it had before the offer: it carries
    three listeners and the remote description. *)
Lemma failed_offer_changes_the_peer_entry :
  run world_roster
    [SocketMessage 0 (Parsed (OfferMessage "v=0" 1));
     Settles 0 Fulfilled; Settles 0 (Rejected "OperationError")]
    = Some world_failed_offer ∧
  JsMap.get 1 (streamersRef world_roster) = Some 0%nat ∧
  JsMap.get 1 (streamersRef world_failed_offer) = Some 0%nat ∧
  peerConnections world_roster !! 0%nat = Some fresh_pc ∧
  peerConnections world_failed_offer !! 0%nat =
    Some {| pc_closed := false;
            pc_listeners := offer_listeners 1;
            pc_eventListeners := None;
            pc_remoteDescription := Some "v=0";
            pc_localDescription := None;
            pc_remoteCandidates := [] |} ∧
  peerConnections world_failed_offer !! 0%nat ≠ peerConnections world_roster !! 0%nat ∧
  last (logs world_failed_offer) = Some "Error processing offer: OperationError".
Proof. by repeat split. Qed.

(** ** Listeners *)

(** C2, evaluated where it fails: the user subscribes to streamer 1,
    the streamer's offer arrives and is answered.  [sendSubscribe] finds no
    [eventListeners] on the peer connection and registers three
    listeners; [handleOffer] registers three more without looking.  Each
    event type now has two listeners on the one peer connection, and a
    single local ICE candidate is sent to the streamer twice. *)
Theorem subscribe_then_offer_registers_twice :
  run initial session_subscribe_offer = Some world_subscribe_offer ∧
  JsMap.get 1 (streamersRef world_subscribe_offer) = Some 0%nat ∧
  listeners_of icecandidate 0 world_subscribe_offer = 2%nat ∧
  listeners_of connectionstatechange 0 world_subscribe_offer = 2%nat ∧
  listeners_of track 0 world_subscribe_offer = 2%nat ∧
  (pc_eventListeners <$> peerConnections world_subscribe_offer !! 0%nat) = Some None ∧
  ∃ w, step world_subscribe_offer (PeerFires 0 (IceCandidateEvent (Some "candidate")))
         = Some w ∧
       (ws_sent <$> webSockets w) !! 0%nat =
         Some [{| out_data := DataSubscribe; out_target := 1 |};
               {| out_data := DataAnswer "answer"; out_target := 1 |};
               {| out_data := DataIceCandidate "candidate"; out_target := 1 |};
               {| out_data := DataIceCandidate "candidate"; out_target := 1 |}].
Proof.
  split_and!; try reflexivity.
  eexists. split; reflexivity.
Qed.

(** ** The connect timeout *)

Lemma status_calls_app h1 h2 : status_calls (h1 ++ h2) = status_calls h1 ++ status_calls h2.
Proof. apply omap_app. Qed.

Lemma sendToPeer_status_calls target data w :
  status_calls (calls (exec (sendToPeer target data) w)) = status_calls (calls w).
Proof. status_calls_done. Qed.

Lemma listener_status_calls l ev w :
  status_calls (calls (exec (listener l ev) w)) = status_calls (calls w).
Proof.
  destruct ev as [[c|]| |]; try reflexivity.
  unfold listener. destruct (l_by l); rewrite exec_bind, sendToPeer_status_calls; reflexivity.
Qed.

Lemma dispatch_status_calls pc ev w :
  status_calls (calls (exec (dispatch pc ev) w)) = status_calls (calls w).
Proof.
  unfold dispatch. rewrite exec_bind. cbn [gets fst snd].
  apply (forEach_view (λ w, status_calls (calls w))). intros. apply listener_status_calls.
Qed.

Lemma selectStreamer_status_calls k w :
  status_calls (calls (exec (selectStreamer k) w)) = status_calls (calls w).
Proof. status_calls_done. Qed.

Lemma settle_status_calls i r w w' :
  settle i r w = Some w' → status_calls (calls w') = status_calls (calls w).
Proof.
  unfold settle. destruct (suspended w !! i) as [c|]; [|done]. cbn [mbind option_bind].
  destruct (a_await c), r; intros [= <-]; try done; status_calls_done.
Qed.

Lemma handleConnectMessage_status_calls n roster w :
  status_calls (calls (exec (handleConnectMessage n roster) w)) = status_calls (calls w).
Proof.
  unfold handleConnectMessage. rewrite !exec_bind.
  change (status_calls (calls (exec (forEach roster handleConnectMessage_each)
                                 (exec (setId n) w))) = status_calls (calls w)).
  rewrite (forEach_view (λ w, status_calls (calls w))).
  - status_calls_done.
  - intros k u. status_calls_done.
Qed.

Lemma handleSignalingMessage_status_calls m w :
  status_calls (calls (exec (handleSignalingMessage m) w)) = status_calls (calls w).
Proof.
  rewrite handleSignalingMessage_unfold. cbn zeta. destruct m.
  - by rewrite handleConnectMessage_status_calls.
  - status_calls_done.
  - status_calls_done.
  - status_calls_done.
  - status_calls_done.
  - done.
Qed.

Lemma onmessage_status_calls data w :
  status_calls (calls (exec (onmessage data) w)) = status_calls (calls w).
Proof.
  destruct data as [e|m]; [done|].
  rewrite onmessage_parsed. apply (handleSignalingMessage_status_calls m w).
Qed.

Lemma quiet_step w e w' :
  quiet e = true → step w e = Some w' →
  session_view w' = session_view w ∧ status_calls (calls w') = status_calls (calls w).
Proof.
  destruct e as [thrown|k|s|s data|s|s err|t|pc ev|i r]; try discriminate; intros _; simpl.
  - destruct (_ && _); [|done]. intros [= <-].
    split; [apply selectStreamer_session | apply selectStreamer_status_calls].
  - destruct (webSockets w !! s) as [o|]; [|done]. simpl.
    destruct (bool_decide _); [|done]. intros [= <-].
    split; [apply onmessage_session | apply onmessage_status_calls].
  - destruct (peerConnections w !! pc) as [o|]; [|done]. simpl.
    destruct (pc_closed o); [done|]. intros [= <-].
    split; [apply dispatch_session | apply dispatch_status_calls].
  - intros Hs. split; [by eapply settle_session | by eapply settle_status_calls].
Qed.

Lemma quiet_run es : ∀ w w',
  forallb quiet es = true → run w es = Some w' →
  session_view w' = session_view w ∧ status_calls (calls w') = status_calls (calls w).
Proof.
  induction es as [|e es IH]; intros w w' Hq; simpl.
  - by intros [= <-].
  - simpl in Hq. apply andb_prop in Hq as [He Hq].
    destruct (step w e) as [w1|] eqn:Hstep; [|done]. simpl. intros Hrun.
    destruct (quiet_step w e w1 He Hstep) as [Hs1 Hc1].
    destruct (IH w1 w' Hq Hrun) as [Hs Hc]. split; congruence.
Qed.

Lemma handleConnect_attempt_fields w :
  wants_disconnect w = false →
  let w0 := exec (handleConnect None) w in
  connectionStatus w0 = Connecting ∧
  timers w0 = timers w ++ [Armed] ∧
  webSockets w0 = webSockets w ++
    [{| readyState := CONNECTING; ws_sent := []; ws_timeoutId := length (timers w) |}] ∧
  calls w0 = calls w ++ [SetConnectionStatus Connecting; SetTimeout (length (timers w));
                         NewWebSocket (length (webSockets w))].
Proof.
  intros Hd. cbn zeta. rewrite (handleConnect_attempt w Hd). m_simpl.
  rewrite <- !app_assoc. repeat split.
Qed.

Lemma error_step u s error u' :
  step u (SocketError s error) = Some u' →
  connectionStatus u' = ConnectionError ∧
  status_calls (calls u') = status_calls (calls u) ++ [ConnectionError].
Proof.
  simpl. destruct (webSockets u !! s) as [o|]; [|done]. simpl.
  destruct (bool_decide _); [done|]. intros [= <-]. split; [reflexivity|].
  unfold status_calls. m_simpl. by rewrite !omap_app, app_nil_r.
Qed.

Lemma late_errors s errors : ∀ u w3,
  connectionStatus u = ConnectionError →
  run u (SocketError s <$> errors) = Some w3 →
  connectionStatus w3 = ConnectionError ∧
  status_calls (calls w3)
    = status_calls (calls u) ++ replicate (length errors) ConnectionError.
Proof.
  induction errors as [|e errors IH]; intros u w3 Hu.
  - intros [= <-]. split; [done | by rewrite app_nil_r].
  - rewrite fmap_cons. cbn [run length replicate].
    destruct (step u (SocketError s e)) as [u1|] eqn:Hstep; [|done].
    cbn [mbind option_bind]. intros Hrun.
    apply error_step in Hstep as [Hc1 Hs1].
    destruct (IH u1 w3 Hc1 Hrun) as [Hc Hs]. split; [done|].
    rewrite Hs, Hs1, <- app_assoc. done.
Qed.

Lemma entries_into_constant cs n : entries_into cs (cs :: replicate n cs) = 0%nat.
Proof.
  induction n as [|n IH]; [done|].
  change (entries_into cs (cs :: replicate (S n) cs))
    with ((if bool_decide (cs ≠ cs ∧ cs = cs) then 1 else 0)
          + entries_into cs (cs :: replicate n cs))%nat.
  rewrite IH, bool_decide_eq_false_2; [done|]. by intros [? _].
Qed.

Lemma entries_into_attempt cs0 n :
  entries_into ConnectionError
    (cs0 :: [Connecting; ConnectionError] ++ replicate n ConnectionError) = 1%nat.
Proof.
  change (entries_into ConnectionError
            (cs0 :: [Connecting; ConnectionError] ++ replicate n ConnectionError))
    with ((if bool_decide (cs0 ≠ ConnectionError ∧ Connecting = ConnectionError)
           then 1 else 0)
          + ((if bool_decide (Connecting ≠ ConnectionError ∧
                              ConnectionError = ConnectionError) then 1 else 0)
             + entries_into ConnectionError
                 (ConnectionError :: replicate n ConnectionError)))%nat.
  rewrite entries_into_constant.
  rewrite bool_decide_eq_false_2 by (by intros [_ ?]).
  by rewrite bool_decide_eq_true_2.
Qed.

(** C8 (as the code has it). Take a connect attempt during whose
    timeout window only quiet events are handled.  When its timer
    fires, the status becomes [ConnectionError]; since the attempt
    began, the status was set to [Connecting] and then to
    [ConnectionError], and the timer cannot fire again.  Error events of
    the attempt's socket that arrive later set [ConnectionError] again
    without changing the value, so the status has moved into
    [ConnectionError] once.  An open event of the attempt's socket that
    arrives later is not ignored: the status becomes [Connected]. *)
Theorem timeout_sets_error_once (w w1 : World) (window : list Event) :
  wants_disconnect w = false →
  forallb quiet window = true →
  run (exec (handleConnect None) w) window = Some w1 →
  let t := length (timers w) in
  let s := length (webSockets w) in
  ∃ w2, step w1 (TimerFires t) = Some w2 ∧
    connectionStatus w2 = ConnectionError ∧
    status_calls (calls w2) = status_calls (calls w) ++ [Connecting; ConnectionError] ∧
    step w2 (TimerFires t) = None ∧
    (∀ errors w3, run w2 (SocketError s <$> errors) = Some w3 →
       connectionStatus w3 = ConnectionError ∧
       status_calls (calls w3) = status_calls (calls w) ++
         [Connecting; ConnectionError] ++ replicate (length errors) ConnectionError ∧
       entries_into ConnectionError
         (connectionStatus w :: [Connecting; ConnectionError] ++
            replicate (length errors) ConnectionError) = 1%nat) ∧
    (∃ w3, step w2 (SocketOpen s) = Some w3 ∧ connectionStatus w3 = Connected).
Proof.
  intros Hd Hq Hrun. cbn zeta.
  destruct (handleConnect_attempt_fields w Hd) as (Hc0 & Ht0 & Hw0 & Hca0).
  destruct (quiet_run window _ w1 Hq Hrun) as [Hsv Hsc].
  unfold session_view in Hsv. injection Hsv as _ _ Hrs Ht1.
  assert (Hsock : ∃ o, webSockets w1 !! length (webSockets w) = Some o ∧
                       readyState o = CONNECTING).
  { apply (f_equal (λ l, l !! length (webSockets w))) in Hrs.
    rewrite Hw0, fmap_app, list_lookup_fmap in Hrs. simpl in Hrs.
    rewrite list_lookup_middle in Hrs by (by rewrite length_fmap).
    destruct (webSockets w1 !! length (webSockets w)) as [o|]; [|done].
    exists o. split; [done|]. by injection Hrs. }
  rewrite Ht0 in Ht1. rewrite Hca0, status_calls_app in Hsc. simpl in Hsc.
  assert (Harmed : timers w1 !! length (timers w) = Some Armed).
  { rewrite Ht1. by apply list_lookup_middle. }
  eexists. split; [|split_and!].
  - simpl. rewrite Harmed. simpl. reflexivity.
  - reflexivity.
  - unfold status_calls in *. m_simpl. m_simpl in Hsc.
    rewrite !omap_app, Hsc, <- !app_assoc. reflexivity.
  - simpl. m_simpl. m_simpl in Ht1. rewrite Ht1.
    rewrite list_lookup_insert_eq by (rewrite length_app; simpl; lia). reflexivity.
  - intros errors w3 Herr.
    apply late_errors in Herr as [Hc3 Hs3]; [|reflexivity].
    split; [done|]. split.
    + rewrite Hs3. unfold status_calls in *. m_simpl. m_simpl in Hsc.
      rewrite !omap_app, Hsc, <- !app_assoc. reflexivity.
    + apply entries_into_attempt.
  - destruct Hsock as (o & Ho & Hready).
    assert (Ho' : webSockets (exec onTimeout
                    (with_timers (<[length (timers w) := Fired]>) w1))
                  !! length (webSockets w) = Some o) by exact Ho.
    unfold step. rewrite Ho'. cbn [mbind option_bind].
    rewrite bool_decide_eq_true_2 by done. eexists. split; reflexivity.
Qed.

Lemma timeout_sets_error_once_witness :
  wants_disconnect initial = false ∧
  ∃ w2, step (exec (handleConnect None) initial) (TimerFires 0) = Some w2 ∧
        status_calls (calls w2) = [Connecting; ConnectionError] ∧
        step w2 (TimerFires 0) = None.
Proof.
  assert (Hd : wants_disconnect initial = false) by reflexivity.
  destruct (timeout_sets_error_once initial (exec (handleConnect None) initial) [] Hd)
    as (w2 & Hstep & _ & Hcalls & Hagain & _); [reflexivity | reflexivity |].
  split; [exact Hd|]. exists w2. split; [exact Hstep|]. split; [exact Hcalls | exact Hagain].
Defined.

(** C8, refuted as stated: the timer of the only attempt fires, then
    the socket opens, then it fails.  The status moves into
    [ConnectionError] twice. *)
Lemma late_open_then_error_enters_error_twice :
  run initial session_late_open = Some world_late_open ∧
  status_calls (calls world_late_open)
    = [Connecting; ConnectionError; Connected; ConnectionError] ∧
  entries_into ConnectionError
    (connectionStatus initial :: status_calls (calls world_late_open)) = 2%nat.
Proof. by repeat split. Qed.

(** * Further properties of the component *)

(** ** Labels, sending and frames that carry nothing *)

(** X1. Distinct statuses are shown with distinct labels, and the label
    of a status is never the fallback ["not known"]. *)
Theorem status_labels_are_distinct (a b : ConnectionStatus) :
  a ≠ b →
  ConnectionStatusToStr a ≠ ConnectionStatusToStr b ∧
  ConnectionStatusToStr a ≠ "not known".
Proof. destruct a, b; intros Hne; split; first [done | discriminate]. Qed.

Lemma status_labels_are_distinct_witness :
  Connecting ≠ Connected ∧
  ConnectionStatusToStr Connecting ≠ ConnectionStatusToStr Connected.
Proof.
  assert (Hne : Connecting ≠ Connected) by discriminate.
  split; [exact Hne|]. apply (status_labels_are_distinct Connecting Connected Hne).
Defined.

Lemma sent_view_alter m s (l : list WebSocket) :
  ws_sent <$> alter (sent m) s l = alter (λ q, q ++ [m]) s (ws_sent <$> l).
Proof.
  apply list_eq. intros i. rewrite list_lookup_fmap.
  destruct (decide (s = i)) as [->|Hne].
  - rewrite !list_lookup_alter_eq, list_lookup_fmap. by destruct (l !! i).
  - by rewrite !list_lookup_alter_ne, list_lookup_fmap.
Qed.

Lemma sendToPeer_cases
    (target : Z) (data : PeerData) (w : World) :
  let w' := exec (sendToPeer target data) w in
  match open_channel w with
  | Some s =>
      sent_view w' = alter (λ q, q ++ [{| out_data := data; out_target := target |}])
                       s (sent_view w) ∧
      calls w' = calls w ++ [WsSend s {| out_data := data; out_target := target |}] ∧
      logs w' = logs w
  | None =>
      sent_view w' = sent_view w ∧
      calls w' = calls w ∧
      logs w' = logs w ++ ["Cannot send message: WebSocket not connected"]
  end ∧
  session_view w' = session_view w ∧
  registry_state w' = registry_state w.
Proof.
  cbn zeta. split; [|split].
  - rewrite sendToPeer_channel. unfold sent_view.
    destruct (open_channel w) as [s|]; m_simpl; rewrite ?sent_view_alter; done.
  - apply sendToPeer_session.
  - unfold registry_state. m_simpl. m_cases; reflexivity.
Qed.

(** X2. [sendToPeer] writes one message, carrying the given target, on
    the stored socket when that socket is open, and then logs nothing on
    the feed; in every other case it writes on no socket and logs that
    it cannot send.  It never writes on another socket, and it leaves
    the session and the registry alone. *)
Theorem sendToPeer_writes_on_the_open_channel_only
    (target : Z) (data : PeerData) (w : World) :
  let w' := exec (sendToPeer target data) w in
  match open_channel w with
  | Some s =>
      sent_view w' = alter (λ q, q ++ [{| out_data := data; out_target := target |}])
                       s (sent_view w) ∧
      calls w' = calls w ++ [WsSend s {| out_data := data; out_target := target |}] ∧
      logs w' = logs w
  | None =>
      sent_view w' = sent_view w ∧
      calls w' = calls w ∧
      logs w' = logs w ++ ["Cannot send message: WebSocket not connected"]
  end ∧
  session_view w' = session_view w ∧
  registry_state w' = registry_state w.
Proof. apply sendToPeer_cases. Qed.

(** X3. A frame that is not JSON, and a message of a type the router
    does not know, only write log lines: everything else in the state is
    as before. *)
Theorem unreadable_frames_only_log (w : World) (error type : string) :
  exec (onmessage (Malformed error)) w
    = logged ["Error parsing message: " +:+ error]
             ["Error parsing message: " +:+ error] w ∧
  exec (onmessage (Parsed (UnknownMessage type))) w
    = logged ["New message from signaling server"]
             ["Received message:"; "Current streamers:";
              "Unknown message type: " +:+ type;
              "New message from signaling server"] w.
Proof.
  unfold logged. split; m_simpl; rewrite <- ?app_assoc; reflexivity.
Qed.

(** X4. Subscribing to an id that is not in the registry, directly or
    through the menu, sends nothing and registers nothing: it only
    writes log lines. *)
Theorem subscribe_to_unknown_streamer_only_logs (w : World) (k : Z) :
  JsMap.has k (streamersRef w) = false →
  exec (sendSubscribe k) w
    = logged ["Streamer " +:+ pretty k +:+ " not found"]
             ["Streamer " +:+ pretty k +:+ " not found"] w ∧
  exec (selectStreamer k) w
    = logged ["Selected streamer " +:+ pretty k;
              "Streamer " +:+ pretty k +:+ " not found"]
             ["Selected streamer " +:+ pretty k;
              "Streamer " +:+ pretty k +:+ " not found"] w.
Proof.
  intros Hk. unfold logged. split; m_simpl; m_cases; try congruence;
    rewrite <- ?app_assoc; reflexivity.
Qed.

Lemma subscribe_to_unknown_streamer_only_logs_witness :
  JsMap.has 9 (streamersRef world_roster) = false ∧
  sent_view (exec (sendSubscribe 9) world_roster) = sent_view world_roster ∧
  peerConnections (exec (sendSubscribe 9) world_roster) = peerConnections world_roster.
Proof.
  assert (Hk : JsMap.has 9 (streamersRef world_roster) = false) by reflexivity.
  destruct (subscribe_to_unknown_streamer_only_logs world_roster 9 Hk) as [Hsub _].
  split; [exact Hk|]. rewrite Hsub. split; reflexivity.
Defined.

(** ** Candidates and a failing constructor *)

Lemma new_RTCIceCandidate_both_null c :
  sdpMid c = None → sdpMLineIndex c = None →
  new_RTCIceCandidate c = inl TypeError_both_null.
Proof. unfold new_RTCIceCandidate. by intros -> ->. Qed.

Lemma new_RTCIceCandidate_built c :
  is_Some (sdpMid c) ∨ is_Some (sdpMLineIndex c) → new_RTCIceCandidate c = inr c.
Proof.
  unfold new_RTCIceCandidate. intros [[m ->]|[i ->]]; [done|].
  by destruct (sdpMid c).
Qed.

Lemma handleIceCandidate_known c k pc w :
  JsMap.get k (streamersRef w) = Some pc →
  new_RTCIceCandidate c = inr c →
  exec (handleIceCandidate c k) w
    = with_suspended (λ l, l ++ [{| a_streamerId := k; a_pc := pc;
                                    a_await := AwaitAddIceCandidate c |}])
        (record_call (PcAddIceCandidate pc c) w).
Proof.
  intros Hk Hc. m_simpl. unfold JsMap.has. m_cases; try congruence.
  all: simplify_eq; reflexivity.
Qed.

Lemma handleIceCandidate_thrown c k pc error w :
  JsMap.get k (streamersRef w) = Some pc →
  new_RTCIceCandidate c = inl error →
  exec (handleIceCandidate c k) w
    = logged ["Error adding ICE candidate: " +:+ error]
             ["Error adding ICE candidate: " +:+ error;
              "Error adding ICE candidate:"] w.
Proof.
  intros Hk Hc. unfold logged. m_simpl. unfold JsMap.has. m_cases; try congruence.
  all: simplify_eq; rewrite <- ?app_assoc; reflexivity.
Qed.

(** X5. An [ice-candidate] message from a streamer of the registry.
    When the candidate names a media section ([sdpMid] or
    [sdpMLineIndex] is present) it is handed to [addIceCandidate] of the
    peer connection that streamer owns, and nothing is logged; when the
    browser accepts it, only that peer connection changes; when it
    rejects it, one error line is logged and the peer connections, the
    registry, the status and the sockets are as before.  When [sdpMid]
    and [sdpMLineIndex] are both null, [new RTCIceCandidate] throws
    inside the [try]: the error is logged at once, [addIceCandidate] is
    not called, nothing is awaited and nothing else changes. *)
Theorem candidate_of_known_streamer
    (w : World) (c : RTCIceCandidateInit) (k : Z) (pc : nat) :
  JsMap.get k (streamersRef w) = Some pc →
  let i := length (suspended w) in
  let w1 := exec (handleIceCandidate c k) w in
  (is_Some (sdpMid c) ∨ is_Some (sdpMLineIndex c) →
   calls w1 = calls w ++ [PcAddIceCandidate pc c] ∧
   logs w1 = logs w ∧
   peerConnections w1 = peerConnections w ∧
   (∃ w2, step w1 (Settles i Fulfilled) = Some w2 ∧
      peerConnections w2 = alter (add_candidate c) pc (peerConnections w) ∧
      logs w2 = logs w ∧ calls w2 = calls w1 ∧
      session_view w2 = session_view w ∧ sent_view w2 = sent_view w ∧
      streamersRef w2 = streamersRef w) ∧
   (∀ error, ∃ w2, step w1 (Settles i (Rejected error)) = Some w2 ∧
      peerConnections w2 = peerConnections w ∧
      logs w2 = logs w ++ ["Error adding ICE candidate: " +:+ error] ∧
      calls w2 = calls w1 ∧
      session_view w2 = session_view w ∧ sent_view w2 = sent_view w ∧
      streamersRef w2 = streamersRef w)) ∧
  (sdpMid c = None → sdpMLineIndex c = None →
   w1 = logged ["Error adding ICE candidate: " +:+ TypeError_both_null]
               ["Error adding ICE candidate: " +:+ TypeError_both_null;
                "Error adding ICE candidate:"] w ∧
   calls w1 = calls w ∧
   ∀ r, step w1 (Settles i r) = None).
Proof.
  intros Hk. cbn zeta. split.
  - intros Hc%new_RTCIceCandidate_built.
    rewrite (handleIceCandidate_known c k pc w Hk Hc).
    set (task := {| a_streamerId := k; a_pc := pc; a_await := AwaitAddIceCandidate c |}).
    set (w1 := with_suspended _ _).
    assert (H1 : suspended w1 !! length (suspended w) = Some task).
    { apply (list_lookup_middle (suspended w) [] task). done. }
    split_and!; try reflexivity.
    + eexists. split.
      * cbn [step]. unfold settle. rewrite H1. reflexivity.
      * repeat split.
    + intros error. eexists. split.
      * cbn [step]. unfold settle. rewrite H1. reflexivity.
      * repeat split.
  - intros Hmid Hidx.
    rewrite (handleIceCandidate_thrown c k pc _ w Hk
               (new_RTCIceCandidate_both_null c Hmid Hidx)).
    split_and!; try reflexivity.
    intros r. cbn [step]. unfold settle.
    set (w1 := logged _ _ w).
    assert (H1 : suspended w1 !! length (suspended w) = None).
    { apply lookup_ge_None_2. reflexivity. }
    rewrite H1. reflexivity.
Qed.

Lemma candidate_of_known_streamer_witness :
  JsMap.get 2 (streamersRef world_roster) = Some 1%nat ∧
  (∃ w2, step (exec (handleIceCandidate host_candidate 2) world_roster) (Settles 0 Fulfilled)
           = Some w2 ∧
         (pc_remoteCandidates <$> peerConnections w2) = [[]; [host_candidate]]) ∧
  calls (exec (handleIceCandidate bare_candidate 2) world_roster) = calls world_roster.
Proof.
  assert (Hk : JsMap.get 2 (streamersRef world_roster) = Some 1%nat) by reflexivity.
  destruct (candidate_of_known_streamer world_roster host_candidate 2 1 Hk) as [Hbuilt _].
  destruct (candidate_of_known_streamer world_roster bare_candidate 2 1 Hk) as [_ Hthrown].
  destruct Hbuilt as (_ & _ & _ & (w2 & Hstep & Hpcs & _) & _).
  { left. by eexists. }
  destruct Hthrown as (_ & Hcalls & _); [reflexivity | reflexivity |].
  split; [exact Hk|]. split; [|exact Hcalls].
  exists w2. split; [exact Hstep|]. rewrite Hpcs. reflexivity.
Defined.

(** X6. When [new WebSocket] throws, the attempt ends at once: the
    status is set to [Connecting] and then to [ConnectionError], the
    error is logged, no socket is created, the stored handle and the
    registry are untouched, and the timer of the attempt is cleared, so
    that it cannot fire later. *)
Theorem failed_constructor_ends_the_attempt (w : World) (error : string) :
  wants_disconnect w = false →
  let t := length (timers w) in
  let w' := exec (handleConnect (Some error)) w in
  connectionStatus w' = ConnectionError ∧
  status_calls (calls w') = status_calls (calls w) ++ [Connecting; ConnectionError] ∧
  logs w' = logs w ++ ["Error creating WebSocket: " +:+ error] ∧
  webSockets w' = webSockets w ∧
  webSocketRef w' = webSocketRef w ∧
  registry_state w' = registry_state w ∧
  timers w' = timers w ++ [Cleared] ∧
  step w' (TimerFires t) = None.
Proof.
  intros Hd. cbn zeta. unfold wants_disconnect in Hd.
  assert (Ht : alter clear_timer (length (timers w)) (timers w ++ [Armed])
               = timers w ++ [Cleared]).
  { apply list_eq. intros i. destruct (decide (length (timers w) = i)) as [<-|Hne].
    - rewrite list_lookup_alter_eq, !list_lookup_middle by done. done.
    - rewrite list_lookup_alter_ne by done.
      destruct (decide (i < length (timers w))%nat).
      + by rewrite !lookup_app_l.
      + rewrite !lookup_ge_None_2; [done|rewrite length_app; simpl; lia..]. }
  assert (Hw' : exec (handleConnect (Some error)) w =
    exec (setConnectionStatus Connecting;; timeoutId ← setTimeout;
          clearTimeout timeoutId;; log ("Error creating WebSocket: " +:+ error);;
          setConnectionStatus ConnectionError)%M w).
  { m_simpl. m_simpl in Hd. rewrite Hd. apply orb_false_elim in Hd as [_ ->].
    destruct (webSocketRef w); reflexivity. }
  rewrite Hw'. clear Hw'. unfold status_calls, registry_state.
  split_and!; try reflexivity.
  - m_simpl. rewrite !omap_app. simpl. rewrite !app_nil_r, <- app_assoc. reflexivity.
  - exact Ht.
  - cbn [step]. m_simpl. m_simpl in Ht.
    rewrite Ht, list_lookup_middle by done. reflexivity.
Qed.

Lemma failed_constructor_ends_the_attempt_witness :
  wants_disconnect initial = false ∧
  connectionStatus (exec (handleConnect (Some "SyntaxError")) initial) = ConnectionError ∧
  step (exec (handleConnect (Some "SyntaxError")) initial) (TimerFires 0) = None.
Proof.
  assert (Hd : wants_disconnect initial = false) by reflexivity.
  destruct (failed_constructor_ends_the_attempt initial "SyntaxError" Hd)
    as (Hc & _ & _ & _ & _ & _ & _ & Hfire).
  split; [exact Hd|]. split; [exact Hc | exact Hfire].
Defined.

(** ** Induction over the reachable states *)

Lemma run_snoc es e : ∀ w w',
  run w (es ++ [e]) = Some w' ↔ ∃ w0, run w es = Some w0 ∧ step w0 e = Some w'.
Proof.
  induction es as [|e0 es IH]; intros w w'; simpl.
  - split.
    + destruct (step w e) as [w1|] eqn:E; simpl; [|done]. intros [= <-]. by exists w.
    + intros (w0 & [= <-] & ->). done.
  - destruct (step w e0) as [w1|]; simpl; [apply IH|].
    split; [done | by intros (w0 & ? & _)].
Qed.

Lemma reachable_step w e w' : reachable w → step w e = Some w' → reachable w'.
Proof.
  intros [es Hes] Hstep. exists (es ++ [e]). apply run_snoc. by exists w.
Qed.

Lemma reachable_run es : ∀ w w', reachable w → run w es = Some w' → reachable w'.
Proof.
  induction es as [|e es IH]; intros w w' Hr; simpl.
  - by intros [= <-].
  - destruct (step w e) as [w1|] eqn:Hstep; [|done]. simpl.
    apply IH. by eapply reachable_step.
Qed.

Lemma reachable_induction (P : World → Prop) :
  P initial →
  (∀ w e w', reachable w → P w → step w e = Some w' → P w') →
  ∀ w, reachable w → P w.
Proof.
  intros H0 Hstep w [es Hes]. revert w Hes.
  induction es as [|e es IH] using rev_ind; intros w.
  - by intros [= <-].
  - intros (w0 & Hes & He)%run_snoc. eapply Hstep; [by exists es | by apply IH | done].
Qed.

(** ** The store of peer connections only grows *)

Lemma store_evolves_trans l1 l2 l3 :
  store_evolves l1 l2 → store_evolves l2 l3 → store_evolves l1 l3.
Proof.
  intros H12 H23. induction H23; [done | by apply evolves_alter | by apply evolves_new].
Qed.

Lemma store_evolves_close_all ids l0 : ∀ l,
  store_evolves l0 l → store_evolves l0 (close_all ids l).
Proof.
  induction ids as [|pc ids IH]; intros l Hl; [done|].
  simpl. apply IH. apply evolves_alter; [done | constructor].
Qed.

Lemma store_evolves_upsert k (r : Registry) l0 :
  store_evolves l0 r.2 → store_evolves l0 (upsert k r).2.
Proof.
  intros H. unfold upsert. destruct (JsMap.has k r.1); [done|]. simpl.
  by apply evolves_new.
Qed.

Lemma store_evolves_upserts roster l0 : ∀ (r : Registry),
  store_evolves l0 r.2 → store_evolves l0 (upserts roster r).2.
Proof.
  induction roster as [|k roster IH]; intros r Hr; [done|].
  rewrite upserts_cons. by apply IH, store_evolves_upsert.
Qed.

Lemma store_evolves_remove k (r : Registry) l0 :
  store_evolves l0 r.2 → store_evolves l0 (remove k r).2.
Proof.
  intros H. unfold remove. destruct (JsMap.get k r.1); [|done]. simpl.
  apply evolves_alter; [done | constructor].
Qed.

Lemma sendToPeer_store target data w :
  peerConnections (exec (sendToPeer target data) w) = peerConnections w.
Proof. m_simpl. m_cases; reflexivity. Qed.

Lemma listener_store l ev w :
  peerConnections (exec (listener l ev) w) = peerConnections w.
Proof.
  destruct ev as [[c|]| |]; try reflexivity.
  unfold listener. destruct (l_by l); rewrite exec_bind, sendToPeer_store; reflexivity.
Qed.

Lemma dispatch_store pc ev w :
  peerConnections (exec (dispatch pc ev) w) = peerConnections w.
Proof.
  unfold dispatch. rewrite exec_bind. cbn [gets fst snd].
  apply (forEach_view peerConnections). intros. apply listener_store.
Qed.

Lemma selectStreamer_store k w :
  store_evolves (peerConnections w) (peerConnections (exec (selectStreamer k) w)).
Proof. m_simpl. m_cases; store_evolves_done. Qed.

Lemma settle_store i r w w' :
  settle i r w = Some w' → store_evolves (peerConnections w) (peerConnections w').
Proof.
  unfold settle. destruct (suspended w !! i) as [c|]; [|done]. cbn [mbind option_bind].
  destruct (a_await c), r; intros [= <-]; try done;
    m_simpl; m_cases; store_evolves_done.
Qed.

Lemma handleSignalingMessage_store m w :
  store_evolves (peerConnections w) (peerConnections (exec (handleSignalingMessage m) w)).
Proof.
  rewrite handleSignalingMessage_unfold. cbn zeta.
  destruct m as [n roster|k|k|sdp k|c k|type].
  - change (peerConnections (exec (handleConnectMessage n roster) ?u))
      with (registry_state (exec (handleConnectMessage n roster) u)).2.
    rewrite handleConnectMessage_registry_state. apply store_evolves_upserts. constructor.
  - change (peerConnections (exec (handleStreamerDisconnection k) ?u))
      with (registry_state (exec (handleStreamerDisconnection k) u)).2.
    rewrite handleStreamerDisconnection_registry_state. apply store_evolves_remove. constructor.
  - change (peerConnections (exec (handleNewStreamer k) ?u))
      with (registry_state (exec (handleNewStreamer k) u)).2.
    rewrite handleNewStreamer_registry_state. apply store_evolves_upsert. constructor.
  - m_simpl. m_cases; store_evolves_done.
  - m_simpl. m_cases; store_evolves_done.
  - constructor.
Qed.

Lemma handleConnect_store thrown w :
  store_evolves (peerConnections w) (peerConnections (exec (handleConnect thrown) w)).
Proof.
  destruct (wants_disconnect w) eqn:Hd; [destruct (webSocketRef w) as [s|] eqn:Hs|].
  - destruct (handleConnect_disconnect_fields thrown s w Hd Hs) as (_ & -> & _).
    apply store_evolves_close_all. constructor.
  - destruct (handleConnect_other thrown w (or_intror Hs)) as ([= _ ->] & _). constructor.
  - destruct (handleConnect_other thrown w (or_introl Hd)) as ([= _ ->] & _). constructor.
Qed.

Lemma step_store_evolves w e w' :
  step w e = Some w' → store_evolves (peerConnections w) (peerConnections w').
Proof.
  destruct e as [thrown|k|s|s data|s|s err|t|pc ev|i r]; simpl.
  - intros [= <-]. apply handleConnect_store.
  - destruct (_ && _); [|done]. intros [= <-]. apply selectStreamer_store.
  - destruct (webSockets w !! s) as [o|]; [|done]. simpl.
    destruct (bool_decide _); [|done]. intros [= <-]. constructor.
  - destruct (webSockets w !! s) as [o|]; [|done]. simpl.
    destruct (bool_decide _); [|done]. intros [= <-].
    destruct data as [e|m]; [constructor|].
    rewrite onmessage_parsed. apply (handleSignalingMessage_store m w).
  - destruct (webSockets w !! s) as [o|]; [|done]. simpl.
    destruct (bool_decide _); [done|]. intros [= <-]. constructor.
  - destruct (webSockets w !! s) as [o|]; [|done]. simpl.
    destruct (bool_decide _); [done|]. intros [= <-]. constructor.
  - destruct (timers w !! t) as [st|]; [|done]. simpl.
    destruct (bool_decide _); [|done]. intros [= <-]. constructor.
  - destruct (peerConnections w !! pc) as [o|]; [|done]. simpl.
    destruct (pc_closed o); [done|]. intros [= <-]. rewrite dispatch_store. constructor.
  - apply settle_store.
Qed.

Lemma run_store_evolves es : ∀ w w',
  run w es = Some w' → store_evolves (peerConnections w) (peerConnections w').
Proof.
  induction es as [|e es IH]; intros w w'; simpl.
  - intros [= <-]. constructor.
  - destruct (step w e) as [w1|] eqn:Hstep; [|done]. simpl. intros Hrun.
    eapply store_evolves_trans; [by eapply step_store_evolves | by apply IH].
Qed.

Lemma pc_op_grows f o : pc_op f → pc_grows o (f o).
Proof.
  intros []; unfold pc_grows; simpl; split_and!; try done;
    by apply prefix_app_r.
Qed.

Lemma pc_grows_trans o1 o2 o3 : pc_grows o1 o2 → pc_grows o2 o3 → pc_grows o1 o3.
Proof.
  intros (Hc1 & Hl1 & Hr1 & He1) (Hc2 & Hl2 & Hr2 & He2). split_and!.
  - auto.
  - by etrans.
  - by etrans.
  - congruence.
Qed.

Lemma store_evolves_grows l l' : store_evolves l l' → store_grows l l'.
Proof.
  induction 1 as [|l' f i Hev IH Hop|l' Hev IH]; intros j o Hj.
  - exists o. split; [done|]. by split_and!.
  - destruct (IH j o Hj) as (o' & Hj' & Hg).
    destruct (decide (i = j)) as [->|Hne].
    + exists (f o'). split; [by rewrite list_lookup_alter_eq, Hj'|].
      eapply pc_grows_trans; [done | by apply pc_op_grows].
    + exists o'. split; [by rewrite list_lookup_alter_ne | done].
  - destruct (IH j o Hj) as (o' & Hj' & Hg).
    exists o'. split; [by apply lookup_app_l_Some | done].
Qed.

Lemma store_evolves_no_eventListeners l l' :
  store_evolves l l' →
  (∀ i o, l !! i = Some o → pc_eventListeners o = None) →
  ∀ i o, l' !! i = Some o → pc_eventListeners o = None.
Proof.
  induction 1 as [|l' f i Hev IH Hop|l' Hev IH]; intros Hl j o Hj; [by eauto|..].
  - destruct (decide (i = j)) as [->|Hne].
    + rewrite list_lookup_alter_eq in Hj. destruct (l' !! j) as [o'|] eqn:E; [|done].
      injection Hj as <-. destruct (pc_op_grows f o' Hop) as (_ & _ & _ & ->). by eapply IH.
    + rewrite list_lookup_alter_ne in Hj by done. by eapply IH.
  - apply lookup_app_Some in Hj as [Hj|[_ Hj]]; [by eapply IH|].
    apply list_lookup_singleton_Some in Hj as [_ <-]. done.
Qed.

(** X7. Once created, a peer connection stays in the store at the same
    handle through every run of events; it is never reopened after a
    close, it never loses a listener or a remote candidate, and nothing
    ever gives it an [eventListeners] property. *)
Theorem peer_connections_only_grow (w w' : World) (es : list Event) :
  run w es = Some w' → store_grows (peerConnections w) (peerConnections w').
Proof. intros Hrun. by eapply store_evolves_grows, run_store_evolves. Qed.

Lemma peer_connections_only_grow_witness :
  run world_roster [SocketMessage 0 (Parsed (DisconnectedMessage 1));
                    SocketMessage 0 (Parsed (NewStreamerMessage 1))]
    = Some (exec (deliver [DisconnectedMessage 1; NewStreamerMessage 1]) world_roster) ∧
  ∃ o', peerConnections (exec (deliver [DisconnectedMessage 1; NewStreamerMessage 1])
                           world_roster) !! 0%nat = Some o' ∧
        pc_grows fresh_pc o'.
Proof.
  assert (Hrun : run world_roster [SocketMessage 0 (Parsed (DisconnectedMessage 1));
                                   SocketMessage 0 (Parsed (NewStreamerMessage 1))]
    = Some (exec (deliver [DisconnectedMessage 1; NewStreamerMessage 1]) world_roster))
    by reflexivity.
  split; [exact Hrun|].
  apply (peer_connections_only_grow _ _ _ Hrun 0%nat fresh_pc). reflexivity.
Defined.

Lemma reachable_no_eventListeners w : reachable w → no_eventListeners w.
Proof.
  intros [es Hes]. unfold no_eventListeners.
  apply (store_evolves_no_eventListeners (peerConnections initial)).
  - by eapply run_store_evolves.
  - intros i o Hi. change (peerConnections initial) with (@nil RTCPeerConnection) in Hi.
    by rewrite lookup_nil in Hi.
Qed.

Lemma listeners_of_add ty l pc w store :
  peerConnections w = alter (add_listener l) pc store →
  (pc < length store)%nat →
  ∀ u, peerConnections u = store →
  listeners_of ty pc w = (listeners_of ty pc u + if decide (l_type l = ty) then 1 else 0)%nat.
Proof.
  intros Hw Hlt u Hu. unfold listeners_of. rewrite Hw, Hu, list_lookup_alter_eq.
  destruct (lookup_lt_is_Some_2 _ _ Hlt) as [o ->]. simpl.
  rewrite filter_app, length_app. f_equal.
  rewrite filter_cons, filter_nil. by destruct (decide (l_type l = ty)).
Qed.

(** ** Listeners are never guarded *)

Lemma sendSubscribe_store k pc o w :
  JsMap.get k (streamersRef w) = Some pc →
  peerConnections w !! pc = Some o → pc_eventListeners o = None →
  peerConnections (exec (sendSubscribe k) w)
    = foldl (λ st l, alter (add_listener l) pc st) (peerConnections w) (subscribe_listeners k).
Proof.
  intros Hk Ho He. m_simpl. unfold JsMap.has. m_simpl in Hk. m_simpl in Ho.
  rewrite !Hk. m_simpl. rewrite !Ho. cbn [mbind option_bind]. rewrite He.
  cbn [default no_flags f_icecandidate f_connectionstatechange f_track]. m_simpl.
  m_cases; reflexivity.
Qed.

Lemma listeners_of_three ty pc o (store : list RTCPeerConnection) (ls : list Listener) u w :
  store !! pc = Some o → peerConnections u = store →
  peerConnections w = foldl (λ st l, alter (add_listener l) pc st) store ls →
  listeners_of ty pc w
    = (listeners_of ty pc u + length (filter (λ l, l_type l = ty) ls))%nat.
Proof.
  intros Ho Hu Hw. unfold listeners_of. rewrite Hw, Hu, Ho. clear Hw Hu.
  revert store o Ho. induction ls as [|l ls IH]; intros store o Ho.
  - simpl. rewrite Ho. simpl. lia.
  - simpl foldl. erewrite (IH _ (add_listener l o)); [|by rewrite list_lookup_alter_eq, Ho].
    simpl. rewrite filter_app, length_app, !filter_cons, filter_nil.
    destruct (decide (l_type l = ty)); simpl; lia.
Qed.

(** X8. In every reachable state, subscribing to a streamer of the
    registry registers one more listener of each of the three types on
    the peer connection that streamer owns, whatever is registered
    already, and so does every offer of that streamer: the guards of
    [sendSubscribe] never find a flag. *)
Theorem every_subscribe_and_every_offer_add_listeners
    (w : World) (k : Z) (pc : nat) (sdp : Sdp) (ty : EventType) :
  reachable w →
  JsMap.get k (streamersRef w) = Some pc →
  listeners_of ty pc (exec (sendSubscribe k) w) = S (listeners_of ty pc w) ∧
  listeners_of ty pc (exec (handleOffer sdp k) w) = S (listeners_of ty pc w).
Proof.
  intros Hr Hk.
  pose proof (reachable_no_eventListeners w Hr) as Hnone.
  destruct (reachable_Inv w Hr) as [_ _ [_ Hlt]].
  unfold registry_state in Hlt. simpl in Hlt. apply Hlt in Hk as Hpc.
  destruct (lookup_lt_is_Some_2 _ _ Hpc) as [o Ho].
  split.
  - rewrite (listeners_of_three ty pc o (peerConnections w) (subscribe_listeners k) w);
      [| done | done | by apply (sendSubscribe_store k pc o w), (Hnone pc o)].
    destruct ty; simpl; lia.
  - destruct (handleOffer_known sdp k pc w Hk) as (_ & _ & Hst & _).
    rewrite (listeners_of_three ty pc o (peerConnections w) (offer_listeners k) w);
      [| done | done | exact Hst].
    destruct ty; simpl; lia.
Qed.

Lemma every_subscribe_and_every_offer_add_listeners_witness :
  reachable world_subscribe_offer ∧
  JsMap.get 1 (streamersRef world_subscribe_offer) = Some 0%nat ∧
  listeners_of track 0 world_subscribe_offer = 2%nat ∧
  listeners_of track 0 (exec (sendSubscribe 1) world_subscribe_offer) = 3%nat.
Proof.
  assert (Hr : reachable world_subscribe_offer)
    by (exists session_subscribe_offer; reflexivity).
  assert (Hk : JsMap.get 1 (streamersRef world_subscribe_offer) = Some 0%nat)
    by reflexivity.
  destruct (every_subscribe_and_every_offer_add_listeners
              world_subscribe_offer 1 0 "v=0" track Hr Hk) as [Hsub _].
  split; [exact Hr|]. split; [exact Hk|]. split; [reflexivity|].
  rewrite Hsub. reflexivity.
Defined.

(** ** The streamer menu *)

Lemma handleConnect_menu thrown w : menu_ok w → menu_ok (exec (handleConnect thrown) w).
Proof.
  unfold menu_ok. intros HI.
  destruct (wants_disconnect w) eqn:Hd; [destruct (webSocketRef w) as [s|] eqn:Hs|].
  - rewrite (handleConnect_disconnect thrown s w Hd Hs). reflexivity.
  - unfold wants_disconnect in Hd. m_simpl. m_simpl in Hd. m_simpl in Hs. rewrite Hd, Hs.
    m_simpl. m_cases; exact HI.
  - unfold wants_disconnect in Hd. m_simpl. m_simpl in Hd. rewrite Hd.
    m_simpl. m_cases; exact HI.
Qed.

Lemma sendToPeer_menu target data w :
  (streamersRef (exec (sendToPeer target data) w), streamerIds (exec (sendToPeer target data) w))
  = (streamersRef w, streamerIds w).
Proof. m_simpl. m_cases; reflexivity. Qed.

Lemma dispatch_menu pc ev w :
  (streamersRef (exec (dispatch pc ev) w), streamerIds (exec (dispatch pc ev) w))
  = (streamersRef w, streamerIds w).
Proof.
  unfold dispatch. rewrite exec_bind. cbn [gets fst snd].
  apply (forEach_view (λ w, (streamersRef w, streamerIds w))). intros l u.
  destruct ev as [[c|]| |]; try reflexivity.
  unfold listener. destruct (l_by l); rewrite exec_bind, sendToPeer_menu; reflexivity.
Qed.

Lemma handleSignalingMessage_menu m w :
  menu_ok w → menu_ok (exec (handleSignalingMessage m) w).
Proof.
  unfold menu_ok. intros HI. rewrite handleSignalingMessage_unfold. cbn zeta.
  destruct m as [n roster|k|k|sdp k|c k|type].
  - unfold handleConnectMessage. rewrite !exec_bind. reflexivity.
  - m_simpl. m_cases; first [reflexivity | exact HI].
  - m_simpl. m_cases; first [reflexivity | exact HI].
  - m_simpl. m_cases; exact HI.
  - m_simpl. m_cases; exact HI.
  - exact HI.
Qed.

Lemma step_menu w e w' : menu_ok w → step w e = Some w' → menu_ok w'.
Proof.
  intros HI. destruct e as [thrown|k|s|s data|s|s err|t|pc ev|i r]; simpl.
  - intros [= <-]. by apply handleConnect_menu.
  - destruct (_ && _); [|done]. intros [= <-]. unfold menu_ok in *.
    m_simpl. m_cases; exact HI.
  - destruct (webSockets w !! s) as [o|]; [|done]. simpl.
    destruct (bool_decide _); [|done]. intros [= <-]. exact HI.
  - destruct (webSockets w !! s) as [o|]; [|done]. simpl.
    destruct (bool_decide _); [|done]. intros [= <-].
    destruct data as [e|m]; [exact HI|].
    rewrite onmessage_parsed. apply (handleSignalingMessage_menu m w HI).
  - destruct (webSockets w !! s) as [o|]; [|done]. simpl.
    destruct (bool_decide _); [done|]. intros [= <-]. exact HI.
  - destruct (webSockets w !! s) as [o|]; [|done]. simpl.
    destruct (bool_decide _); [done|]. intros [= <-]. exact HI.
  - destruct (timers w !! t) as [st|]; [|done]. simpl.
    destruct (bool_decide _); [|done]. intros [= <-]. exact HI.
  - destruct (peerConnections w !! pc) as [o|]; [|done]. simpl.
    destruct (pc_closed o); [done|]. intros [= <-]. unfold menu_ok in *.
    pose proof (dispatch_menu pc ev w) as [= -> ->]. exact HI.
  - unfold settle. destruct (suspended w !! i) as [c|]; [|done]. cbn [mbind option_bind].
    unfold menu_ok in *.
    destruct (a_await c), r; intros [= <-]; try done; m_simpl; m_cases; exact HI.
Qed.

(** X9. In every reachable state the list of ids offered by the streamer
    menu is the list of keys of the registry, in the same order: every
    function that changes the registry refreshes the list before it
    returns. *)
Theorem menu_lists_the_registry (w : World) :
  reachable w → streamerIds w = JsMap.keys (streamersRef w).
Proof.
  apply (reachable_induction menu_ok); [reflexivity|].
  intros u e u' _. apply step_menu.
Qed.

Lemma menu_lists_the_registry_witness :
  reachable world_roster ∧ streamerIds world_roster = [1; 2].
Proof.
  assert (Hr : reachable world_roster) by (exists session_roster; reflexivity).
  split; [exact Hr|]. rewrite (menu_lists_the_registry world_roster Hr). reflexivity.
Defined.

(** ** One peer connection per streamer *)

Section Handles.
Context {V : Type}.
Implicit Types (m : JsMap.t V) (k j : Z) (v : V).

Lemma values_set_fresh k v m :
  JsMap.get k m = None → JsMap.values (JsMap.set k v m) = JsMap.values m ++ [v].
Proof.
  unfold JsMap.values. induction m as [|[k' v'] m IH]; csimpl; [done|].
  destruct (Z.eqb_spec k k'); [done|]. intros H. csimpl. by rewrite IH.
Qed.

Lemma elem_of_values_delete k v m :
  v ∈ JsMap.values (JsMap.delete k m) → v ∈ JsMap.values m.
Proof.
  unfold JsMap.values. induction m as [|[k' v'] m IH]; csimpl; [done|].
  destruct (Z.eqb_spec k k'); csimpl.
  - apply list_elem_of_further.
  - rewrite !elem_of_cons. intros [->|H]; auto.
Qed.

Lemma NoDup_values_delete k m :
  NoDup (JsMap.values m) → NoDup (JsMap.values (JsMap.delete k m)).
Proof.
  unfold JsMap.values. induction m as [|[k' v'] m IH]; csimpl; [done|].
  rewrite NoDup_cons. intros [Hnin Hnd].
  destruct (Z.eqb_spec k k'); [done|]. csimpl. apply NoDup_cons. split; [|auto].
  intros Hin. by apply Hnin, (elem_of_values_delete k).
Qed.

Lemma elem_of_values_get v m :
  NoDup (JsMap.keys m) → v ∈ JsMap.values m → ∃ k, JsMap.get k m = Some v.
Proof.
  unfold JsMap.values, JsMap.keys. induction m as [|[k' v'] m IH]; csimpl.
  - intros _ H. by apply elem_of_nil in H.
  - rewrite NoDup_cons, elem_of_cons. intros [Hnin Hnd] [->|Hin].
    + exists k'. by rewrite Z.eqb_refl.
    + destruct (IH Hnd Hin) as [k Hk]. exists k.
      destruct (Z.eqb_spec k k') as [->|]; [|done].
      apply get_Some_keys in Hk. done.
Qed.

Lemma get_values_inj k j v m :
  NoDup (JsMap.values m) →
  JsMap.get k m = Some v → JsMap.get j m = Some v → k = j.
Proof.
  unfold JsMap.values. induction m as [|[k' v'] m IH]; csimpl; [done|].
  rewrite NoDup_cons. intros [Hnin Hnd].
  assert (Hin : ∀ i, JsMap.get i m = Some v' → False).
  { intros i Hi. apply Hnin. apply list_elem_of_fmap. exists (i, v').
    split; [done | by apply get_elem_of]. }
  destruct (Z.eqb_spec k k') as [->|Hk], (Z.eqb_spec j k') as [->|Hj]; try done.
  - intros [= <-] Hj'. by destruct (Hin j).
  - intros Hk' [= <-]. by destruct (Hin k).
  - by apply IH.
Qed.
End Handles.

Lemma upsert_handles k (r : Registry) :
  registry_ok r → NoDup (JsMap.values r.1) → NoDup (JsMap.values (upsert k r).1).
Proof.
  intros [Hnd Hlt] Hv. unfold upsert. destruct (JsMap.has k r.1) eqn:E; [done|]. simpl.
  apply has_false_get in E. rewrite values_set_fresh by done.
  apply NoDup_app. split_and!; [done | | apply NoDup_singleton].
  intros pc Hpc ->%list_elem_of_singleton.
  destruct (elem_of_values_get _ _ Hnd Hpc) as [j Hj]. apply Hlt in Hj. lia.
Qed.

Lemma upserts_handles roster : ∀ (r : Registry),
  registry_ok r → NoDup (JsMap.values r.1) → NoDup (JsMap.values (upserts roster r).1).
Proof.
  induction roster as [|k roster IH]; intros r Hok Hv; [done|].
  rewrite upserts_cons. apply IH; [by apply upsert_ok | by apply upsert_handles].
Qed.

Lemma remove_handles k (r : Registry) :
  NoDup (JsMap.values r.1) → NoDup (JsMap.values (remove k r).1).
Proof.
  intros Hv. unfold remove. destruct (JsMap.get k r.1); [|done]. simpl.
  by apply NoDup_values_delete.
Qed.

(** What one event can do to the registry. *)
Lemma step_registry w e w' :
  step w e = Some w' →
  streamersRef w' = streamersRef w ∨
  streamersRef w' = [] ∨
  (∃ roster, registry_state w' = upserts roster (registry_state w)) ∨
  (∃ k, registry_state w' = remove k (registry_state w)).
Proof.
  destruct e as [thrown|k|s|s data|s|s err|t|pc ev|i r]; simpl.
  - intros [= <-].
    destruct (wants_disconnect w) eqn:Hd; [destruct (webSocketRef w) as [s|] eqn:Hs|].
    + destruct (handleConnect_disconnect_fields thrown s w Hd Hs) as (-> & _). auto.
    + destruct (handleConnect_other thrown w (or_intror Hs)) as ([= -> _] & _). auto.
    + destruct (handleConnect_other thrown w (or_introl Hd)) as ([= -> _] & _). auto.
  - destruct (_ && _); [|done]. intros [= <-].
    pose proof (selectStreamer_registry k w) as [= -> _]. auto.
  - destruct (webSockets w !! s) as [o|]; [|done]. simpl.
    destruct (bool_decide _); [|done]. intros [= <-]. auto.
  - destruct (webSockets w !! s) as [o|]; [|done]. simpl.
    destruct (bool_decide _); [|done]. intros [= <-].
    destruct data as [e|m]; [auto|].
    pose proof (onmessage_registry_state m w) as Hreg.
    destruct m as [n roster|k|k|sdp k|c k|type].
    + right. right. left. by exists roster.
    + right. right. right. by exists k.
    + right. right. left. by exists [k].
    + left. rewrite onmessage_parsed.
      change (streamersRef (exec (handleSignalingMessage (OfferMessage sdp k)) w)
              = streamersRef w).
      rewrite handleSignalingMessage_unfold. cbn zeta.
      by destruct (handleOffer_streamersRef sdp k
                     (exec (console_log "Received message:";;
                            console_log "Current streamers:")%M w)) as [-> _].
    + left. rewrite onmessage_parsed.
      change (streamersRef (exec (handleSignalingMessage (CandidateMessage c k)) w)
              = streamersRef w).
      rewrite handleSignalingMessage_unfold. cbn zeta.
      by pose proof (handleIceCandidate_registry_state c k
                     (exec (console_log "Received message:";;
                            console_log "Current streamers:")%M w)) as [= -> _].
    + auto.
  - destruct (webSockets w !! s) as [o|]; [|done]. simpl.
    destruct (bool_decide _); [done|]. intros [= <-]. auto.
  - destruct (webSockets w !! s) as [o|]; [|done]. simpl.
    destruct (bool_decide _); [done|]. intros [= <-]. auto.
  - destruct (timers w !! t) as [st|]; [|done]. simpl.
    destruct (bool_decide _); [|done]. intros [= <-]. auto.
  - destruct (peerConnections w !! pc) as [o|]; [|done]. simpl.
    destruct (pc_closed o); [done|]. intros [= <-].
    pose proof (dispatch_registry pc ev w) as [= -> _]. auto.
  - intros [= -> _]%settle_registry. auto.
Qed.

(** X10. In every reachable state two streamers never share a peer
    connection: the handles stored in the registry are pairwise
    distinct, and each of them refers to an object of the store. *)
Theorem streamers_own_distinct_peer_connections (w : World) (k j : Z) (pc : nat) :
  reachable w →
  JsMap.get k (streamersRef w) = Some pc →
  JsMap.get j (streamersRef w) = Some pc →
  k = j ∧ is_Some (peerConnections w !! pc).
Proof.
  intros Hr Hk Hj. split.
  - revert k j pc Hk Hj. pattern w. revert w Hr.
    assert (H : ∀ w, reachable w → NoDup (JsMap.values (streamersRef w))).
    { apply (reachable_induction (λ w, NoDup (JsMap.values (streamersRef w)))).
      - apply NoDup_nil_2.
      - intros u e u' Hu Hv Hstep.
        destruct (reachable_Inv u Hu) as [_ _ Hok].
        destruct (step_registry u e u' Hstep) as [->|[->|[[roster Heq]|[i Heq]]]].
        + done.
        + apply NoDup_nil_2.
        + change (streamersRef u') with (registry_state u').1. rewrite Heq.
          by apply upserts_handles.
        + change (streamersRef u') with (registry_state u').1. rewrite Heq.
          by apply remove_handles. }
    intros w Hr k j pc. apply get_values_inj. by apply H.
  - destruct (reachable_Inv w Hr) as [_ _ [_ Hlt]].
    apply lookup_lt_is_Some_2. by eapply Hlt.
Qed.

Lemma streamers_own_distinct_peer_connections_witness :
  reachable world_roster ∧
  JsMap.get 2 (streamersRef world_roster) = Some 1%nat ∧
  is_Some (peerConnections world_roster !! 1%nat).
Proof.
  assert (Hr : reachable world_roster) by (exists session_roster; reflexivity).
  assert (Hk : JsMap.get 2 (streamersRef world_roster) = Some 1%nat) by reflexivity.
  split; [exact Hr|]. split; [exact Hk|].
  apply (streamers_own_distinct_peer_connections world_roster 2 2 1 Hr Hk Hk).
Defined.

(** ** A cancelled timeout stays cancelled *)

Lemma spent_alter_clear t t' (l : list Timer) :
  (∃ st, l !! t = Some st ∧ st ≠ Armed) →
  ∃ st, alter clear_timer t' l !! t = Some st ∧ st ≠ Armed.
Proof.
  intros (st & Hst & Hne). destruct (decide (t' = t)) as [->|Hd].
  - exists (clear_timer st). rewrite list_lookup_alter_eq, Hst. split; [done|].
    by destruct st.
  - exists st. by rewrite list_lookup_alter_ne.
Qed.

Lemma handleConnect_timers thrown t st w :
  timers w !! t = Some st → timers (exec (handleConnect thrown) w) !! t = Some st.
Proof.
  intros Ht.
  destruct (wants_disconnect w) eqn:Hd; [destruct (webSocketRef w) as [s|] eqn:Hs|].
  - destruct (handleConnect_disconnect_fields thrown s w Hd Hs)
      as (_ & _ & _ & _ & _ & _ & _ & ->). done.
  - pose proof (lookup_lt_Some _ _ _ Ht) as Hlt.
    unfold wants_disconnect in Hd. m_simpl. m_simpl in Hd. m_simpl in Hs. m_simpl in Ht.
    m_simpl in Hlt. rewrite Hd, Hs. m_simpl. m_cases; rewrite ?list_lookup_alter_ne by lia;
      first [exact Ht | by apply lookup_app_l_Some].
  - pose proof (lookup_lt_Some _ _ _ Ht) as Hlt.
    unfold wants_disconnect in Hd. m_simpl. m_simpl in Hd. m_simpl in Ht.
    m_simpl in Hlt. rewrite Hd. m_simpl. m_cases; rewrite ?list_lookup_alter_ne by lia;
      first [exact Ht | by apply lookup_app_l_Some].
Qed.

Lemma step_spent t w e w' : spent t w → step w e = Some w' → spent t w'.
Proof.
  unfold spent. intros Hsp.
  destruct (quiet e) eqn:Hq.
  { intros Hstep. destruct (quiet_step w e w' Hq Hstep) as [[= _ _ _ ->] _]. done. }
  destruct e as [thrown|k|s|s data|s|s err|t'|pc ev|i r]; try discriminate Hq; simpl.
  - intros [= <-]. destruct Hsp as (st & Hst & Hne). exists st.
    split; [by apply handleConnect_timers | done].
  - destruct (webSockets w !! s) as [o|]; [|done]. simpl.
    destruct (bool_decide _); [|done]. intros [= <-].
    by apply (spent_alter_clear t (ws_timeoutId o)).
  - destruct (webSockets w !! s) as [o|]; [|done]. simpl.
    destruct (bool_decide _); [done|]. intros [= <-]. done.
  - destruct (webSockets w !! s) as [o|]; [|done]. simpl.
    destruct (bool_decide _); [done|]. intros [= <-].
    by apply (spent_alter_clear t (ws_timeoutId o)).
  - destruct (timers w !! t') as [st'|] eqn:Ht'; [|done]. simpl.
    destruct (bool_decide _); [|done]. intros [= <-].
    destruct Hsp as (st & Hst & Hne). destruct (decide (t' = t)) as [->|Hd].
    + exists Fired. split; [|done].
      apply list_lookup_insert_eq. by apply lookup_lt_Some in Hst.
    + exists st. split; [|done].
      change (<[t':=Fired]> (timers w) !! t = Some st). by rewrite list_lookup_insert_ne.
Qed.

Lemma run_spent t es : ∀ w w', spent t w → run w es = Some w' → spent t w'.
Proof.
  induction es as [|e es IH]; intros w w' Hsp; simpl.
  - by intros [= <-].
  - destruct (step w e) as [w1|] eqn:Hstep; [|done]. simpl.
    apply IH. by eapply step_spent.
Qed.

Lemma spent_cannot_fire t w : spent t w → step w (TimerFires t) = None.
Proof.
  intros (st & Hst & Hne). simpl. rewrite Hst. simpl.
  by rewrite bool_decide_eq_false_2.
Qed.

(** Quiet events leave the sockets' bindings to their timers alone. *)
Lemma fmap_timeoutId_sent m s (l : list WebSocket) :
  ws_timeoutId <$> alter (sent m) s l = ws_timeoutId <$> l.
Proof.
  apply list_eq. intros i. rewrite !list_lookup_fmap.
  destruct (decide (s = i)) as [->|Hne].
  - rewrite list_lookup_alter_eq. by destruct (l !! i).
  - by rewrite list_lookup_alter_ne.
Qed.

Lemma sendToPeer_timeoutIds target data w :
  ws_timeoutId <$> webSockets (exec (sendToPeer target data) w)
  = ws_timeoutId <$> webSockets w.
Proof. m_simpl. m_cases; rewrite ?fmap_timeoutId_sent; reflexivity. Qed.

Lemma quiet_step_timeoutIds w e w' :
  quiet e = true → step w e = Some w' →
  ws_timeoutId <$> webSockets w' = ws_timeoutId <$> webSockets w.
Proof.
  destruct e as [thrown|k|s|s data|s|s err|t|pc ev|i r]; try discriminate; intros _; simpl.
  - destruct (_ && _); [|done]. intros [= <-].
    m_simpl. m_cases; rewrite ?fmap_timeoutId_sent; reflexivity.
  - destruct (webSockets w !! s) as [o|]; [|done]. simpl.
    destruct (bool_decide _); [|done]. intros [= <-].
    destruct data as [e|m]; [done|]. rewrite onmessage_parsed.
    change (ws_timeoutId <$> webSockets (exec (handleSignalingMessage m) w)
            = ws_timeoutId <$> webSockets w).
    rewrite handleSignalingMessage_unfold. cbn zeta.
    destruct m as [n roster|k|k|sdp k|c k|type]; try (m_simpl; m_cases; reflexivity).
    unfold handleConnectMessage. rewrite !exec_bind.
    change (ws_timeoutId <$> webSockets
              (exec (forEach roster handleConnectMessage_each)
                 (exec (setId n) (exec (console_log "Received message:";;
                                        console_log "Current streamers:")%M w)))
            = ws_timeoutId <$> webSockets w).
    rewrite (forEach_view (λ w, ws_timeoutId <$> webSockets w)); [done|].
    intros k u. m_simpl. m_cases; reflexivity.
  - destruct (peerConnections w !! pc) as [o|]; [|done]. simpl.
    destruct (pc_closed o); [done|]. intros [= <-].
    unfold dispatch. rewrite exec_bind. cbn [gets fst snd].
    apply (forEach_view (λ w, ws_timeoutId <$> webSockets w)). intros l u.
    destruct ev as [[c|]| |]; try reflexivity.
    unfold listener. destruct (l_by l); rewrite exec_bind, sendToPeer_timeoutIds; reflexivity.
  - unfold settle. destruct (suspended w !! i) as [c|]; [|done]. cbn [mbind option_bind].
    destruct (a_await c), r; intros [= <-]; try done;
      m_simpl; m_cases; rewrite ?fmap_timeoutId_sent; reflexivity.
Qed.

Lemma quiet_run_timeoutIds es : ∀ w w',
  forallb quiet es = true → run w es = Some w' →
  ws_timeoutId <$> webSockets w' = ws_timeoutId <$> webSockets w.
Proof.
  induction es as [|e es IH]; intros w w' Hq; simpl.
  - by intros [= <-].
  - simpl in Hq. apply andb_prop in Hq as [He Hq].
    destruct (step w e) as [w1|] eqn:Hstep; [|done]. simpl. intros Hrun.
    rewrite (IH w1 w' Hq Hrun). by eapply quiet_step_timeoutIds.
Qed.

(** X11. A timer that was cleared or has fired never fires again,
    whatever happens afterwards.  In particular, when the socket of a
    connect attempt opens, or fails, before the timeout, the timeout of
    that attempt is cancelled for good: after an open in time the
    status is [Connected] with the new socket stored, after an error in
    time it is [ConnectionError], and no later event sequence lets the
    attempt's timer fire. *)
Theorem open_or_error_in_time_cancels_the_timeout
    (w w1 : World) (window : list Event) (error : string) :
  wants_disconnect w = false →
  forallb quiet window = true →
  run (exec (handleConnect None) w) window = Some w1 →
  let t := length (timers w) in
  let s := length (webSockets w) in
  (∃ w2, step w1 (SocketOpen s) = Some w2 ∧
     connectionStatus w2 = Connected ∧
     webSocketRef w2 = Some s ∧
     status_calls (calls w2) = status_calls (calls w) ++ [Connecting; Connected] ∧
     ∀ es w3, run w2 es = Some w3 → step w3 (TimerFires t) = None) ∧
  (∃ w2, step w1 (SocketError s error) = Some w2 ∧
     connectionStatus w2 = ConnectionError ∧
     status_calls (calls w2) = status_calls (calls w) ++ [Connecting; ConnectionError] ∧
     ∀ es w3, run w2 es = Some w3 → step w3 (TimerFires t) = None).
Proof.
  intros Hd Hq Hrun. cbn zeta.
  destruct (handleConnect_attempt_fields w Hd) as (Hc0 & Ht0 & Hw0 & Hca0).
  destruct (quiet_run window _ w1 Hq Hrun) as [Hsv Hsc].
  unfold session_view in Hsv. injection Hsv as _ _ Hrs Ht1.
  rewrite Ht0 in Ht1. rewrite Hca0, status_calls_app in Hsc. simpl in Hsc.
  assert (Hsock : ∃ o, webSockets w1 !! length (webSockets w) = Some o ∧
                       readyState o = CONNECTING ∧ ws_timeoutId o = length (timers w)).
  { pose proof (quiet_run_timeoutIds window _ w1 Hq Hrun) as Hti.
    apply (f_equal (λ l, l !! length (webSockets w))) in Hrs.
    apply (f_equal (λ l, l !! length (webSockets w))) in Hti.
    rewrite Hw0, fmap_app, list_lookup_fmap in Hrs.
    rewrite Hw0, fmap_app, list_lookup_fmap in Hti. simpl in Hrs, Hti.
    rewrite list_lookup_middle in Hrs by (by rewrite length_fmap).
    rewrite list_lookup_middle in Hti by (by rewrite length_fmap).
    destruct (webSockets w1 !! length (webSockets w)) as [o|]; [|done].
    exists o. split; [done|]. split; [by injection Hrs | by injection Hti]. }
  destruct Hsock as (o & Ho & Hready & Htid).
  assert (Harmed : timers w1 !! length (timers w) = Some Armed).
  { rewrite Ht1. by apply list_lookup_middle. }
  split.
  - eexists. split; [|split_and!].
    + cbn [step]. rewrite Ho. cbn [mbind option_bind].
      rewrite bool_decide_eq_true_2 by done. reflexivity.
    + reflexivity.
    + reflexivity.
    + rewrite Htid. unfold status_calls in *. m_simpl. m_simpl in Hsc.
      rewrite !omap_app, Hsc, <- !app_assoc. reflexivity.
    + intros es w3 Hes. apply spent_cannot_fire. eapply run_spent; [|exact Hes].
      exists Cleared. split; [|done]. rewrite Htid. m_simpl. m_simpl in Harmed.
      by rewrite list_lookup_alter_eq, Harmed.
  - eexists. split; [|split_and!].
    + cbn [step]. rewrite Ho. cbn [mbind option_bind].
      rewrite bool_decide_eq_false_2 by (rewrite Hready; done). reflexivity.
    + reflexivity.
    + rewrite Htid. unfold status_calls in *. m_simpl. m_simpl in Hsc.
      rewrite !omap_app, Hsc, <- !app_assoc. reflexivity.
    + intros es w3 Hes. apply spent_cannot_fire. eapply run_spent; [|exact Hes].
      exists Cleared. split; [|done]. rewrite Htid. m_simpl. m_simpl in Harmed.
      by rewrite list_lookup_alter_eq, Harmed.
Qed.

Lemma open_or_error_in_time_cancels_the_timeout_witness :
  wants_disconnect initial = false ∧
  ∃ w2, step (exec (handleConnect None) initial) (SocketOpen 0) = Some w2 ∧
        connectionStatus w2 = Connected ∧
        step w2 (TimerFires 0) = None.
Proof.
  assert (Hd : wants_disconnect initial = false) by reflexivity.
  destruct (open_or_error_in_time_cancels_the_timeout
              initial (exec (handleConnect None) initial) [] "" Hd)
    as ((w2 & Hstep & Hc & _ & _ & Hnever) & _); [reflexivity | reflexivity |].
  split; [exact Hd|]. exists w2. split; [exact Hstep|]. split; [exact Hc|].
  apply (Hnever [] w2). reflexivity.
Defined.

(** ** A streamer that comes and goes *)

Lemma delete_set_fresh {V} k (v : V) (m : JsMap.t V) :
  JsMap.get k m = None → JsMap.delete k (JsMap.set k v m) = m.
Proof.
  induction m as [|[k' v'] m IH]; simpl.
  - by rewrite Z.eqb_refl.
  - destruct (Z.eqb_spec k k') as [->|Hne]; [done|]. intros H. simpl.
    destruct (Z.eqb_spec k k'); [done|]. by rewrite IH.
Qed.

Lemma get_delete_eq {V} k (m : JsMap.t V) :
  NoDup (JsMap.keys m) → JsMap.get k (JsMap.delete k m) = None.
Proof.
  intros Hnd. apply get_None_keys. intros Hin.
  apply (elem_of_keys_delete k k m Hnd) in Hin as [_ ?]. done.
Qed.

Lemma alter_at_end {A} (f : A → A) (l : list A) (x : A) :
  alter f (length l) (l ++ [x]) = l ++ [f x].
Proof.
  apply list_eq. intros i. destruct (decide (length l = i)) as [<-|Hne].
  - by rewrite list_lookup_alter_eq, !list_lookup_middle.
  - rewrite list_lookup_alter_ne by done.
    destruct (decide (i < length l)%nat).
    + by rewrite !lookup_app_l.
    + rewrite !lookup_ge_None_2; [done|rewrite length_app; simpl; lia..].
Qed.

(** X12. A streamer that is announced and then reported disconnected
    leaves the registry and the menu exactly as they were before the
    announcement; the peer connection created for it stays in the store,
    closed. *)
Theorem announce_then_disconnect_restores_the_registry (w : World) (k : Z) :
  JsMap.has k (streamersRef w) = false →
  let w2 := exec (handleStreamerDisconnection k) (exec (handleNewStreamer k) w) in
  streamersRef w2 = streamersRef w ∧
  streamerIds w2 = JsMap.keys (streamersRef w) ∧
  peerConnections w2 = peerConnections w ++ [close_pc fresh_pc] ∧
  calls w2 = calls w ++ [NewRTCPeerConnection (length (peerConnections w));
                         MapSet k (length (peerConnections w));
                         PcClose (length (peerConnections w)); MapDelete k].
Proof.
  intros Hk. cbn zeta.
  assert (Hnone : JsMap.get k (streamersRef w) = None) by (by apply has_false_get).
  assert (Hget : JsMap.get k (JsMap.set k (length (peerConnections w)) (streamersRef w))
                 = Some (length (peerConnections w))) by apply get_set_eq.
  assert (Hdel := delete_set_fresh k (length (peerConnections w)) (streamersRef w) Hnone).
  assert (Halt := alter_at_end close_pc (peerConnections w) fresh_pc).
  m_simpl. unfold JsMap.has. m_simpl in Hnone. m_simpl in Hget. m_simpl in Hdel.
  m_simpl in Halt. rewrite Hnone. m_simpl. rewrite !Hget. m_simpl.
  rewrite !Hdel, Halt, <- !app_assoc. repeat split.
Qed.

Lemma announce_then_disconnect_restores_the_registry_witness :
  JsMap.has 5 (streamersRef world_roster) = false ∧
  streamersRef (exec (handleStreamerDisconnection 5) (exec (handleNewStreamer 5) world_roster))
    = streamersRef world_roster.
Proof.
  assert (Hk : JsMap.has 5 (streamersRef world_roster) = false) by reflexivity.
  split; [exact Hk|].
  apply (announce_then_disconnect_restores_the_registry world_roster 5 Hk).
Defined.

(** X13. A streamer of the registry that is reported disconnected and
    announced again does not get its old peer connection back: the old
    one stays in the store, closed, and the registry now gives the
    streamer a new handle, referring to a new peer connection with no
    listener and no description. *)
Theorem returning_streamer_gets_a_new_peer_connection (w : World) (k : Z) (pc : nat) :
  reachable w →
  JsMap.get k (streamersRef w) = Some pc →
  let w2 := exec (handleNewStreamer k) (exec (handleStreamerDisconnection k) w) in
  JsMap.get k (streamersRef w2) = Some (length (peerConnections w)) ∧
  length (peerConnections w) ≠ pc ∧
  peerConnections w2 = alter close_pc pc (peerConnections w) ++ [fresh_pc] ∧
  (∃ o, peerConnections w2 !! pc = Some o ∧ pc_closed o = true).
Proof.
  intros Hr Hk. cbn zeta.
  destruct (reachable_Inv w Hr) as [_ _ [Hnd Hlt]].
  unfold registry_state in Hnd, Hlt. simpl in Hnd, Hlt.
  pose proof (Hlt k pc Hk) as Hpc.
  pose proof (handleNewStreamer_registry_state k (exec (handleStreamerDisconnection k) w)) as H2.
  rewrite handleStreamerDisconnection_registry_state in H2.
  unfold remove in H2. unfold registry_state at 2 3 in H2. simpl in H2. rewrite Hk in H2.
  unfold upsert, registry_state in H2. simpl in H2.
  assert (Hgone : JsMap.has k (JsMap.delete k (streamersRef w)) = false).
  { apply has_false_get. by apply get_delete_eq. }
  rewrite Hgone, length_alter in H2. injection H2 as -> ->.
  split_and!.
  - apply get_set_eq.
  - lia.
  - done.
  - destruct (lookup_lt_is_Some_2 _ _ Hpc) as [o Ho]. exists (close_pc o).
    split; [|done]. apply lookup_app_l_Some. by rewrite list_lookup_alter_eq, Ho.
Qed.

Lemma returning_streamer_gets_a_new_peer_connection_witness :
  reachable world_roster ∧
  JsMap.get 1 (streamersRef world_roster) = Some 0%nat ∧
  JsMap.get 1 (streamersRef (exec (handleNewStreamer 1)
                               (exec (handleStreamerDisconnection 1) world_roster)))
    = Some 2%nat.
Proof.
  assert (Hr : reachable world_roster) by (exists session_roster; reflexivity).
  assert (Hk : JsMap.get 1 (streamersRef world_roster) = Some 0%nat) by reflexivity.
  split; [exact Hr|]. split; [exact Hk|].
  apply (returning_streamer_gets_a_new_peer_connection world_roster 1 0 Hr Hk).
Defined.

(** ** Events of peer connections *)

Lemma sendToPeer_open_channel target data w :
  open_channel (exec (sendToPeer target data) w) = open_channel w.
Proof.
  pose proof (sendToPeer_session target data w) as [= _ Hr Hs _].
  unfold open_channel. rewrite Hr. destruct (webSocketRef w) as [s|]; [|done]. simpl.
  apply (f_equal (λ l, l !! s)) in Hs. rewrite !list_lookup_fmap in Hs. by rewrite Hs.
Qed.

Lemma sendToPeer_sent target data s w :
  open_channel w = Some s →
  sent_view (exec (sendToPeer target data) w)
    = alter (λ q, q ++ [{| out_data := data; out_target := target |}]) s (sent_view w).
Proof.
  intros Hs. rewrite sendToPeer_channel, Hs. unfold sent_view. m_simpl.
  by rewrite sent_view_alter.
Qed.

Lemma alter_app_twice {A} (i : nat) (a b : list A) (l : list (list A)) :
  alter (λ q, q ++ b) i (alter (λ q, q ++ a) i l) = alter (λ q, q ++ (a ++ b)) i l.
Proof.
  apply list_eq. intros j. destruct (decide (i = j)) as [->|Hne].
  - rewrite !list_lookup_alter_eq. destruct (l !! j); simpl; [|done]. by rewrite app_assoc.
  - by rewrite !list_lookup_alter_ne.
Qed.

Lemma forEach_candidate c s (ls : list Listener) : ∀ w,
  open_channel w = Some s →
  sent_view (exec (forEach ls (λ l, listener l (IceCandidateEvent (Some c)))) w)
    = alter (λ q, q ++ ((λ l, {| out_data := DataIceCandidate c;
                                 out_target := l_streamerId l |}) <$> ls))
        s (sent_view w).
Proof.
  induction ls as [|l ls IH]; intros w Hs.
  - rewrite list_alter_id; [done|]. intros q. apply app_nil_r.
  - rewrite exec_forEach_cons.
    assert (Hl : ∀ u, exec (listener l (IceCandidateEvent (Some c))) u
              = exec (sendToPeer (l_streamerId l) (DataIceCandidate c))
                  (match l_by l with
                   | ByHandleOffer => exec (console_log "Ice Candidate") u
                   | BySendSubscribe => u
                   end)).
    { intros u. unfold listener. rewrite exec_bind. destruct (l_by l); reflexivity. }
    rewrite IH.
    + rewrite Hl, (sendToPeer_sent _ _ s).
      * rewrite alter_app_twice. csimpl. by destruct (l_by l).
      * by destruct (l_by l).
    + rewrite Hl, sendToPeer_open_channel. by destruct (l_by l).
Qed.

(** X14. When a peer connection announces a local ICE candidate and the
    stored socket is open, one [ice-candidate] message is written for
    every [icecandidate] listener registered on that peer connection, in
    the order of registration, each addressed to the streamer id its
    listener was registered for; no other socket is written on.  The
    closing event that carries no candidate changes nothing at all. *)
Theorem one_candidate_message_per_listener
    (w : World) (pc s : nat) (o : RTCPeerConnection) (c : IceCandidate) :
  peerConnections w !! pc = Some o →
  open_channel w = Some s →
  sent_view (exec (dispatch pc (IceCandidateEvent (Some c))) w)
    = alter (λ q, q ++
               ((λ l, {| out_data := DataIceCandidate c; out_target := l_streamerId l |})
                  <$> filter (λ l, l_type l = icecandidate) (pc_listeners o)))
        s (sent_view w) ∧
  exec (dispatch pc (IceCandidateEvent None)) w = w.
Proof.
  intros Ho Hs. split.
  - unfold dispatch. rewrite exec_bind. cbn [gets fst snd]. rewrite Ho. simpl.
    by apply forEach_candidate.
  - unfold dispatch. rewrite exec_bind. cbn [gets fst snd].
    generalize (filter (λ l, l_type l = peer_event_type (IceCandidateEvent None))
                  (default [] (pc_listeners <$> peerConnections w !! pc))).
    intros ls. induction ls as [|l ls IH]; [done|].
    by rewrite exec_forEach_cons.
Qed.

Lemma one_candidate_message_per_listener_witness :
  open_channel world_subscribe_offer = Some 0%nat ∧
  sent_view (exec (dispatch 0 (IceCandidateEvent (Some "candidate")))
               world_subscribe_offer)
  = [[{| out_data := DataSubscribe; out_target := 1 |};
      {| out_data := DataAnswer "answer"; out_target := 1 |};
      {| out_data := DataIceCandidate "candidate"; out_target := 1 |};
      {| out_data := DataIceCandidate "candidate"; out_target := 1 |}]].
Proof.
  assert (Hs : open_channel world_subscribe_offer = Some 0%nat) by reflexivity.
  pose (o := default fresh_pc (peerConnections world_subscribe_offer !! 0%nat)).
  assert (Ho : peerConnections world_subscribe_offer !! 0%nat = Some o) by reflexivity.
  destruct (one_candidate_message_per_listener
              world_subscribe_offer 0 0 o "candidate" Ho Hs) as [Hsent _].
  split; [exact Hs|]. etrans; [exact Hsent|]. reflexivity.
Defined.

Lemma forEach_track stream (ls : list Listener) : ∀ w,
  Forall (λ l, l_type l = track) ls → ls ≠ [] →
  exec (forEach ls (λ l, listener l (TrackEvent stream))) w
    = with_videoSrc (Some stream)
        (with_console (λ c, c ++ replicate (length ls) "Track received:") w).
Proof.
  induction ls as [|l ls IH]; intros w Hall Hne; [done|].
  rewrite exec_forEach_cons. destruct ls as [|l' ls].
  - m_simpl. reflexivity.
  - rewrite IH; [|by inversion Hall|done].
    m_simpl. simpl. rewrite <- app_assoc. reflexivity.
Qed.

(** X15. When a peer connection that carries at least one [track]
    listener receives a track, the video element shows the stream of
    that event, whatever it showed before; apart from one console line
    per listener nothing else changes, and nothing is sent. *)
Theorem last_received_stream_is_shown
    (w : World) (pc : nat) (o : RTCPeerConnection) (stream : MediaStream) :
  peerConnections w !! pc = Some o →
  filter (λ l, l_type l = track) (pc_listeners o) ≠ [] →
  exec (dispatch pc (TrackEvent stream)) w
    = with_videoSrc (Some stream)
        (with_console (λ c, c ++ replicate
            (length (filter (λ l, l_type l = track) (pc_listeners o)))
            "Track received:") w).
Proof.
  intros Ho Hne. unfold dispatch. rewrite exec_bind. cbn [gets fst snd]. rewrite Ho. simpl.
  apply forEach_track; [|done]. apply Forall_forall. by intros l [? _]%list_elem_of_filter.
Qed.

Lemma last_received_stream_is_shown_witness :
  videoSrc (exec (dispatch 0 (TrackEvent "camera")) world_subscribe_offer) = Some "camera".
Proof.
  pose (o := default fresh_pc (peerConnections world_subscribe_offer !! 0%nat)).
  assert (Ho : peerConnections world_subscribe_offer !! 0%nat = Some o) by reflexivity.
  assert (Hshown := last_received_stream_is_shown world_subscribe_offer 0 o "camera" Ho).
  etrans; [apply (f_equal videoSrc), Hshown; discriminate | reflexivity].
Defined.

(** ** Subscribing to a streamer of the registry *)

Lemma sendSubscribe_known k pc w :
  JsMap.get k (streamersRef w) = Some pc →
  ∃ u, exec (sendSubscribe k) w
       = exec (log ("Subscribe sent to peer " +:+ pretty k))
           (exec (sendToPeer k DataSubscribe) u) ∧
       webSockets u = webSockets w ∧ webSocketRef u = webSocketRef w ∧
       logs u = logs w ∧ streamersRef u = streamersRef w ∧
       session_view u = session_view w.
Proof.
  intros Hk.
  assert (Hhas : JsMap.has k (streamersRef w) = true) by (apply has_get; eauto).
  unfold sendSubscribe. rewrite exec_bind. cbn [streamers_has gets fst snd].
  rewrite Hhas. cbv iota. rewrite exec_bind. cbn [streamers_get gets fst snd].
  rewrite Hk. cbv iota. rewrite !exec_bind.
  eexists. split; [reflexivity|].
  unfold session_view. m_simpl. m_cases; repeat split.
Qed.

(** X16. Subscribing to a streamer of the registry writes one
    [subscribe] message for that streamer on the stored socket when it
    is open, and writes on no socket otherwise.  In both cases the last
    line of the log says that the subscription was sent; when it was
    not, the line before says that the message could not be sent.  The
    registry and the session are left alone. *)
Theorem subscribe_is_logged_as_sent_even_when_it_is_not
    (w : World) (k : Z) (pc : nat) :
  JsMap.get k (streamersRef w) = Some pc →
  let w' := exec (sendSubscribe k) w in
  match open_channel w with
  | Some s =>
      sent_view w' = alter (λ q, q ++ [{| out_data := DataSubscribe; out_target := k |}])
                       s (sent_view w) ∧
      logs w' = logs w ++ ["Subscribe sent to peer " +:+ pretty k]
  | None =>
      sent_view w' = sent_view w ∧
      logs w' = logs w ++ ["Cannot send message: WebSocket not connected";
                           "Subscribe sent to peer " +:+ pretty k]
  end ∧
  streamersRef w' = streamersRef w ∧
  session_view w' = session_view w.
Proof.
  intros Hk. cbn zeta.
  destruct (sendSubscribe_known k pc w Hk) as (u & -> & Hws & Href & Hlogs & Hreg & Hsv).
  assert (Hch : open_channel u = open_channel w).
  { unfold open_channel. by rewrite Href, Hws. }
  pose proof (sendToPeer_cases k DataSubscribe u)
    as (Hsend & Hsess & Hregs).
  cbn zeta in Hsend. rewrite Hch in Hsend. unfold sent_view in *.
  split_and!.
  - destruct (open_channel w) as [s|]; destruct Hsend as (Hsent & _ & Hl).
    + split.
      * etrans; [exact Hsent|]. by rewrite Hws.
      * m_simpl. m_simpl in Hl. m_simpl in Hlogs. by rewrite Hl, Hlogs.
    + split.
      * etrans; [exact Hsent|]. by rewrite Hws.
      * m_simpl. m_simpl in Hl. m_simpl in Hlogs.
        by rewrite Hl, Hlogs, <- app_assoc.
  - injection Hregs as Hr _. etrans; [exact Hr | exact Hreg].
  - etrans; [exact Hsess | exact Hsv].
Qed.

Lemma subscribe_is_logged_as_sent_even_when_it_is_not_witness :
  JsMap.get 1 (streamersRef (exec (handleConnectMessage 7 [1]) initial)) = Some 0%nat ∧
  logs (exec (sendSubscribe 1) (exec (handleConnectMessage 7 [1]) initial))
    = ["Creating connection with streamer 1"; "Assigned clientId: 7";
       "Cannot send message: WebSocket not connected"; "Subscribe sent to peer 1"].
Proof.
  assert (Hk : JsMap.get 1 (streamersRef (exec (handleConnectMessage 7 [1]) initial))
               = Some 0%nat) by reflexivity.
  destruct (subscribe_is_logged_as_sent_even_when_it_is_not _ 1 0 Hk) as ((_ & Hl) & _).
  split; [exact Hk|]. etrans; [exact Hl | reflexivity].
Defined.

(** ** Quiet events *)

(** X17. A frame from the server, an event of a peer connection, a
    settled promise and a choice in the streamer menu never change the
    connection status, the stored channel handle, the state of any
    socket, the timer a socket is bound to or any timer, and never call
    [setConnectionStatus]. *)
Theorem quiet_events_leave_the_session_alone (w w' : World) (es : list Event) :
  forallb quiet es = true →
  run w es = Some w' →
  connectionStatus w' = connectionStatus w ∧
  webSocketRef w' = webSocketRef w ∧
  readyState <$> webSockets w' = readyState <$> webSockets w ∧
  ws_timeoutId <$> webSockets w' = ws_timeoutId <$> webSockets w ∧
  timers w' = timers w ∧
  status_calls (calls w') = status_calls (calls w).
Proof.
  intros Hq Hrun.
  destruct (quiet_run es w w' Hq Hrun) as [[= Hc Hr Hs Ht] Hsc].
  pose proof (quiet_run_timeoutIds es w w' Hq Hrun) as Hti.
  by split_and!.
Qed.

Lemma quiet_events_leave_the_session_alone_witness :
  ∃ w', run world_roster [SocketMessage 0 (Parsed (OfferMessage "v=0" 1));
                          Settles 0 (Rejected "InvalidAccessError");
                          SocketMessage 0 (Malformed "SyntaxError");
                          UserSelect 2] = Some w' ∧
        connectionStatus w' = Connected ∧ webSocketRef w' = Some 0%nat.
Proof.
  eexists. split; [reflexivity|].
  match goal with |- connectionStatus ?w' = _ ∧ _ =>
    destruct (quiet_events_leave_the_session_alone world_roster w'
      [SocketMessage 0 (Parsed (OfferMessage "v=0" 1));
       Settles 0 (Rejected "InvalidAccessError");
       SocketMessage 0 (Malformed "SyntaxError");
       UserSelect 2]) as (Hc & Hr & _); [reflexivity | reflexivity |]
  end.
  split; [etrans; [exact Hc | reflexivity] | etrans; [exact Hr | reflexivity]].
Defined.

(** ** Clicking again *)

(** X18. In every reachable state, a click on the connect button while
    the status is [Connected] or [Connecting] never starts an attempt:
    no socket is created and no timer is armed, and the status does not
    become [Connected] or [ConnectionError]. *)
Theorem click_during_a_session_starts_no_attempt (w : World) (thrown : option string) :
  reachable w →
  wants_disconnect w = true →
  let w' := exec (handleConnect thrown) w in
  length (webSockets w') = length (webSockets w) ∧
  timers w' = timers w ∧
  (connectionStatus w' = Disconnected ∨ w' = w).
Proof.
  intros [I1 _ _]%reachable_Inv Hd. cbn zeta.
  destruct (webSocketRef w) as [s|] eqn:Hs.
  - destruct (handleConnect_disconnect_fields thrown s w Hd Hs)
      as (_ & _ & Hc & _ & -> & _ & _ & ->).
    rewrite length_alter. auto.
  - assert (Hc : connectionStatus w = Connecting).
    { unfold wants_disconnect in Hd. apply orb_prop in Hd as [Hc|Hc].
      - apply bool_decide_eq_true in Hc. apply I1 in Hc. by destruct Hc.
      - by apply bool_decide_eq_true in Hc. }
    rewrite (handleConnect_idle thrown w Hc Hs). auto.
Qed.

Lemma click_during_a_session_starts_no_attempt_witness :
  reachable (exec (handleConnect None) initial) ∧
  wants_disconnect (exec (handleConnect None) initial) = true ∧
  timers (exec (handleConnect None) (exec (handleConnect None) initial)) = [Armed].
Proof.
  assert (Hr : reachable (exec (handleConnect None) initial))
    by (exists [UserConnect None]; reflexivity).
  assert (Hd : wants_disconnect (exec (handleConnect None) initial) = true) by reflexivity.
  destruct (click_during_a_session_starts_no_attempt _ None Hr Hd) as (_ & Ht & _).
  split; [exact Hr|]. split; [exact Hd|]. etrans; [exact Ht | reflexivity].
Defined.
